(** * Music_Player_Local: the music engine and the song registry

    A shallow embedding of [music_server.py] (class [MusicEngine], the volume
    routes) and of [yt_db.py] ([add_music_entry], [find_by_path],
    [remove_duplicates], [get_duplicate_count]), with the properties of the
    playback, queue and playlist state machine and of the tables behind it
    stated and proved over it.

    Conventions.
    - Python [int] values are [Z]; list positions that Python checks are
      compared in [Z] and converted with [Z.to_nat] only once in range.
    - A song snapshot (a Python [dict]) is the record [song].
    - [self.playlists] (a [dict] from names to lists) is a [gmap string (list song)].
    - The VLC player object is the record [device]; only the calls the engine
      makes are modelled.
    - Whatever the engine reads from outside itself (the file system, the
      [music] table, the random generator, a failing SQLite layer) is a field
      of [env]. *)

From stdpp Require Import gmap strings list fin_maps sorting pretty.
From Stdlib Require Import ZArith Lia.

Local Open Scope Z_scope.
Local Open Scope list_scope.

(** ** Song snapshots *)

Record song := Song {
  file_location : string;
  name : string;
  title : string;
  singer : option string;
  duration : option Z;
  genre : option string
}.

#[global] Instance song_eq_dec : EqDecision song.
Proof. solve_decision. Defined.

(** ** Python list and deque primitives *)

Section PyList.
Context {A : Type}.

(** [l[i]] for a Python [int] index: negative indices count from the end,
    [None] is [IndexError]. *)
Definition py_getitem (l : list A) (i : Z) : option A :=
  let n := Z.of_nat (length l) in
  if bool_decide (0 <= i) then l !! Z.to_nat i
  else if bool_decide (- n <= i) then l !! Z.to_nat (n + i)
  else None.

(** [l.pop(i)]: the removed element and the remaining list; [None] is
    [IndexError]. *)
Definition py_pop (l : list A) (i : Z) : option (A * list A) :=
  let n := Z.of_nat (length l) in
  let k := if bool_decide (0 <= i) then i else n + i in
  if bool_decide (0 <= k < n)
  then match l !! Z.to_nat k with
       | Some x => Some (x, delete (Z.to_nat k) l)
       | None => None
       end
  else None.

(** [l.insert(i, x)]: never raises; the position is clamped to the list. *)
Definition py_insert (l : list A) (i : Z) (x : A) : list A :=
  let n := Z.of_nat (length l) in
  let k := if bool_decide (0 <= i) then Z.min i n else Z.max 0 (n + i) in
  take (Z.to_nat k) l ++ x :: drop (Z.to_nat k) l.

(** [deque(maxlen=m).append(x)]: append on the right, then drop one element
    on the left when the length exceeds [m]. *)
Definition deque_append (maxlen : nat) (d : list A) (x : A) : list A :=
  let d' := d ++ [x] in
  if bool_decide (maxlen < length d')%nat then drop 1 d' else d'.

(** [d.pop()] on a non-empty deque. *)
Definition deque_pop (d : list A) : list A := take (length d - 1)%nat d.
End PyList.

(** ** The media player (python-vlc) *)

Inductive vlc_state := NothingSpecial | Playing | Paused | Stopped | Ended.

Record device := Device {
  media : option string;
  dev_state : vlc_state;
  audio_volume : Z;
  time_ms : Z
}.

Module Player.
Definition stop (p : device) : device :=
  Device (media p) Stopped (audio_volume p) (time_ms p).
Definition set_media (m : string) (p : device) : device :=
  Device (Some m) (dev_state p) (audio_volume p) (time_ms p).
Definition play (p : device) : device :=
  match media p with
  | Some _ => Device (media p) Playing (audio_volume p) (time_ms p)
  | None => p
  end.
Definition pause (p : device) : device :=
  match dev_state p with
  | Playing => Device (media p) Paused (audio_volume p) (time_ms p)
  | Paused => Device (media p) Playing (audio_volume p) (time_ms p)
  | _ => p
  end.
Definition audio_set_volume (v : Z) (p : device) : device :=
  Device (media p) (dev_state p) v (time_ms p).
Definition set_time (t : Z) (p : device) : device :=
  Device (media p) (dev_state p) (audio_volume p) t.
End Player.

(** ** The [music] table of yt_db.py *)

Record music_row := MusicRow {
  m_id : Z;
  m_name : string;
  m_metadata : list (string * string);
  m_singer : option string;
  m_cinema : option string;
  m_album : option string;
  m_duration : option Z;
  m_file_location : string;
  m_genre : option string;
  m_rating : option Z
}.

(** The table and the [sqlite_sequence] counter that AUTOINCREMENT keeps. *)
Record music_table := MusicTable {
  m_rows : list music_row;
  m_seq : Z
}.

Module YtDb.
Section WithPaths.
(** [os.path.abspath] and [os.path.basename]. *)
Variable abspath : string -> string.
Variable basename : string -> string.

Definition max_id (rows : list music_row) : Z :=
  foldr (fun r acc => Z.max (m_id r) acc) 0 rows.

(** [SELECT id FROM music WHERE file_location = ? LIMIT 1]. *)
Definition select_by_location (loc : string) (t : music_table) : option music_row :=
  List.find (fun r => bool_decide (m_file_location r = loc)) (m_rows t).

(** [name or os.path.basename(file_location)]. *)
Definition name_or_basename (name : option string) (loc : string) : string :=
  match name with
  | Some n => if bool_decide (n = EmptyString) then basename loc else n
  | None => basename loc
  end.

Definition add_music_entry
    (file_location : string) (name : option string)
    (metadata : option (list (string * string)))
    (singer cinema album : option string) (duration : option Z)
    (genre : option string) (rating : option Z)
    (t : music_table) : Z * music_table :=
  let file_location := abspath file_location in
  match select_by_location file_location t with
  | Some existing => (m_id existing, t)
  | None =>
      let safe_metadata := default [] metadata in
      let rowid := Z.max (max_id (m_rows t)) (m_seq t) + 1 in
      let row := MusicRow rowid (name_or_basename name file_location)
                   safe_metadata singer cinema album duration
                   file_location genre rating in
      (rowid, MusicTable (m_rows t ++ [row]) rowid)
  end.

(** Number of rows registered for a location. *)
Definition rows_at (loc : string) (t : music_table) : nat :=
  length (filter (fun r => m_file_location r = loc) (m_rows t)).
End WithPaths.

(** [SELECT * FROM music WHERE file_location = ?] followed by [fetchone()]. *)
Definition find_by_path (file_location : string) (t : music_table) : option music_row :=
  List.find (fun r => bool_decide (m_file_location r = file_location)) (m_rows t).

(** [SELECT MIN(id) FROM music GROUP BY name]: the smallest id of one group,
    and the smallest ids of all groups. *)
Definition min_id_of (name : string) (rows : list music_row) : option Z :=
  match m_id <$> filter (fun r => m_name r = name) rows with
  | [] => None
  | i :: ids => Some (foldr Z.min i ids)
  end.

Definition min_ids (rows : list music_row) : list Z :=
  omap (fun name => min_id_of name rows) (remove_dups (m_name <$> rows)).

(** [DELETE FROM music WHERE id NOT IN (SELECT MIN(id) FROM music GROUP BY
    name)], returning [cur.rowcount]. *)
Definition remove_duplicates (t : music_table) : Z * music_table :=
  let kept := filter (fun r => m_id r ∈ min_ids (m_rows t)) (m_rows t) in
  (Z.of_nat (length (m_rows t)) - Z.of_nat (length kept), MusicTable kept (m_seq t)).

(** [SELECT COUNT( * ) - COUNT(DISTINCT name) FROM music]. *)
Definition get_duplicate_count (t : music_table) : Z :=
  Z.of_nat (length (m_rows t)) - Z.of_nat (length (remove_dups (m_name <$> m_rows t))).
End YtDb.

(** ** The playlist tables ([playlists], [playlist_songs]) *)

Record playlist_row := PlaylistRow {
  pl_id : Z;
  pl_name : string
}.

(** [song_data] holds [json.dumps(song)]; the snapshot itself stands for its
    JSON text. *)
Record playlist_song_row := PlaylistSongRow {
  ps_playlist_id : Z;
  ps_song_data : song;
  ps_position : Z
}.

Record database := Database {
  tbl_playlists : list playlist_row;
  tbl_playlist_songs : list playlist_song_row;
  pl_seq : Z
}.

(** A statement either yields a value and the new tables, or raises. *)
Definition stmt (A : Type) : Type := database -> option (A * database).

Module Sql.
Definition ret {A} (a : A) : stmt A := fun d => Some (a, d).
Definition bind {A B} (m : stmt A) (k : A -> stmt B) : stmt B :=
  fun d => match m d with
           | Some (a, d') => k a d'
           | None => None
           end.

Definition max_playlist_id (rows : list playlist_row) : Z :=
  foldr (fun r acc => Z.max (pl_id r) acc) 0 rows.

(** [INSERT INTO playlists (name) VALUES (?)], returning [lastrowid]; the
    UNIQUE constraint on [name] raises when the name is already stored. *)
Definition insert_playlist (name : string) : stmt Z := fun d =>
  if bool_decide (name ∈ pl_name <$> tbl_playlists d) then None
  else
    let rowid := Z.max (max_playlist_id (tbl_playlists d)) (pl_seq d) + 1 in
    Some (rowid, Database (tbl_playlists d ++ [PlaylistRow rowid name])
                          (tbl_playlist_songs d) rowid).

(** [INSERT INTO playlist_songs (playlist_id, song_data, position)]. *)
Definition insert_song (pid : Z) (s : song) (position : Z) : stmt unit := fun d =>
  Some (tt, Database (tbl_playlists d)
                     (tbl_playlist_songs d ++ [PlaylistSongRow pid s position])
                     (pl_seq d)).

(** [for i, song in enumerate(songs): INSERT ... (playlist_id, song, i)]. *)
Fixpoint insert_songs_from (pid : Z) (i : Z) (songs : list song) : stmt unit :=
  match songs with
  | [] => ret tt
  | s :: rest => bind (insert_song pid s i) (fun _ => insert_songs_from pid (i + 1) rest)
  end.

(** [SELECT id FROM playlists WHERE name = ?] followed by [fetchone()]. *)
Definition select_playlist_id (name : string) : stmt (option Z) := fun d =>
  Some (pl_id <$> List.find (fun r => bool_decide (pl_name r = name)) (tbl_playlists d), d).

(** The rows that [WHERE playlist_id = ? AND position = ?] leaves. *)
Definition kept_rows (pid : Z) (position : Z) (rows : list playlist_song_row)
    : list playlist_song_row :=
  filter (fun r => ¬ (ps_playlist_id r = pid ∧ ps_position r = position)) rows.

(** [SET position = position - 1 WHERE playlist_id = ? AND position > ?], on
    one row and on all of them. *)
Definition shift_row (pid : Z) (position : Z) (r : playlist_song_row)
    : playlist_song_row :=
  if bool_decide (ps_playlist_id r = pid ∧ position < ps_position r)
  then PlaylistSongRow (ps_playlist_id r) (ps_song_data r) (ps_position r - 1)
  else r.

Definition shifted_rows (pid : Z) (position : Z) (rows : list playlist_song_row)
    : list playlist_song_row :=
  shift_row pid position <$> rows.

(** [DELETE FROM playlist_songs WHERE playlist_id = ? AND position = ?]. *)
Definition delete_song_at (pid : Z) (position : Z) : stmt unit := fun d =>
  Some (tt, Database (tbl_playlists d)
              (kept_rows pid position (tbl_playlist_songs d))
              (pl_seq d)).

(** [UPDATE playlist_songs SET position = position - 1
     WHERE playlist_id = ? AND position > ?]. *)
Definition shift_positions_after (pid : Z) (position : Z) : stmt unit := fun d =>
  Some (tt, Database (tbl_playlists d)
              (shifted_rows pid position (tbl_playlist_songs d))
              (pl_seq d)).

(** [DELETE FROM playlist_songs WHERE playlist_id = ?]. *)
Definition delete_songs_of (pid : Z) : stmt unit := fun d =>
  Some (tt, Database (tbl_playlists d)
              (filter (fun r => ps_playlist_id r ≠ pid) (tbl_playlist_songs d))
              (pl_seq d)).

(** [DELETE FROM playlists WHERE name = ?]. The membership rows follow only
    when the connection enforces foreign keys ([cascade]). *)
Definition delete_playlist (cascade : bool) (name : string) : stmt unit := fun d =>
  let gone := pl_id <$> filter (fun r => pl_name r = name) (tbl_playlists d) in
  Some (tt, Database (filter (fun r => pl_name r ≠ name) (tbl_playlists d))
              (if cascade
               then filter (fun r => ps_playlist_id r ∉ gone) (tbl_playlist_songs d)
               else tbl_playlist_songs d)
              (pl_seq d)).

(** [UPDATE playlists SET name = ? WHERE name = ?]; the UNIQUE constraint
    raises when a row is renamed onto a name another row holds. *)
Definition rename_playlist (new_name old_name : string) : stmt unit := fun d =>
  let renamed := (fun r => if bool_decide (pl_name r = old_name)
                           then PlaylistRow (pl_id r) new_name else r)
                 <$> tbl_playlists d in
  if bool_decide (NoDup (pl_name <$> renamed))
  then Some (tt, Database renamed (tbl_playlist_songs d) (pl_seq d))
  else None.

(** The membership rows of one playlist, in [ORDER BY position] as
    [_load_saved_playlists] reads them (rows are kept in insertion order, so
    this is the order of a stable sort when positions are distinct). *)
Definition rows_of (pid : Z) (d : database) : list playlist_song_row :=
  filter (fun r => ps_playlist_id r = pid) (tbl_playlist_songs d).

(** [SELECT song_data FROM playlist_songs WHERE playlist_id = ? ORDER BY
    position]. SQLite leaves the order of rows with equal positions open; here
    they come in table order. *)
Definition position_le (r1 r2 : playlist_song_row) : Prop :=
  ps_position r1 <= ps_position r2.

#[global] Instance position_le_dec (r1 r2 : playlist_song_row) :
  Decision (position_le r1 r2).
Proof. unfold position_le. apply _. Defined.

Definition select_songs_ordered (pid : Z) (d : database) : list song :=
  ps_song_data <$> merge_sort position_le (rows_of pid d).
End Sql.

(** ** What the engine reads from outside itself *)

Record env := Env {
  (** [os.path.exists] *)
  path_exists : string -> bool;
  (** [os.path.basename(p)] and [os.path.splitext(os.path.basename(p))[0]] *)
  basename : string -> string;
  stem : string -> string;
  (** the rows of the [music] table *)
  music : list music_row;
  (** the name query of [play_by_name] (exact match, then LIKE): [inl msg] when
      the query raises, [inr None] when no row matches *)
  find_by_name : string -> string + option music_row;
  (** the LIKE query of [search_songs(query, 1)], [None] when it finds nothing
      or raises *)
  search_first : string -> option song;
  (** [random.shuffle] *)
  shuffled : list song -> list song;
  (** [Some msg] when the SQLite layer raises inside a playlist mutation (at
      [connect], [execute] or [commit]); nothing of the transaction is kept *)
  storage_fault : option string;
  (** whether the connection enforces foreign keys (ON DELETE CASCADE) *)
  foreign_keys : bool
}.

(** ** The engine state *)

Inductive repeat_mode := Off | One | All.

#[global] Instance repeat_mode_eq_dec : EqDecision repeat_mode.
Proof. solve_decision. Defined.

Record state := State {
  player : device;
  current_song : option song;
  queue : list song;
  playlists : gmap string (list song);
  current_playlist : list song;
  current_playlist_name : option string;
  playlist_index : Z;
  history : list song;
  is_playing : bool;
  volume : Z;
  is_muted : bool;
  shuffle : bool;
  repeat : repeat_mode;
  (** the playlist tables in the file at DB_PATH *)
  db : database
}.

Definition set_player (v : device) (s : state) : state :=
  State v (current_song s) (queue s) (playlists s) (current_playlist s)
        (current_playlist_name s) (playlist_index s) (history s) (is_playing s)
        (volume s) (is_muted s) (shuffle s) (repeat s) (db s).
Definition set_current_song (v : option song) (s : state) : state :=
  State (player s) v (queue s) (playlists s) (current_playlist s)
        (current_playlist_name s) (playlist_index s) (history s) (is_playing s)
        (volume s) (is_muted s) (shuffle s) (repeat s) (db s).
Definition set_queue (v : list song) (s : state) : state :=
  State (player s) (current_song s) v (playlists s) (current_playlist s)
        (current_playlist_name s) (playlist_index s) (history s) (is_playing s)
        (volume s) (is_muted s) (shuffle s) (repeat s) (db s).
Definition set_playlists (v : gmap string (list song)) (s : state) : state :=
  State (player s) (current_song s) (queue s) v (current_playlist s)
        (current_playlist_name s) (playlist_index s) (history s) (is_playing s)
        (volume s) (is_muted s) (shuffle s) (repeat s) (db s).
Definition set_current_playlist (v : list song) (s : state) : state :=
  State (player s) (current_song s) (queue s) (playlists s) v
        (current_playlist_name s) (playlist_index s) (history s) (is_playing s)
        (volume s) (is_muted s) (shuffle s) (repeat s) (db s).
Definition set_current_playlist_name (v : option string) (s : state) : state :=
  State (player s) (current_song s) (queue s) (playlists s) (current_playlist s)
        v (playlist_index s) (history s) (is_playing s)
        (volume s) (is_muted s) (shuffle s) (repeat s) (db s).
Definition set_playlist_index (v : Z) (s : state) : state :=
  State (player s) (current_song s) (queue s) (playlists s) (current_playlist s)
        (current_playlist_name s) v (history s) (is_playing s)
        (volume s) (is_muted s) (shuffle s) (repeat s) (db s).
Definition set_history (v : list song) (s : state) : state :=
  State (player s) (current_song s) (queue s) (playlists s) (current_playlist s)
        (current_playlist_name s) (playlist_index s) v (is_playing s)
        (volume s) (is_muted s) (shuffle s) (repeat s) (db s).
Definition set_is_playing (v : bool) (s : state) : state :=
  State (player s) (current_song s) (queue s) (playlists s) (current_playlist s)
        (current_playlist_name s) (playlist_index s) (history s) v
        (volume s) (is_muted s) (shuffle s) (repeat s) (db s).
Definition set_volume_field (v : Z) (s : state) : state :=
  State (player s) (current_song s) (queue s) (playlists s) (current_playlist s)
        (current_playlist_name s) (playlist_index s) (history s) (is_playing s)
        v (is_muted s) (shuffle s) (repeat s) (db s).
Definition set_is_muted (v : bool) (s : state) : state :=
  State (player s) (current_song s) (queue s) (playlists s) (current_playlist s)
        (current_playlist_name s) (playlist_index s) (history s) (is_playing s)
        (volume s) v (shuffle s) (repeat s) (db s).
Definition set_shuffle_field (v : bool) (s : state) : state :=
  State (player s) (current_song s) (queue s) (playlists s) (current_playlist s)
        (current_playlist_name s) (playlist_index s) (history s) (is_playing s)
        (volume s) (is_muted s) v (repeat s) (db s).
Definition set_repeat_field (v : repeat_mode) (s : state) : state :=
  State (player s) (current_song s) (queue s) (playlists s) (current_playlist s)
        (current_playlist_name s) (playlist_index s) (history s) (is_playing s)
        (volume s) (is_muted s) (shuffle s) v (db s).
Definition set_db (v : database) (s : state) : state :=
  State (player s) (current_song s) (queue s) (playlists s) (current_playlist s)
        (current_playlist_name s) (playlist_index s) (history s) (is_playing s)
        (volume s) (is_muted s) (shuffle s) (repeat s) v.

Arguments set_player _ _ /.
Arguments set_current_song _ _ /.
Arguments set_queue _ _ /.
Arguments set_playlists _ _ /.
Arguments set_current_playlist _ _ /.
Arguments set_current_playlist_name _ _ /.
Arguments set_playlist_index _ _ /.
Arguments set_history _ _ /.
Arguments set_is_playing _ _ /.
Arguments set_volume_field _ _ /.
Arguments set_is_muted _ _ /.
Arguments set_shuffle_field _ _ /.
Arguments set_repeat_field _ _ /.
Arguments set_db _ _ /.

(** ** What a method hands back *)

Inductive result :=
| RStatus (status : string)                       (* {'status': ...} *)
| RPlayingSong (s : song)                         (* {'status': 'playing', 'song': ...} *)
| RQueued (status : string) (s : song)            (* {'status': ..., 'song': ...} *)
| RPlaylistSong (status : string) (playlist : string) (s : song)
| RPlaylist (status : string) (playlist : string)
| RCreated (name : string) (song_count : nat)
| RRenamed (old_name new_name : string)
| RVolume (v : Z)
| RMuted (b : bool)
| RPosition (seconds : Z)
| RRepeat (m : repeat_mode)
| RShuffle (b : bool)
| RError (msg : string)                           (* {'error': ...} *)
| RNone                                           (* no value ([None]) *)
| RRaised (exn : string).                         (* an exception leaves the method *)

Definition is_error (r : result) : bool :=
  match r with RError _ => true | _ => false end.

(** Python slices [l[k:]] and [l[:k]]. *)
Definition py_slice_bound {A} (l : list A) (k : Z) : nat :=
  let n := Z.of_nat (length l) in
  Z.to_nat (if bool_decide (0 <= k) then Z.min k n else Z.max 0 (n + k)).
Definition py_slice_from {A} (l : list A) (k : Z) : list A := drop (py_slice_bound l k) l.
Definition py_slice_to {A} (l : list A) (k : Z) : list A := take (py_slice_bound l k) l.

(** ** class MusicEngine *)

Module MusicEngine.

Definition HISTORY_MAXLEN : nat := 50.

(** The state [__init__] builds, before the stored playlists are loaded. *)
Definition init (d : database) : state :=
  State (Device None NothingSpecial 100 0) None [] ∅ [] None 0 [] false 75 false
        false Off d.

Definition parse_repeat (mode : string) : option repeat_mode :=
  if bool_decide (mode = "off") then Some Off
  else if bool_decide (mode = "one") then Some One
  else if bool_decide (mode = "all") then Some All
  else None.

Section WithEnv.
Variable E : env.

Definition _get_song_info (file_path : string) : option song :=
  match List.find (fun r => bool_decide (m_file_location r = file_path)) (music E) with
  | Some r => Some (Song file_path (m_name r) (m_name r) (m_singer r)
                         (m_duration r) (m_genre r))
  | None => None
  end.

Definition _search_song (query : string) : option song := search_first E query.

Definition play_file (file_path : string) (s : state) : result * state :=
  if negb (path_exists E file_path)
  then (RError ("File not found: " +:+ file_path), s)
  else
    let p := Player.play (Player.set_media file_path (Player.stop (player s))) in
    let song_info :=
      match _get_song_info file_path with
      | Some info => info
      | None => Song file_path (stem E file_path) (basename E file_path) None None None
      end in
    let s := set_player p s in
    let s := set_current_song (Some song_info) s in
    let s := set_is_playing true s in
    let s := set_history (deque_append HISTORY_MAXLEN (history s) song_info) s in
    let s := if is_muted s then s
             else set_player (Player.audio_set_volume (volume s) (player s)) s in
    (RPlayingSong song_info, s).

Definition play_by_name (name : string) (s : state) : result * state :=
  if path_exists E name then play_file name s
  else match find_by_name E name with
       | inl e => (RError ("Database error: " +:+ e), s)
       | inr (Some r) =>
           let s := set_current_song
                      (Some (Song (m_file_location r) (m_name r) (m_name r)
                                  (m_singer r) (m_duration r) None)) s in
           play_file (m_file_location r) s
       | inr None => (RError ("Song not found: " +:+ name), s)
       end.

Definition pause (s : state) : result * state :=
  if is_playing s
  then (RStatus "paused", set_is_playing false (set_player (Player.pause (player s)) s))
  else (RStatus "already_paused", s).

Definition resume (s : state) : result * state :=
  if negb (is_playing s) && bool_decide (is_Some (current_song s))
  then (RStatus "resumed", set_is_playing true (set_player (Player.play (player s)) s))
  else (RStatus "nothing_to_resume", s).

Definition stop (s : state) : result * state :=
  let s := set_player (Player.stop (player s)) s in
  let s := set_is_playing false s in
  let s := set_current_song None s in
  let s := set_current_playlist_name None s in
  (RStatus "stopped", s).

(** [self.play_file(self.current_playlist[i]['file_location'])] *)
Definition play_index (i : Z) (s : state) : result * state :=
  match py_getitem (current_playlist s) i with
  | Some x => play_file (file_location x) s
  | None => (RRaised "IndexError", s)
  end.

Definition next (s : state) : result * state :=
  match queue s with
  | next_song :: rest =>
      play_file (file_location next_song) (set_queue rest s)
  | [] =>
      match current_playlist s with
      | _ :: _ =>
          let s := set_playlist_index (playlist_index s + 1) s in
          if bool_decide (Z.of_nat (length (current_playlist s)) <= playlist_index s)
          then if bool_decide (repeat s = All)
               then let s := set_playlist_index 0 s in
                    play_index (playlist_index s) s
               else (RStatus "end_of_playlist", s)
          else play_index (playlist_index s) s
      | [] => (RStatus "no_next_song", s)
      end
  end.

(** The handler has no [return] value: what the calls it makes hand back is
    dropped, an exception still leaves it. *)
Definition dropped (o : result * state) : result * state :=
  match fst o with
  | RRaised e => o
  | _ => (RNone, snd o)
  end.

Definition _handle_song_end (s : state) : result * state :=
  if bool_decide (repeat s = One)
  then match current_song s with
       | Some cur => dropped (play_file (file_location cur) s)
       | None => (RRaised "TypeError", s)
       end
  else
    match queue s with
    | next_song :: rest =>
        dropped (play_file (file_location next_song) (set_queue rest s))
    | [] =>
        match current_playlist s with
        | _ :: _ =>
            let s := set_playlist_index (playlist_index s + 1) s in
            if bool_decide (Z.of_nat (length (current_playlist s)) <= playlist_index s)
            then if bool_decide (repeat s = All)
                 then let s := set_playlist_index 0 s in
                      dropped (play_index (playlist_index s) s)
                 else dropped (stop s)
            else dropped (play_index (playlist_index s) s)
        | [] => dropped (stop s)
        end
    end.

Definition seek (position : Z) (s : state) : result * state :=
  match current_song s with
  | Some _ => (RPosition position,
               set_player (Player.set_time (position * 1000) (player s)) s)
  | None => (RError "No song playing", s)
  end.

Definition previous (s : state) : result * state :=
  if bool_decide (current_playlist s ≠ []) && bool_decide (0 < playlist_index s)
  then let s := set_playlist_index (playlist_index s - 1) s in
       play_index (playlist_index s) s
  else if bool_decide (2 <= length (history s))%nat
  then let s := set_history (deque_pop (history s)) s in
       match last (history s) with
       | Some prev => play_file (file_location prev) s
       | None => (RRaised "IndexError", s)
       end
  else match current_song s with
       | Some _ => (RStatus "restarted", snd (seek 0 s))
       | None => (RStatus "no_previous_song", s)
       end.

Definition add_to_queue (song_name : string) (s : state) : result * state :=
  match _search_song song_name with
  | Some song_data =>
      (RQueued "added_to_queue" song_data, set_queue (queue s ++ [song_data]) s)
  | None => (RError ("Song not found: " +:+ song_name), s)
  end.

Definition clear_queue (s : state) : result * state :=
  (RStatus "queue_cleared", set_queue [] s).

Definition remove_from_queue (index : Z) (s : state) : result * state :=
  if bool_decide (0 <= index < Z.of_nat (length (queue s)))
  then match py_pop (queue s) index with
       | Some (removed, queue_list) =>
           (RQueued "removed_from_queue" removed, set_queue queue_list s)
       | None => (RError "pop index out of range", s)
       end
  else (RError "Invalid queue index", s).

Definition set_volume (level : Z) (s : state) : result * state :=
  let s := set_volume_field (Z.max 0 (Z.min 100 level)) s in
  let s := if is_muted s then s
           else set_player (Player.audio_set_volume (volume s) (player s)) s in
  (RVolume (volume s), s).

Definition toggle_mute (s : state) : result * state :=
  let s := if is_muted s
           then let s := set_is_muted false s in
                set_player (Player.audio_set_volume (volume s) (player s)) s
           else let s := set_is_muted true s in
                set_player (Player.audio_set_volume 0 (player s)) s in
  (RMuted (is_muted s), s).

Definition set_repeat (mode : string) (s : state) : result * state :=
  match parse_repeat mode with
  | Some m => (RRepeat m, set_repeat_field m s)
  | None => (RError "Invalid repeat mode", s)
  end.

Definition set_shuffle (enabled : bool) (s : state) : result * state :=
  let s := set_shuffle_field enabled s in
  let s := if enabled && bool_decide (current_playlist s ≠ [])
           then let remaining :=
                  shuffled E (py_slice_from (current_playlist s) (playlist_index s + 1)) in
                set_current_playlist
                  (py_slice_to (current_playlist s) (playlist_index s + 1) ++ remaining) s
           else s in
  (RShuffle enabled, s).

(** *** Playlist management *)

(** The statements between [sqlite3.connect] and [conn.commit()]: the new
    tables are kept only when every statement and the commit go through. *)
Definition transaction {A} (tx : stmt A) (s : state) : string + (A * state) :=
  match storage_fault E with
  | Some msg => inl msg
  | None =>
      match tx (db s) with
      | Some (a, d) => inr (a, set_db d s)
      | None => inl "UNIQUE constraint failed: playlists.name"
      end
  end.

Definition dq : string := String (Ascii.ascii_of_nat 34) EmptyString.
Definition quoted (name : string) : string := dq +:+ name +:+ dq.
Definition not_found (name : string) : result :=
  RError ("Playlist " +:+ quoted name +:+ " not found").
Definition already_exists (name : string) : result :=
  RError ("Playlist " +:+ quoted name +:+ " already exists").

Definition create_playlist (name : string) (songs : option (list song)) (s : state)
    : result * state :=
  if bool_decide (is_Some (playlists s !! name)) then (already_exists name, s)
  else
    let songs := default [] songs in
    match transaction
            (Sql.bind (Sql.insert_playlist name) (fun playlist_id =>
             Sql.insert_songs_from playlist_id 0 songs)) s with
    | inr (_, s) =>
        let s := set_playlists (<[name := songs]> (playlists s)) s in
        (RCreated name (length songs), s)
    | inl e => (RError ("Failed to create playlist: " +:+ e), s)
    end.

Definition delete_playlist (name : string) (s : state) : result * state :=
  if bool_decide (name = "Library") then (RError "Cannot delete Library playlist", s)
  else if bool_decide (playlists s !! name = None) then (not_found name, s)
  else
    match transaction (Sql.delete_playlist (foreign_keys E) name) s with
    | inr (_, s) =>
        let s := set_playlists (delete name (playlists s)) s in
        let s := if bool_decide (current_playlist_name s = Some name)
                 then set_playlist_index 0
                        (set_current_playlist_name None (set_current_playlist [] s))
                 else s in
        (RPlaylist "playlist_deleted" name, s)
    | inl e => (RError ("Failed to delete playlist: " +:+ e), s)
    end.

Definition add_to_playlist (playlist_name song_name : string) (s : state)
    : result * state :=
  match playlists s !! playlist_name with
  | None => (not_found playlist_name, s)
  | Some playlist =>
      let found :=
        match _search_song song_name with
        | Some song_data => Some song_data
        | None =>
            if path_exists E song_name
            then Some (Song song_name (stem E song_name) (stem E song_name) None None None)
            else None
        end in
      match found with
      | None => (RError ("Song not found: " +:+ song_name), s)
      | Some song_data =>
          match transaction
                  (Sql.bind (Sql.select_playlist_id playlist_name) (fun result =>
                   match result with
                   | Some playlist_id =>
                       Sql.insert_song playlist_id song_data (Z.of_nat (length playlist))
                   | None => Sql.ret tt
                   end)) s with
          | inr (_, s) =>
              let s := set_playlists
                         (<[playlist_name := playlist ++ [song_data]]> (playlists s)) s in
              let s := if bool_decide (current_playlist_name s = Some playlist_name)
                       then set_current_playlist (current_playlist s ++ [song_data]) s
                       else s in
              (RPlaylistSong "song_added_to_playlist" playlist_name song_data, s)
          | inl e => (RError ("Failed to add song to playlist: " +:+ e), s)
          end
      end
  end.

Definition remove_from_playlist (playlist_name : string) (index : Z) (s : state)
    : result * state :=
  match playlists s !! playlist_name with
  | None => (not_found playlist_name, s)
  | Some playlist =>
      if bool_decide (playlist_name = "Library")
      then (RError "Cannot modify Library playlist", s)
      else if negb (bool_decide (0 <= index < Z.of_nat (length playlist)))
      then (RError "Invalid song index", s)
      else
        match py_getitem playlist index with
        | None => (RError "Failed to remove song from playlist: list index out of range", s)
        | Some removed_song =>
            match transaction
                    (Sql.bind (Sql.select_playlist_id playlist_name) (fun result =>
                     match result with
                     | Some playlist_id =>
                         Sql.bind (Sql.delete_song_at playlist_id index) (fun _ =>
                         Sql.shift_positions_after playlist_id index)
                     | None => Sql.ret tt
                     end)) s with
            | inl e => (RError ("Failed to remove song from playlist: " +:+ e), s)
            | inr (_, s) =>
                let s := set_playlists
                           (<[playlist_name := delete (Z.to_nat index) playlist]>
                              (playlists s)) s in
                if bool_decide (current_playlist_name s = Some playlist_name)
                then match py_pop (current_playlist s) index with
                     | None =>
                         (RError "Failed to remove song from playlist: pop index out of range", s)
                     | Some (_, rest) =>
                         let s := set_current_playlist rest s in
                         let s := if bool_decide (index < playlist_index s)
                                  then set_playlist_index (playlist_index s - 1) s
                                  else s in
                         (RPlaylistSong "song_removed_from_playlist" playlist_name removed_song, s)
                     end
                else (RPlaylistSong "song_removed_from_playlist" playlist_name removed_song, s)
            end
        end
  end.

(** [song = l.pop(from_index); l.insert(to_index, song)] *)
Definition move {A} (l : list A) (from_index to_index : Z) : option (list A) :=
  match py_pop l from_index with
  | Some (x, rest) => Some (py_insert rest to_index x)
  | None => None
  end.

Definition reorder_playlist (playlist_name : string) (from_index to_index : Z)
    (s : state) : result * state :=
  match playlists s !! playlist_name with
  | None => (not_found playlist_name, s)
  | Some playlist =>
      if bool_decide (playlist_name = "Library")
      then (RError "Cannot reorder Library playlist", s)
      else if negb (bool_decide (0 <= from_index < Z.of_nat (length playlist))
                    && bool_decide (0 <= to_index < Z.of_nat (length playlist)))
      then (RError "Invalid indices", s)
      else
        match move playlist from_index to_index with
        | None => (RError "Failed to reorder playlist: pop index out of range", s)
        | Some playlist =>
            (* the stored list is reordered in place before the tables are touched *)
            let s := set_playlists (<[playlist_name := playlist]> (playlists s)) s in
            match transaction
                    (Sql.bind (Sql.select_playlist_id playlist_name) (fun result =>
                     match result with
                     | Some playlist_id =>
                         Sql.bind (Sql.delete_songs_of playlist_id) (fun _ =>
                         Sql.insert_songs_from playlist_id 0 playlist)
                     | None => Sql.ret tt
                     end)) s with
            | inl e => (RError ("Failed to reorder playlist: " +:+ e), s)
            | inr (_, s) =>
                if bool_decide (current_playlist_name s = Some playlist_name)
                then match move (current_playlist s) from_index to_index with
                     | None => (RError "Failed to reorder playlist: pop index out of range", s)
                     | Some bound =>
                         let s := set_current_playlist bound s in
                         let s :=
                           if bool_decide (playlist_index s = from_index)
                           then set_playlist_index to_index s
                           else if bool_decide (from_index < playlist_index s <= to_index)
                           then set_playlist_index (playlist_index s - 1) s
                           else if bool_decide (to_index <= playlist_index s < from_index)
                           then set_playlist_index (playlist_index s + 1) s
                           else s in
                         (RPlaylist "playlist_reordered" playlist_name, s)
                     end
                else (RPlaylist "playlist_reordered" playlist_name, s)
            end
        end
  end.

Definition play_playlist (name : string) (s : state) : result * state :=
  match playlists s !! name with
  | None => (not_found name, s)
  | Some [] => (RError ("Playlist " +:+ quoted name +:+ " is empty"), s)
  | Some playlist =>
      let s := set_current_playlist playlist s in
      let s := set_current_playlist_name (Some name) s in
      let s := set_playlist_index 0 s in
      let s := if shuffle s then set_current_playlist (shuffled E (current_playlist s)) s
               else s in
      play_index 0 s
  end.

Definition rename_playlist (old_name new_name : string) (s : state) : result * state :=
  if bool_decide (old_name = "Library") then (RError "Cannot rename Library playlist", s)
  else match playlists s !! old_name with
       | None => (not_found old_name, s)
       | Some playlist =>
           if bool_decide (is_Some (playlists s !! new_name))
           then (already_exists new_name, s)
           else
             match transaction (Sql.rename_playlist new_name old_name) s with
             | inl e => (RError ("Failed to rename playlist: " +:+ e), s)
             | inr (_, s) =>
                 let s := set_playlists
                            (<[new_name := playlist]> (delete old_name (playlists s))) s in
                 let s := if bool_decide (current_playlist_name s = Some old_name)
                          then set_current_playlist_name (Some new_name) s
                          else s in
                 (RRenamed old_name new_name, s)
             end
       end.

(** [get_playlist_songs]: the error message, or the name, the songs and
    their count. *)
Definition get_playlist_songs (playlist_name : string) (s : state)
    : string + (string * list song * nat) :=
  match playlists s !! playlist_name with
  | None => inl ("Playlist " +:+ quoted playlist_name +:+ " not found")
  | Some songs => inr (playlist_name, songs, length songs)
  end.

(** The names [duplicate_playlist] tries: "<name> (Copy)", then
    "<name> (Copy 2)", "<name> (Copy 3)", ... *)
Definition copy_name (playlist_name : string) (i : Z) : string :=
  playlist_name +:+ " (Copy " +:+ pretty i +:+ ")".

(** [while new_name in self.playlists: i += 1; new_name = ...], run for at
    most [fuel] rounds. *)
Fixpoint copy_name_loop (fuel : nat) (taken : gmap string (list song))
    (playlist_name : string) (i : Z) (new_name : string) : option string :=
  if bool_decide (is_Some (taken !! new_name))
  then match fuel with
       | O => None
       | S fuel =>
           copy_name_loop fuel taken playlist_name (i + 1)
             (copy_name playlist_name (i + 1))
       end
  else Some new_name.

Definition duplicate_playlist (playlist_name : string) (new_name : option string)
    (s : state) : result * state :=
  match playlists s !! playlist_name with
  | None => (not_found playlist_name, s)
  | Some playlist =>
      let generated :=
        copy_name_loop (size (playlists s)) (playlists s) playlist_name 1
          (playlist_name +:+ " (Copy)") in
      let chosen :=
        match new_name with
        | Some n => if bool_decide (n = EmptyString) then generated else Some n
        | None => generated
        end in
      match chosen with
      | None => (RRaised "loop still running", s)
      | Some new_name =>
          if bool_decide (is_Some (playlists s !! new_name))
          then (already_exists new_name, s)
          else create_playlist new_name (Some playlist) s
      end
  end.

(** [_load_saved_playlists]. The whole body sits in one [try] whose [except]
    only prints: when [sqlite3.connect] or the query for the playlists raises,
    nothing is assigned; inside the loop every playlist is put in the map as
    soon as its songs are read, in the order of its positions, so when the
    query for the songs of a later playlist raises, the playlists read before
    it stay in the map and the others keep what they had. [reads] is the
    number of song queries that go through before one raises, [None] when none
    does. *)
Definition rows_read (reads : option nat) (rows : list playlist_row)
    : list playlist_row :=
  match reads with
  | Some k => take k rows
  | None => rows
  end.

Definition _load_saved_playlists (reads : option nat) (s : state) : state :=
  match storage_fault E with
  | Some _ => s
  | None =>
      set_playlists
        (foldl (fun loaded r =>
                  <[pl_name r := Sql.select_songs_ordered (pl_id r) (db s)]> loaded)
               (playlists s) (rows_read reads (tbl_playlists (db s))))
        s
  end.
End WithEnv.
End MusicEngine.

(** ** The volume routes of the Flask server *)

Module Routes.
(** [/volume/up]: [engine.set_volume(engine.volume + 10)]. *)
Definition volume_up (s : state) : result * state :=
  MusicEngine.set_volume (volume s + 10) s.

(** [/volume/down]: [engine.set_volume(engine.volume - 10)]. *)
Definition volume_down (s : state) : result * state :=
  MusicEngine.set_volume (volume s - 10) s.
End Routes.

(** ** One request, or one tick of the monitor thread *)

Inductive op :=
| OpPlayFile (file_path : string)
| OpPlayByName (name : string)
| OpPause | OpResume | OpStop | OpNext | OpPrevious
| OpSongEnd
| OpAddToQueue (song_name : string)
| OpClearQueue
| OpRemoveFromQueue (index : Z)
| OpSetVolume (level : Z)
| OpToggleMute
| OpSeek (position : Z)
| OpSetRepeat (mode : string)
| OpSetShuffle (enabled : bool)
| OpCreatePlaylist (name : string) (songs : option (list song))
| OpDeletePlaylist (name : string)
| OpAddToPlaylist (playlist_name song_name : string)
| OpRemoveFromPlaylist (playlist_name : string) (index : Z)
| OpReorderPlaylist (playlist_name : string) (from_index to_index : Z)
| OpPlayPlaylist (name : string)
| OpRenamePlaylist (old_name new_name : string).

Definition step (E : env) (o : op) (s : state) : result * state :=
  match o with
  | OpPlayFile p => MusicEngine.play_file E p s
  | OpPlayByName n => MusicEngine.play_by_name E n s
  | OpPause => MusicEngine.pause s
  | OpResume => MusicEngine.resume s
  | OpStop => MusicEngine.stop s
  | OpNext => MusicEngine.next E s
  | OpPrevious => MusicEngine.previous E s
  | OpSongEnd => MusicEngine._handle_song_end E s
  | OpAddToQueue n => MusicEngine.add_to_queue E n s
  | OpClearQueue => MusicEngine.clear_queue s
  | OpRemoveFromQueue i => MusicEngine.remove_from_queue i s
  | OpSetVolume v => MusicEngine.set_volume v s
  | OpToggleMute => MusicEngine.toggle_mute s
  | OpSeek p => MusicEngine.seek p s
  | OpSetRepeat m => MusicEngine.set_repeat m s
  | OpSetShuffle b => MusicEngine.set_shuffle E b s
  | OpCreatePlaylist n l => MusicEngine.create_playlist E n l s
  | OpDeletePlaylist n => MusicEngine.delete_playlist E n s
  | OpAddToPlaylist p n => MusicEngine.add_to_playlist E p n s
  | OpRemoveFromPlaylist p i => MusicEngine.remove_from_playlist E p i s
  | OpReorderPlaylist p f t => MusicEngine.reorder_playlist E p f t s
  | OpPlayPlaylist n => MusicEngine.play_playlist E n s
  | OpRenamePlaylist o n => MusicEngine.rename_playlist E o n s
  end.

(** The states the server can be in: the state after start-up, with the
    playlists [_load_library] and [_load_saved_playlists] put in the map, and
    every state one more call leads to, the outside world being at that call
    any world that [W] admits. *)
Inductive reachable_in (W : env -> Prop) : state -> Prop :=
| reachable_start (d : database) (loaded : gmap string (list song)) :
    reachable_in W (set_playlists loaded (MusicEngine.init d))
| reachable_step (E : env) (o : op) (s : state) :
    W E -> reachable_in W s -> reachable_in W (snd (step E o s)).

(** No assumption on the outside world. *)
Definition reachable : state -> Prop := reachable_in (fun _ => True).

(** [random.shuffle] reorders its list and does nothing else. *)
Definition shuffle_permutes (E : env) : Prop := ∀ l, shuffled E l ≡ₚ l.

(** ** Notions the properties are stated with *)

(** clamp(v, lo, hi), as the specification words it. *)
Definition clamp (v lo hi : Z) : Z :=
  if v <? lo then lo else if hi <? v then hi else v.

(** The song at [file_path] is what the engine is playing. *)
Definition now_playing (file_path : string) (s : state) : Prop :=
  (file_location <$> current_song s) = Some file_path ∧
  is_playing s = true ∧
  media (player s) = Some file_path ∧
  dev_state (player s) = Playing.

(** Playback is stopped: no current song and not marked playing. *)
Definition stopped (s : state) : Prop :=
  current_song s = None ∧ is_playing s = false.

(** The membership rows a list of songs is stored as, from position [k] on. *)
Fixpoint rows_from (pid : Z) (k : Z) (songs : list song) : list playlist_song_row :=
  match songs with
  | [] => []
  | x :: rest => PlaylistSongRow pid x k :: rows_from pid (k + 1) rest
  end.

(** The stored membership of playlist [pid] is [songs] at the dense positions
    0, 1, ..., in whatever order the rows lie in the table. *)
Definition stored_as (pid : Z) (songs : list song) (d : database) : Prop :=
  Sql.rows_of pid d ≡ₚ rows_from pid 0 songs.

(** The id the [playlists] table has for a name. *)
Definition playlist_id_of (name : string) (d : database) : option Z :=
  pl_id <$> List.find (fun r => bool_decide (pl_name r = name)) (tbl_playlists d).

(** The tables after the statements of [remove_from_playlist] went through. *)
Definition db_after_remove (name : string) (index : Z) (d : database) : database :=
  match playlist_id_of name d with
  | Some pid =>
      Database (tbl_playlists d)
        (Sql.shifted_rows pid index (Sql.kept_rows pid index (tbl_playlist_songs d)))
        (pl_seq d)
  | None => d
  end.

(** The tables after the statements of [reorder_playlist] went through. *)
Definition db_after_reorder (name : string) (songs : list song) (d : database)
    : database :=
  match playlist_id_of name d with
  | Some pid =>
      Database (tbl_playlists d)
        (filter (fun r => ps_playlist_id r ≠ pid) (tbl_playlist_songs d)
           ++ rows_from pid 0 songs)
        (pl_seq d)
  | None => d
  end.

(** The scenario: toggle_mute(), set_volume(50), toggle_mute(). *)
Definition mute_set50_unmute (s : state) : state :=
  snd (MusicEngine.toggle_mute
         (snd (MusicEngine.set_volume 50 (snd (MusicEngine.toggle_mute s))))).

(** The history respects its bound. *)
Definition history_ok (s : state) : Prop :=
  (length (history s) <= MusicEngine.HISTORY_MAXLEN)%nat.

(** The paths the [music] table holds, one per row. *)
Definition locations (t : music_table) : list string :=
  m_file_location <$> m_rows t.

(** The bound copy belongs to a stored playlist and is as long as it. *)
Definition binding_ok (s : state) : Prop :=
  ∀ name, current_playlist_name s = Some name ->
    ∃ playlist, playlists s !! name = Some playlist
                ∧ length (current_playlist s) = length playlist.

(** Two states with the same stored playlists and the same binding. *)
Definition same_binding (s s' : state) : Prop :=
  playlists s' = playlists s
  ∧ current_playlist s' = current_playlist s
  ∧ current_playlist_name s' = current_playlist_name s.

(** Where an index goes when the entry at [from_index] is moved to
    [to_index], in the words of the specification: to the destination if it was
    the moved entry, one step toward [from_index] if it lay in the range the
    entry moved over, nowhere otherwise. *)
Definition moved_over (from_index to_index i : Z) : Prop :=
  (from_index < i ∧ i <= to_index) ∨ (to_index <= i ∧ i < from_index).

Definition toward (from_index i : Z) : Z :=
  if bool_decide (from_index < i) then i - 1 else i + 1.

Definition follow_move (from_index to_index i : Z) : Z :=
  if bool_decide (i = from_index) then to_index
  else if bool_decide (moved_over from_index to_index i) then toward from_index i
  else i.

(** Where an index goes when the entry at [index] is removed. *)
Definition follow_remove (index i : Z) : Z :=
  if bool_decide (index < i) then i - 1 else i.

(** The snapshot [play_file] takes of a file: the row of the [music] table
    when there is one, names made from the file name otherwise. *)
Definition snapshot (E : env) (file_path : string) : song :=
  default (Song file_path (stem E file_path) (basename E file_path) None None None)
          (MusicEngine._get_song_info E file_path).

(** [n] calls of [next], one after the other. *)
Definition nexts (E : env) (n : nat) (s : state) : state :=
  Nat.iter n (fun st => snd (MusicEngine.next E st)) s.

(** The volume is in range, and a muted engine has the device at 0. *)
Definition volume_ok (s : state) : Prop :=
  0 <= volume s <= 100 ∧ (is_muted s = true -> audio_volume (player s) = 0).

(** The stored "Library" list is still there and has only grown at its end. *)
Definition library_extends (s s' : state) : Prop :=
  ∀ l, playlists s !! "Library" = Some l ->
       ∃ added, playlists s' !! "Library" = Some (l ++ added).

(** No membership row refers to a playlist id that was never handed out. *)
Definition ids_known (d : database) : Prop :=
  ∀ r, r ∈ tbl_playlist_songs d ->
       ps_playlist_id r <= Z.max (Sql.max_playlist_id (tbl_playlists d)) (pl_seq d).

(** The [playlists] table after [UPDATE playlists SET name = new WHERE name =
    old]. *)
Definition renamed_rows (new_name old_name : string) (rows : list playlist_row)
    : list playlist_row :=
  (fun r => if bool_decide (pl_name r = old_name)
            then PlaylistRow (pl_id r) new_name else r) <$> rows.

(** The calls that can answer with an error and are meant to do nothing
    when they do. *)
Definition all_or_nothing (o : op) : bool :=
  match o with
  | OpPlayFile _ | OpAddToQueue _ | OpRemoveFromQueue _ | OpSeek _ | OpSetRepeat _
  | OpCreatePlaylist _ _ | OpDeletePlaylist _ | OpAddToPlaylist _ _
  | OpRemoveFromPlaylist _ _ | OpRenamePlaylist _ _ => true
  | _ => false
  end.

(** The tables after the statements of [create_playlist], [add_to_playlist],
    [delete_playlist] and [rename_playlist] went through. *)
Definition db_after_create (name : string) (songs : list song) (d : database)
    : database :=
  let pid := Z.max (Sql.max_playlist_id (tbl_playlists d)) (pl_seq d) + 1 in
  Database (tbl_playlists d ++ [PlaylistRow pid name])
           (tbl_playlist_songs d ++ rows_from pid 0 songs) pid.

Definition db_after_add (name : string) (x : song) (position : Z) (d : database)
    : database :=
  match playlist_id_of name d with
  | Some pid =>
      Database (tbl_playlists d)
               (tbl_playlist_songs d ++ [PlaylistSongRow pid x position]) (pl_seq d)
  | None => d
  end.

Definition db_after_delete (cascade : bool) (name : string) (d : database)
    : database :=
  Database (filter (fun r => pl_name r ≠ name) (tbl_playlists d))
           (if cascade
            then filter (fun r => ps_playlist_id r ∉
                                    pl_id <$> filter (fun r => pl_name r = name)
                                                (tbl_playlists d))
                        (tbl_playlist_songs d)
            else tbl_playlist_songs d)
           (pl_seq d).

Definition db_after_rename (new_name old_name : string) (d : database) : database :=
  Database (renamed_rows new_name old_name (tbl_playlists d))
           (tbl_playlist_songs d) (pl_seq d).

(** The tables are as SQLite keeps them: names and ids of the [playlists]
    table are unique, and the AUTOINCREMENT counter is not below any id that
    is, or was, in use. *)
Definition tables_ok (d : database) : Prop :=
  NoDup (pl_name <$> tbl_playlists d)
  ∧ NoDup (pl_id <$> tbl_playlists d)
  ∧ Sql.max_playlist_id (tbl_playlists d) <= pl_seq d
  ∧ ∀ r, r ∈ tbl_playlist_songs d -> ps_playlist_id r <= pl_seq d.

(** The tables mirror the map: every playlist of the table is in the map with
    the list that is stored for it at the positions 0, 1, ..., and every
    playlist of the map other than "Library" is in the table. *)
Definition mirror (m : gmap string (list song)) (d : database) : Prop :=
  tables_ok d
  ∧ (∀ name pid, playlist_id_of name d = Some pid ->
       ∃ songs, m !! name = Some songs ∧ stored_as pid songs d)
  ∧ (∀ name, name ≠ "Library" -> is_Some (m !! name) ->
       is_Some (playlist_id_of name d)).

Definition mirrored (s : state) : Prop := mirror (playlists s) (db s).

(** A sequence of calls, each in the outside world of its moment. *)
Definition run (calls : list (env * op)) (s : state) : state :=
  foldl (fun st eo => snd (step eo.1 eo.2 st)) s calls.

(** The call is not a [reorder_playlist] made while storage fails. *)
Definition no_failing_reorder (eo : env * op) : Prop :=
  match eo.2 with
  | OpReorderPlaylist _ _ _ => storage_fault eo.1 = None
  | _ => True
  end.

(** The row has the smallest id among the rows that carry its name. *)
Definition first_of_its_name (rows : list music_row) (r : music_row) : Prop :=
  ∀ r', r' ∈ rows -> m_name r' = m_name r -> m_id r <= m_id r'.

(** ** Sample worlds and states *)

Module Sample.
Definition song_a : song := Song "/music/a.mp3" "a" "a.mp3" None None None.
Definition song_b : song := Song "/music/b.mp3" "b" "b.mp3" None None None.
Definition song_c : song := Song "/music/c.mp3" "c" "c.mp3" None None None.

(** Every file is there, the [music] table is empty, storage works. *)
Definition world : env :=
  Env (fun _ => true) (fun p => p) (fun p => p) [] (fun _ => inr None)
      (fun _ => None) (fun l => l) None false.

(** The same world after the files were deleted from the disk. *)
Definition world_no_files : env :=
  Env (fun _ => false) (fun p => p) (fun p => p) [] (fun _ => inr None)
      (fun _ => None) (fun l => l) None false.

(** The same world with the database file locked. *)
Definition world_db_locked : env :=
  Env (fun _ => true) (fun p => p) (fun p => p) [] (fun _ => inr None)
      (fun _ => None) (fun l => l) (Some "database is locked") false.

(** Playlist "P" = [a; b; c], stored under id 1. *)
Definition tables : database :=
  Database [PlaylistRow 1 "P"] (rows_from 1 0 [song_a; song_b; song_c]) 1.

Definition loaded : state :=
  set_playlists (<["P" := [song_a; song_b; song_c]]> (<["Library" := []]> ∅))
                (MusicEngine.init tables).

(** "P" is bound and its last song is playing. *)
Definition at_last : state :=
  State (Device (Some "/music/c.mp3") Playing 75 0) (Some song_c) []
        (playlists loaded) [song_a; song_b; song_c] (Some "P") 2
        [song_a; song_b; song_c] true 75 false false Off tables.

(** "P" is bound, its first song is playing, and [song_c] waits in the queue. *)
Definition queued : state :=
  State (Device (Some "/music/a.mp3") Playing 75 0) (Some song_a) [song_c]
        (playlists loaded) [song_a; song_b; song_c] (Some "P") 0
        [song_a] true 75 false false Off tables.

(** "P" is bound and its first song is playing; nothing is queued. *)
Definition playing_first : state := set_queue [] queued.

(** A muted engine. *)
Definition muted : state :=
  set_is_muted true (set_player (Device None NothingSpecial 0 0) loaded).

(** A history that holds 50 entries. *)
Definition full_history : state :=
  set_history (song_a :: replicate 49 song_b) loaded.

(** A world whose [music] table answers the searches for "b" and "c". *)
Definition world_search : env :=
  Env (fun _ => true) (fun p => p) (fun p => p) [] (fun _ => inr None)
      (fun q => if bool_decide (q = "b") then Some song_b
                else if bool_decide (q = "c") then Some song_c else None)
      (fun l => l) None false.

(** Two songs were played one after the other, no playlist is bound. *)
Definition two_played : state :=
  State (Device (Some "/music/b.mp3") Playing 75 0) (Some song_b) []
        (playlists loaded) [] None 0 [song_a; song_b] true 75 false false Off tables.

(** "P" is bound at its last song with repeat 'all'. *)
Definition at_last_repeat_all : state := set_repeat_field All at_last.

(** [song_c] is queued behind a playing [song_a] with repeat 'one'. *)
Definition queued_repeat_one : state := set_repeat_field One queued.

(** A world whose shuffle turns the list around. *)
Definition world_reversing : env :=
  Env (fun _ => true) (fun p => p) (fun p => p) [] (fun _ => inr None)
      (fun _ => None) reverse None false.

(** The loaded engine with shuffle switched on. *)
Definition shuffling : state := set_shuffle_field true loaded.

(** The loaded engine after fifty files were played, one after the other. *)
Definition fifty_played : state :=
  Nat.iter 50 (fun st => snd (step world (OpPlayFile "/music/a.mp3") st)) loaded.

(** A [music] table with two files that carry the same name. *)
Definition same_name_rows : music_table :=
  MusicTable
    [MusicRow 1 "song" [] None None None None "/music/one.mp3" None None;
     MusicRow 2 "other" [] None None None None "/music/other.mp3" None None;
     MusicRow 3 "song" [] None None None None "/music/two.mp3" None None]
    3.
End Sample.

(** * Properties *)

(** ** Volume and mute *)

Lemma clamp_max_min (v : Z) : Z.max 0 (Z.min 100 v) = clamp v 0 100.
Proof. unfold clamp. repeat case_match; lia. Qed.

(** C8: for every integer v, set_volume(v) stores exactly clamp(v, 0, 100)
    (0 for negative inputs, 100 for inputs above 100, v otherwise), reports
    that value, and the stored volume lies in [0, 100] after the call. *)
Theorem set_volume_stores_clamp (v : Z) (s : state) :
  volume (snd (MusicEngine.set_volume v s)) = clamp v 0 100
  ∧ fst (MusicEngine.set_volume v s) = RVolume (clamp v 0 100)
  ∧ 0 <= volume (snd (MusicEngine.set_volume v s)) <= 100.
Proof.
  unfold MusicEngine.set_volume. cbn -[Z.max Z.min].
  destruct (is_muted s); cbn -[Z.max Z.min]; rewrite clamp_max_min;
    (split; [done | split; [done | rewrite <- clamp_max_min; lia]]).
Qed.

Lemma toggle_mute_when_unmuted (s : state) :
  is_muted s = false ->
  let s' := snd (MusicEngine.toggle_mute s) in
  is_muted s' = true ∧ audio_volume (player s') = 0 ∧ volume s' = volume s.
Proof. intros H. unfold MusicEngine.toggle_mute. rewrite H. done. Qed.

Lemma toggle_mute_when_muted (s : state) :
  is_muted s = true ->
  let s' := snd (MusicEngine.toggle_mute s) in
  is_muted s' = false ∧ audio_volume (player s') = volume s ∧ volume s' = volume s.
Proof. intros H. unfold MusicEngine.toggle_mute. rewrite H. done. Qed.

Lemma set_volume_when_muted (v : Z) (s : state) :
  is_muted s = true ->
  let s' := snd (MusicEngine.set_volume v s) in
  is_muted s' = true ∧ player s' = player s ∧ volume s' = clamp v 0 100.
Proof.
  intros H. unfold MusicEngine.set_volume. cbn -[Z.max Z.min]. rewrite H.
  cbn -[Z.max Z.min]. by rewrite clamp_max_min.
Qed.

(** C7, as stated, fails: from a state that is already muted the first toggle
    unmutes and the last one mutes, so the device ends at 0. *)
Lemma mute_scenario_from_muted_ends_silent :
  ¬ (∀ s : state, audio_volume (player (mute_set50_unmute s)) = 50).
Proof. intros H. specialize (H Sample.muted). vm_compute in H. discriminate. Qed.

(** C7 (amended): from every state that is not muted, toggle_mute() sets the
    device output to 0 and keeps the stored volume; set_volume(50) then stores
    50 and leaves the device alone; the second toggle_mute() unmutes and puts
    the stored 50 on the device. *)
Theorem mute_scenario_from_unmuted (s : state) :
  is_muted s = false ->
  let s1 := snd (MusicEngine.toggle_mute s) in
  let s2 := snd (MusicEngine.set_volume 50 s1) in
  let s3 := snd (MusicEngine.toggle_mute s2) in
  (audio_volume (player s1) = 0 ∧ volume s1 = volume s)
  ∧ (volume s2 = 50 ∧ player s2 = player s1)
  ∧ (is_muted s3 = false ∧ audio_volume (player s3) = 50 ∧ volume s3 = 50)
  ∧ s3 = mute_set50_unmute s.
Proof.
  intros Hm s1 s2 s3.
  destruct (toggle_mute_when_unmuted s Hm) as (Hm1 & Hd1 & Hv1).
  destruct (set_volume_when_muted 50 s1 Hm1) as (Hm2 & Hp2 & Hv2).
  destruct (toggle_mute_when_muted s2 Hm2) as (Hm3 & Hd3 & Hv3).
  fold s1 in Hd1, Hv1. fold s2 in Hp2, Hv2. fold s3 in Hm3, Hd3, Hv3.
  change (clamp 50 0 100) with 50 in Hv2.
  repeat split; try done; congruence.
Qed.

Lemma mute_scenario_from_unmuted_witness :
  audio_volume (player (mute_set50_unmute Sample.loaded)) = 50.
Proof.
  pose proof (mute_scenario_from_unmuted Sample.loaded eq_refl) as H.
  cbv zeta in H. destruct H as (_ & _ & (_ & H & _) & _). exact H.
Defined.

(** ** The playback history *)

Section Deque.
Context {A : Type}.
Implicit Types (d : list A) (x : A).

Lemma deque_append_length m d x :
  (length d <= m)%nat -> (length (deque_append m d x) <= m)%nat.
Proof.
  intros H. unfold deque_append. case_bool_decide as Hlen.
  - rewrite length_drop, length_app. simpl. lia.
  - rewrite length_app in *. simpl in *. lia.
Qed.

(** Below the bound the deque grows on the right; at the bound its oldest
    entry goes and the others keep their order. *)
Lemma deque_append_evicts m d x :
  (0 < m)%nat -> (length d <= m)%nat ->
  deque_append m d x =
    (if bool_decide (length d = m) then drop 1 d else d) ++ [x].
Proof.
  intros Hm H. unfold deque_append. rewrite length_app. simpl.
  case_bool_decide as H1; case_bool_decide as H2; try lia; [|done].
  destruct d as [|y d]; [simpl in *; lia | done].
Qed.

Lemma deque_pop_length d : (length (deque_pop d) <= length d)%nat.
Proof. unfold deque_pop. rewrite length_take. lia. Qed.
End Deque.

Lemma play_file_history (E : env) (file_path : string) (s : state) :
  let s' := snd (MusicEngine.play_file E file_path s) in
  (path_exists E file_path = false ∧ s' = s)
  ∨ (path_exists E file_path = true ∧
     ∃ x, current_song s' = Some x ∧ file_location x = file_path ∧
          history s' = deque_append MusicEngine.HISTORY_MAXLEN (history s) x).
Proof.
  unfold MusicEngine.play_file.
  destruct (path_exists E file_path); simpl; [right | left; done].
  split; [done|].
  unfold MusicEngine._get_song_info.
  destruct (List.find _ _); destruct (is_muted s); simpl; eauto.
Qed.

Lemma play_file_history_ok (E : env) (file_path : string) (s : state) :
  history_ok s -> history_ok (snd (MusicEngine.play_file E file_path s)).
Proof.
  intros H. destruct (play_file_history E file_path s) as [[_ ->] | [_ (x & _ & _ & Hh)]];
    [done|].
  unfold history_ok. rewrite Hh. by apply deque_append_length.
Qed.

Lemma play_index_history_ok (E : env) (i : Z) (s : state) :
  history_ok s -> history_ok (snd (MusicEngine.play_index E i s)).
Proof.
  intros H. unfold MusicEngine.play_index. destruct (py_getitem _ _); [|done].
  by apply play_file_history_ok.
Qed.

Lemma dropped_snd (o : result * state) : snd (MusicEngine.dropped o) = snd o.
Proof. unfold MusicEngine.dropped. by destruct o as [[] ?]. Qed.


Ltac history_cases :=
  repeat first
    [ progress (rewrite ?dropped_snd)
    | apply play_file_history_ok
    | apply play_index_history_ok
    | assumption
    | case_match
    | progress simpl ].

Lemma step_history_ok (E : env) (o : op) (s : state) :
  history_ok s -> history_ok (snd (step E o s)).
Proof.
  intros H. destruct o; simpl.
  - by apply play_file_history_ok.
  - unfold MusicEngine.play_by_name. history_cases.
  - unfold MusicEngine.pause. history_cases.
  - unfold MusicEngine.resume. history_cases.
  - done.
  - unfold MusicEngine.next. history_cases.
  - unfold MusicEngine.previous, MusicEngine.seek. history_cases;
      try (unfold history_ok in *; simpl; etrans; [apply deque_pop_length | done]).
  - unfold MusicEngine._handle_song_end. history_cases.
  - unfold MusicEngine.add_to_queue. history_cases.
  - done.
  - unfold MusicEngine.remove_from_queue. history_cases.
  - unfold MusicEngine.set_volume. history_cases.
  - unfold MusicEngine.toggle_mute. history_cases.
  - unfold MusicEngine.seek. history_cases.
  - unfold MusicEngine.set_repeat. history_cases.
  - unfold MusicEngine.set_shuffle. history_cases.
  - unfold MusicEngine.create_playlist, MusicEngine.transaction.
    history_cases; simplify_eq; done.
  - unfold MusicEngine.delete_playlist, MusicEngine.transaction.
    history_cases; simplify_eq; done.
  - unfold MusicEngine.add_to_playlist, MusicEngine.transaction.
    history_cases; simplify_eq; done.
  - unfold MusicEngine.remove_from_playlist, MusicEngine.transaction.
    history_cases; simplify_eq; done.
  - unfold MusicEngine.reorder_playlist, MusicEngine.transaction.
    history_cases; simplify_eq; done.
  - unfold MusicEngine.play_playlist. history_cases.
  - unfold MusicEngine.rename_playlist, MusicEngine.transaction.
    history_cases; simplify_eq; done.
Qed.

Lemma reachable_history_ok (s : state) : reachable s -> history_ok s.
Proof.
  induction 1 as [d loaded | E o s _ _ IH].
  - unfold history_ok. simpl. lia.
  - by apply step_history_ok.
Qed.

(** C10: in every state the server can reach the history holds at most 50
    entries; a play that succeeds makes the played song the current song and
    appends it to the history, and when the history already holds 50 entries
    the oldest one is dropped while the others keep their order. *)
Theorem history_bounded_by_50 (s : state) :
  reachable s ->
  (length (history s) <= 50)%nat
  ∧ ∀ (E : env) (file_path : string),
      path_exists E file_path = true ->
      ∃ x, fst (MusicEngine.play_file E file_path s) = RPlayingSong x
           ∧ current_song (snd (MusicEngine.play_file E file_path s)) = Some x
           ∧ history (snd (MusicEngine.play_file E file_path s)) =
               (if bool_decide (length (history s) = 50%nat)
                then drop 1 (history s) else history s) ++ [x]
           ∧ (length (history (snd (MusicEngine.play_file E file_path s))) <= 50)%nat.
Proof.
  intros Hr. pose proof (reachable_history_ok s Hr) as Hok.
  split; [exact Hok|].
  intros E file_path Hex.
  pose proof (play_file_history_ok E file_path s Hok) as Hok'.
  destruct (play_file_history E file_path s) as [[Hno _] | [_ (x & Hc & _ & Hh)]];
    [congruence|].
  exists x. repeat split; try done.
  - unfold MusicEngine.play_file in *. rewrite Hex in *. simpl in *.
    destruct (is_muted s); simpl in *; congruence.
  - rewrite Hh. apply deque_append_evicts; [unfold MusicEngine.HISTORY_MAXLEN; lia | done].
Qed.

(** The same call made over and over keeps the server in reach. *)
Lemma reachable_iter (E : env) (o : op) (n : nat) (s : state) :
  reachable s -> reachable (Nat.iter n (fun st => snd (step E o st)) s).
Proof.
  intros Hs. induction n as [|n IH]; [done|].
  rewrite Nat.iter_succ. by apply (reachable_step _ E o).
Qed.

(** After fifty plays the history is full; the fifty-first play appends its
    song and drops the oldest entry, so fifty entries are held again. *)
Lemma history_bounded_by_50_witness :
  let played := snd (MusicEngine.play_file Sample.world "/music/c.mp3"
                       Sample.fifty_played) in
  length (history Sample.fifty_played) = 50%nat
  ∧ (length (history Sample.fifty_played) <= 50)%nat
  ∧ current_song played
    = Some (Song "/music/c.mp3" "/music/c.mp3" "/music/c.mp3" None None None)
  ∧ history played
    = drop 1 (history Sample.fifty_played)
        ++ [Song "/music/c.mp3" "/music/c.mp3" "/music/c.mp3" None None None]
  ∧ (length (history played) <= 50)%nat.
Proof.
  intros played.
  assert (Hreach : reachable Sample.fifty_played).
  { apply reachable_iter. apply (reachable_start _ Sample.tables). }
  assert (Hfull : length (history Sample.fifty_played) = 50%nat)
    by (vm_compute; reflexivity).
  destruct (history_bounded_by_50 Sample.fifty_played Hreach) as [Hlen Hplay].
  destruct (Hplay Sample.world "/music/c.mp3" eq_refl)
    as (x & Hfst & Hcur & Hhist & Hle).
  fold played in Hcur, Hhist, Hle.
  assert (Hx : x = Song "/music/c.mp3" "/music/c.mp3" "/music/c.mp3" None None None).
  { vm_compute in Hfst. by injection Hfst as <-. }
  subst x. rewrite (bool_decide_eq_true_2 _ Hfull) in Hhist.
  exact (conj Hfull (conj Hlen (conj Hcur (conj Hhist Hle)))).
Defined.

(** At a full history the oldest entry, [song_a], is the one that goes. *)
Example play_file_at_full_history :
  history (snd (MusicEngine.play_file Sample.world "/music/c.mp3" Sample.full_history))
  = replicate 49 Sample.song_b ++ [Song "/music/c.mp3" "/music/c.mp3" "/music/c.mp3" None None None].
Proof. vm_compute. reflexivity. Qed.

(** ** Song registration *)

Section Registration.
Variable abspath : string -> string.
Variable basename : string -> string.

Local Abbreviation add_music_entry := (YtDb.add_music_entry abspath basename).

Lemma find_location_Some loc rows r :
  List.find (fun r => bool_decide (m_file_location r = loc)) rows = Some r ->
  r ∈ rows ∧ m_file_location r = loc.
Proof.
  induction rows as [|r0 rows IH]; simpl; [done|].
  case_bool_decide as Hloc.
  - intros [= ->]. split; [left | done].
  - intros H. destruct (IH H) as [? ?]. split; [by right | done].
Qed.

Lemma find_location_None loc rows :
  List.find (fun r => bool_decide (m_file_location r = loc)) rows = None ->
  loc ∉ m_file_location <$> rows.
Proof.
  induction rows as [|r0 rows IH]; simpl; [intros _; apply not_elem_of_nil|].
  case_bool_decide as Hloc; [done|].
  intros H. apply not_elem_of_cons. split; [congruence | by apply IH].
Qed.

Lemma find_location_app_fresh loc rows r :
  loc ∉ m_file_location <$> rows -> m_file_location r = loc ->
  List.find (fun r => bool_decide (m_file_location r = loc)) (rows ++ [r]) = Some r.
Proof.
  intros Hfresh Hr.
  induction rows as [|r0 rows IH]; simpl.
  - by rewrite bool_decide_eq_true_2.
  - rewrite fmap_cons in Hfresh. apply not_elem_of_cons in Hfresh as [Hne Hfresh].
    rewrite bool_decide_eq_false_2 by congruence. by apply IH.
Qed.

Lemma rows_at_fresh loc t :
  loc ∉ locations t -> YtDb.rows_at loc t = 0%nat.
Proof.
  unfold YtDb.rows_at, locations. induction (m_rows t) as [|r rows IH]; [done|].
  rewrite fmap_cons. intros [Hne Hfresh]%not_elem_of_cons.
  rewrite filter_cons_False by congruence. by apply IH.
Qed.

Lemma rows_at_unique loc t :
  NoDup (locations t) -> loc ∈ locations t -> YtDb.rows_at loc t = 1%nat.
Proof.
  unfold YtDb.rows_at, locations. induction (m_rows t) as [|r rows IH].
  - intros _ H. by apply elem_of_nil in H.
  - rewrite fmap_cons. intros [Hnotin Hnd]%NoDup_cons Hin.
    destruct (decide (m_file_location r = loc)) as [Heq | Hne].
    + rewrite filter_cons_True by done. simpl. f_equal.
      apply (rows_at_fresh loc (MusicTable rows 0)). unfold locations. simpl.
      by rewrite <- Heq.
    + rewrite filter_cons_False by done.
      apply IH; [done|]. apply elem_of_cons in Hin as [? | ?]; [congruence | done].
Qed.

(** A path that is registered: the id of a row that holds it comes back and
    nothing is inserted. *)
Lemma add_music_entry_present
    file_location name metadata singer cinema album duration genre rating t :
  abspath file_location ∈ locations t ->
  ∃ r, r ∈ m_rows t ∧ m_file_location r = abspath file_location
       ∧ add_music_entry file_location name metadata singer cinema album
           duration genre rating t = (m_id r, t).
Proof.
  intros Hin. unfold YtDb.add_music_entry, YtDb.select_by_location.
  destruct (List.find _ _) as [r|] eqn:Hfind.
  - apply find_location_Some in Hfind as [? ?]. by exists r.
  - apply find_location_None in Hfind. done.
Qed.

(** Whatever the table, the path is registered once the call is over. *)
Lemma add_music_entry_registers
    file_location name metadata singer cinema album duration genre rating t :
  let out := add_music_entry file_location name metadata singer cinema album
               duration genre rating t in
  abspath file_location ∈ locations (snd out)
  ∧ (NoDup (locations t) -> NoDup (locations (snd out))).
Proof.
  unfold YtDb.add_music_entry, YtDb.select_by_location.
  destruct (List.find _ _) as [r|] eqn:Hfind; simpl.
  - apply find_location_Some in Hfind as [Hr Hloc]. split; [|done].
    unfold locations. rewrite <- Hloc. by apply list_elem_of_fmap_2.
  - apply find_location_None in Hfind.
    unfold locations. simpl. rewrite fmap_app. simpl. split.
    + apply elem_of_app. right. left.
    + intros Hnd. apply NoDup_app. repeat split; [done | | apply NoDup_singleton].
      intros x Hx ->%list_elem_of_singleton. done.
Qed.

(** A second call with the same path hands back what the first one did. *)
Lemma add_music_entry_again
    file_location name1 metadata1 singer1 cinema1 album1 duration1 genre1 rating1
    name2 metadata2 singer2 cinema2 album2 duration2 genre2 rating2 t :
  let first := add_music_entry file_location name1 metadata1 singer1 cinema1
                 album1 duration1 genre1 rating1 t in
  add_music_entry file_location name2 metadata2 singer2 cinema2
    album2 duration2 genre2 rating2 (snd first) = first.
Proof.
  unfold YtDb.add_music_entry, YtDb.select_by_location.
  destruct (List.find _ (m_rows t)) as [r|] eqn:Hfind; simpl.
  - by rewrite Hfind.
  - apply find_location_None in Hfind.
    rewrite find_location_app_fresh; done.
Qed.

(** C9: registration is idempotent on the absolute path. In a table that
    holds at most one row per path: a path already present gets the id of
    its row back and the table is left as it is; and two calls with the same
    path (whatever the other arguments) return the same id, the second one
    inserts nothing, and exactly one row holds that path afterwards. *)
Theorem add_music_entry_idempotent
    (file_location : string)
    (name1 name2 : option string) (metadata1 metadata2 : option (list (string * string)))
    (singer1 singer2 cinema1 cinema2 album1 album2 : option string)
    (duration1 duration2 : option Z) (genre1 genre2 : option string)
    (rating1 rating2 : option Z) (t : music_table) :
  NoDup (locations t) ->
  let first := add_music_entry file_location name1 metadata1 singer1 cinema1
                 album1 duration1 genre1 rating1 t in
  let second := add_music_entry file_location name2 metadata2 singer2 cinema2
                  album2 duration2 genre2 rating2 (snd first) in
  (abspath file_location ∈ locations t ->
     snd first = t
     ∧ ∃ r, r ∈ m_rows t ∧ m_file_location r = abspath file_location
            ∧ fst first = m_id r)
  ∧ fst second = fst first
  ∧ snd second = snd first
  ∧ YtDb.rows_at (abspath file_location) (snd second) = 1%nat
  ∧ NoDup (locations (snd second)).
Proof.
  intros Hnd first second.
  assert (Hsecond : second = first) by apply add_music_entry_again.
  destruct (add_music_entry_registers file_location name1 metadata1 singer1
              cinema1 album1 duration1 genre1 rating1 t) as [Hin1 Hnd1].
  fold first in Hin1, Hnd1. specialize (Hnd1 Hnd).
  rewrite Hsecond. split; [|repeat split; [| done]].
  - intros Hin.
    destruct (add_music_entry_present file_location name1 metadata1 singer1
                cinema1 album1 duration1 genre1 rating1 t Hin) as (r & Hr & Hloc & Heq).
    fold first in Heq. rewrite Heq. simpl. eauto.
  - by apply rows_at_unique.
Qed.
End Registration.

Lemma add_music_entry_idempotent_witness :
  let abspath := fun p : string => "/home/user/" +:+ p in
  let first := YtDb.add_music_entry abspath (fun p => p) "a.mp3" None None None
                 None None None None None (MusicTable [] 0) in
  let second := YtDb.add_music_entry abspath (fun p => p) "a.mp3" (Some "A") None
                  None None None (Some 200) None None (snd first) in
  fst second = fst first ∧ YtDb.rows_at "/home/user/a.mp3" (snd second) = 1%nat.
Proof.
  intros abspath first second.
  destruct (add_music_entry_idempotent abspath (fun p => p) "a.mp3" None (Some "A")
              None None None None None None None None None (Some 200) None None
              None None (MusicTable [] 0) (NoDup_nil_2 : NoDup (locations (MusicTable [] 0))))
    as (_ & Hid & _ & Hrows & _).
  split; [exact Hid | exact Hrows].
Defined.

(** ** Advancing: queue, bound playlist, nothing *)

Section Advance.
Variable E : env.

(** What [play_file] leaves alone. *)
Lemma play_file_frame (file_path : string) (s : state) :
  let s' := snd (MusicEngine.play_file E file_path s) in
  queue s' = queue s ∧ playlists s' = playlists s
  ∧ current_playlist s' = current_playlist s
  ∧ current_playlist_name s' = current_playlist_name s
  ∧ playlist_index s' = playlist_index s
  ∧ volume s' = volume s ∧ is_muted s' = is_muted s
  ∧ shuffle s' = shuffle s ∧ repeat s' = repeat s ∧ db s' = db s.
Proof.
  unfold MusicEngine.play_file.
  destruct (path_exists E file_path); simpl; [|done].
  destruct (is_muted s); done.
Qed.

(** A file that is there gets loaded and played. *)
Lemma play_file_plays (file_path : string) (s : state) :
  path_exists E file_path = true ->
  (∃ x, fst (MusicEngine.play_file E file_path s) = RPlayingSong x
        ∧ file_location x = file_path)
  ∧ now_playing file_path (snd (MusicEngine.play_file E file_path s)).
Proof.
  intros Hex. unfold MusicEngine.play_file, now_playing. rewrite Hex. simpl.
  unfold MusicEngine._get_song_info.
  destruct (List.find _ _); destruct (is_muted s); simpl; eauto 10.
Qed.

(** A file that is gone: an error comes back and nothing is touched. *)
Lemma play_file_missing (file_path : string) (s : state) :
  path_exists E file_path = false ->
  MusicEngine.play_file E file_path s = (RError ("File not found: " +:+ file_path), s).
Proof. intros Hex. unfold MusicEngine.play_file. by rewrite Hex. Qed.

Lemma play_index_frame (i : Z) (s : state) :
  let s' := snd (MusicEngine.play_index E i s) in
  queue s' = queue s ∧ current_playlist s' = current_playlist s
  ∧ playlist_index s' = playlist_index s.
Proof.
  unfold MusicEngine.play_index. destruct (py_getitem _ _) as [x|]; [|done].
  pose proof (play_file_frame (file_location x) s) as H. cbv zeta in H.
  destruct H as (? & _ & ? & _ & ? & _). done.
Qed.

Lemma play_index_not_status (i : Z) (s : state) (msg : string) :
  fst (MusicEngine.play_index E i s) ≠ RStatus msg.
Proof.
  unfold MusicEngine.play_index. destruct (py_getitem _ _); [|done].
  unfold MusicEngine.play_file. destruct (path_exists E _); simpl; [|done].
  by destruct (is_muted s).
Qed.

(** The queue head is taken whether its file is there or not; when it is
    gone the head is dropped unplayed. *)
Lemma next_queue_head_missing (s : state) (head : song) (rest : list song) :
  queue s = head :: rest ->
  path_exists E (file_location head) = false ->
  MusicEngine.next E s
  = (RError ("File not found: " +:+ file_location head), set_queue rest s).
Proof.
  intros Hq Hex. unfold MusicEngine.next. rewrite Hq. by apply play_file_missing.
Qed.

(** With an empty queue and a bound playlist [next] works on the playlist. *)
Lemma next_bound_playlist (s : state) :
  queue s = [] -> current_playlist s ≠ [] ->
  MusicEngine.next E s =
    let i := playlist_index s + 1 in
    if bool_decide (Z.of_nat (length (current_playlist s)) <= i)
    then if bool_decide (repeat s = All)
         then MusicEngine.play_index E 0 (set_playlist_index 0 (set_playlist_index i s))
         else (RStatus "end_of_playlist", set_playlist_index i s)
    else MusicEngine.play_index E i (set_playlist_index i s).
Proof.
  intros Hq Hcp. unfold MusicEngine.next. rewrite Hq.
  destruct (current_playlist s) eqn:Hcps; [done|]. simpl. by rewrite Hcps.
Qed.


End Advance.


(** With the file of the queued song gone, the head leaves the queue all the
    same and the song that was playing stays the current one. *)
Example next_drops_head_when_file_is_gone :
  MusicEngine.next Sample.world_no_files Sample.queued
  = (RError "File not found: /music/c.mp3", set_queue [] Sample.queued)
  ∧ current_song (set_queue [] Sample.queued) = Some Sample.song_a.
Proof.
  split; [|reflexivity].
  apply (next_queue_head_missing Sample.world_no_files Sample.queued Sample.song_c []);
    reflexivity.
Qed.

(** ** The end of the bound playlist, and stop *)

Section EndOfPlaylist.
Variable E : env.

(** At the last position with repeat not 'all', [next] hands back
    end_of_playlist; the index has moved past the list and nothing else has
    changed, the player included. *)
Lemma next_at_end (s : state) :
  queue s = [] -> current_playlist s ≠ [] ->
  Z.of_nat (length (current_playlist s)) <= playlist_index s + 1 ->
  repeat s ≠ All ->
  MusicEngine.next E s
  = (RStatus "end_of_playlist", set_playlist_index (playlist_index s + 1) s).
Proof.
  intros Hq Hcp Hend Hrep. rewrite (next_bound_playlist E s Hq Hcp). cbv zeta.
  rewrite bool_decide_eq_true_2 by done. by rewrite bool_decide_eq_false_2 by done.
Qed.

(** The handler, in the same situation, stops playback. *)
Lemma handler_at_end (s : state) :
  queue s = [] -> current_playlist s ≠ [] ->
  Z.of_nat (length (current_playlist s)) <= playlist_index s + 1 ->
  repeat s = Off ->
  stopped (snd (MusicEngine._handle_song_end E s)).
Proof.
  intros Hq Hcp Hend Hrep. unfold MusicEngine._handle_song_end.
  rewrite Hrep, Hq. rewrite bool_decide_eq_false_2 by done.
  destruct (current_playlist s) eqn:Hcps; [done|]. simpl. rewrite Hcps.
  rewrite bool_decide_eq_true_2 by done. rewrite Hrep.
  rewrite bool_decide_eq_false_2 by done. done.
Qed.
End EndOfPlaylist.

(** C3 (the code departs from it): with "P" bound at its last position, an
    empty queue and repeat 'off', [next] answers end_of_playlist but playback
    is not stopped: the current song and the playing flag stay, the player
    keeps playing, and the index is left one past the end. The end-of-track
    handler, in the same state, does stop. *)
Theorem next_at_last_index_keeps_playing :
  MusicEngine.next Sample.world Sample.at_last
  = (RStatus "end_of_playlist", set_playlist_index 3 Sample.at_last)
  ∧ ¬ stopped (snd (MusicEngine.next Sample.world Sample.at_last))
  ∧ current_song (snd (MusicEngine.next Sample.world Sample.at_last)) = Some Sample.song_c
  ∧ is_playing (snd (MusicEngine.next Sample.world Sample.at_last)) = true
  ∧ dev_state (player (snd (MusicEngine.next Sample.world Sample.at_last))) = Playing
  ∧ stopped (snd (MusicEngine._handle_song_end Sample.world Sample.at_last)).
Proof.
  assert (H : MusicEngine.next Sample.world Sample.at_last
              = (RStatus "end_of_playlist", set_playlist_index 3 Sample.at_last))
    by (apply next_at_end; done).
  rewrite H. repeat split; try done.
  - intros [Hc _]. discriminate Hc.
Qed.

(** What [stop] changes and what it leaves: the current song and the name of
    the bound playlist are cleared; the bound copy and its index, the queue, the
    stored playlists and the tables are kept. *)
Lemma stop_effect (s : state) :
  let s' := snd (MusicEngine.stop s) in
  fst (MusicEngine.stop s) = RStatus "stopped"
  ∧ stopped s' ∧ current_playlist_name s' = None
  ∧ dev_state (player s') = Stopped
  ∧ queue s' = queue s ∧ playlists s' = playlists s ∧ db s' = db s
  ∧ history s' = history s
  ∧ current_playlist s' = current_playlist s
  ∧ playlist_index s' = playlist_index s.
Proof. done. Qed.

(** After [stop], with nothing queued, [next] still finds the bound copy and
    works on it. *)
Lemma next_after_stop_uses_bound_playlist (E : env) (s : state) :
  queue s = [] -> current_playlist s ≠ [] ->
  fst (MusicEngine.next E (snd (MusicEngine.stop s))) ≠ RStatus "no_next_song"
  ∧ current_playlist (snd (MusicEngine.stop s)) = current_playlist s
  ∧ playlist_index (snd (MusicEngine.stop s)) = playlist_index s.
Proof.
  intros Hq Hcp. split; [|done].
  rewrite next_bound_playlist by done. cbv zeta.
  repeat case_bool_decide; try done; apply play_index_not_status.
Qed.

(** Deleting the bound playlist, for comparison, clears the whole binding:
    the bound copy, its name and its index. *)
Lemma delete_playlist_clears_binding (E : env) (s : state) (name : string) :
  storage_fault E = None ->
  name ≠ "Library" ->
  is_Some (playlists s !! name) ->
  current_playlist_name s = Some name ->
  let s' := snd (MusicEngine.delete_playlist E name s) in
  current_playlist s' = [] ∧ current_playlist_name s' = None ∧ playlist_index s' = 0.
Proof.
  intros Hup Hlib [pl Hpl] Hname. unfold MusicEngine.delete_playlist.
  rewrite bool_decide_eq_false_2 by done.
  rewrite bool_decide_eq_false_2 by congruence.
  unfold MusicEngine.transaction. rewrite Hup. simpl.
  by rewrite bool_decide_eq_true_2 by done.
Qed.

(** C4 (the code departs from it): after [stop] the queue and the stored
    playlists are as before and the current song and the playlist name are
    cleared, but the bound copy of "P" and its index are still there, and the
    next call of [next] goes on through it: it plays the second song of "P". *)
Theorem stop_keeps_bound_playlist :
  let s1 := snd (MusicEngine.stop Sample.playing_first) in
  let s2 := snd (MusicEngine.next Sample.world s1) in
  current_song s1 = None
  ∧ current_playlist_name s1 = None
  ∧ queue s1 = queue Sample.playing_first
  ∧ playlists s1 = playlists Sample.playing_first
  ∧ current_playlist s1 = [Sample.song_a; Sample.song_b; Sample.song_c]
  ∧ playlist_index s1 = 0
  ∧ fst (MusicEngine.next Sample.world s1)
    = RPlayingSong (Song "/music/b.mp3" "/music/b.mp3" "/music/b.mp3" None None None)
  ∧ now_playing "/music/b.mp3" s2
  ∧ playlist_index s2 = 1.
Proof. repeat split; vm_compute; reflexivity. Qed.

(** ** Playlist mutations when storage fails *)

Section StorageFailure.
Variable E : env.
Variable msg : string.
Hypothesis storage_down : storage_fault E = Some msg.

Lemma transaction_fails {A} (tx : stmt A) (s : state) :
  MusicEngine.transaction E tx s = inl msg.
Proof. unfold MusicEngine.transaction. by rewrite storage_down. Qed.

(** Five of the six mutations touch the tables first and the memory after:
    when storage fails they hand back an error and the whole state is as it
    was. *)
Lemma create_playlist_atomic name songs s :
  is_error (fst (MusicEngine.create_playlist E name songs s)) = true
  ∧ snd (MusicEngine.create_playlist E name songs s) = s.
Proof.
  unfold MusicEngine.create_playlist. case_bool_decide; [done|].
  by rewrite transaction_fails.
Qed.

Lemma delete_playlist_atomic name s :
  is_error (fst (MusicEngine.delete_playlist E name s)) = true
  ∧ snd (MusicEngine.delete_playlist E name s) = s.
Proof.
  unfold MusicEngine.delete_playlist. repeat (case_bool_decide; [done|]).
  by rewrite transaction_fails.
Qed.

Lemma add_to_playlist_atomic playlist_name song_name s :
  is_error (fst (MusicEngine.add_to_playlist E playlist_name song_name s)) = true
  ∧ snd (MusicEngine.add_to_playlist E playlist_name song_name s) = s.
Proof.
  unfold MusicEngine.add_to_playlist. destruct (playlists s !! _); [|done].
  destruct (MusicEngine._search_song E song_name);
    [|destruct (path_exists E song_name); [|done]];
    by rewrite transaction_fails.
Qed.

Lemma remove_from_playlist_atomic playlist_name index s :
  is_error (fst (MusicEngine.remove_from_playlist E playlist_name index s)) = true
  ∧ snd (MusicEngine.remove_from_playlist E playlist_name index s) = s.
Proof.
  unfold MusicEngine.remove_from_playlist. destruct (playlists s !! _); [|done].
  case_bool_decide; [done|]. destruct (negb _); [done|].
  destruct (py_getitem _ _); [|done]. by rewrite transaction_fails.
Qed.

Lemma rename_playlist_atomic old_name new_name s :
  is_error (fst (MusicEngine.rename_playlist E old_name new_name s)) = true
  ∧ snd (MusicEngine.rename_playlist E old_name new_name s) = s.
Proof.
  unfold MusicEngine.rename_playlist. case_bool_decide; [done|].
  destruct (playlists s !! _); [|done]. case_bool_decide; [done|].
  by rewrite transaction_fails.
Qed.

(** [reorder_playlist] moves the song in the stored list first: when storage
    fails after that, the error comes back with the list already reordered
    (the tables, the bound copy and the index are as they were). *)
Lemma reorder_playlist_not_atomic playlist_name from_index to_index s playlist moved :
  playlists s !! playlist_name = Some playlist ->
  playlist_name ≠ "Library" ->
  0 <= from_index < Z.of_nat (length playlist) ->
  0 <= to_index < Z.of_nat (length playlist) ->
  MusicEngine.move playlist from_index to_index = Some moved ->
  MusicEngine.reorder_playlist E playlist_name from_index to_index s
  = (RError ("Failed to reorder playlist: " +:+ msg),
     set_playlists (<[playlist_name := moved]> (playlists s)) s).
Proof.
  intros Hpl Hlib Hfrom Hto Hmove. unfold MusicEngine.reorder_playlist.
  rewrite Hpl. rewrite bool_decide_eq_false_2 by done.
  rewrite !bool_decide_eq_true_2 by done. simpl. rewrite Hmove.
  by rewrite transaction_fails.
Qed.
End StorageFailure.

(** C2 (the code departs from it): with the database locked,
    reorder_playlist("P", 0, 2) hands back an error and leaves the tables, the
    bound playlist and the index alone, but the playlist map in memory has
    changed: "P" is now [b; c; a]. *)
Theorem reorder_playlist_commits_before_storage :
  let out := MusicEngine.reorder_playlist Sample.world_db_locked "P" 0 2 Sample.loaded in
  fst out = RError "Failed to reorder playlist: database is locked"
  ∧ db (snd out) = db Sample.loaded
  ∧ current_playlist (snd out) = current_playlist Sample.loaded
  ∧ current_playlist_name (snd out) = current_playlist_name Sample.loaded
  ∧ playlist_index (snd out) = playlist_index Sample.loaded
  ∧ playlists Sample.loaded !! "P" = Some [Sample.song_a; Sample.song_b; Sample.song_c]
  ∧ playlists (snd out) !! "P" = Some [Sample.song_b; Sample.song_c; Sample.song_a]
  ∧ playlists (snd out) ≠ playlists Sample.loaded.
Proof.
  intros out.
  assert (Hout : out = (RError "Failed to reorder playlist: database is locked",
                        set_playlists (<["P" := [Sample.song_b; Sample.song_c; Sample.song_a]]>
                                         (playlists Sample.loaded)) Sample.loaded)).
  { subst out.
    apply (reorder_playlist_not_atomic Sample.world_db_locked "database is locked" eq_refl
             "P" 0 2 Sample.loaded [Sample.song_a; Sample.song_b; Sample.song_c]);
      [done | done | simpl; lia | simpl; lia | done]. }
  rewrite Hout. simpl.
  assert (Hbefore : playlists Sample.loaded !! "P"
                    = Some [Sample.song_a; Sample.song_b; Sample.song_c]) by done.
  repeat split; done.
Qed.


(** ** Removing and moving list entries *)

Section PyListFacts.
Context {A : Type}.
Implicit Types (l m : list A) (x : A).

Lemma py_getitem_in_range l i :
  0 <= i < Z.of_nat (length l) -> py_getitem l i = l !! Z.to_nat i.
Proof. intros H. unfold py_getitem. by rewrite bool_decide_eq_true_2 by lia. Qed.

Lemma lookup_in_range l i :
  0 <= i < Z.of_nat (length l) -> ∃ x, l !! Z.to_nat i = Some x.
Proof. intros H. apply lookup_lt_is_Some. lia. Qed.

Lemma py_pop_in_range l i x :
  0 <= i < Z.of_nat (length l) -> l !! Z.to_nat i = Some x ->
  py_pop l i = Some (x, delete (Z.to_nat i) l).
Proof.
  intros H Hx. unfold py_pop. rewrite (bool_decide_eq_true_2 (0 <= i)) by lia.
  rewrite bool_decide_eq_true_2 by lia. by rewrite Hx.
Qed.

Lemma py_pop_Some l i x rest :
  py_pop l i = Some (x, rest) -> ∃ k, l !! k = Some x ∧ rest = delete k l.
Proof.
  unfold py_pop. case_bool_decide; [|done].
  destruct (l !! _) eqn:Hk; [|done]. intros [= <- <-]. eauto.
Qed.

Lemma py_insert_perm l i x : py_insert l i x ≡ₚ x :: l.
Proof.
  unfold py_insert. rewrite <- Permutation_middle. by rewrite take_drop.
Qed.

Lemma py_insert_in_range l i x :
  0 <= i <= Z.of_nat (length l) ->
  py_insert l i x = take (Z.to_nat i) l ++ x :: drop (Z.to_nat i) l.
Proof.
  intros H. unfold py_insert. rewrite bool_decide_eq_true_2 by lia.
  by replace (Z.min i (Z.of_nat (length l))) with i by lia.
Qed.

(** A move keeps the songs: the result is a permutation of the list. *)
Lemma move_perm l from_index to_index m :
  MusicEngine.move l from_index to_index = Some m -> m ≡ₚ l.
Proof.
  unfold MusicEngine.move. destruct (py_pop _ _) as [[x rest]|] eqn:Hpop; [|done].
  intros [= <-]. apply py_pop_Some in Hpop as (k & Hk & ->).
  rewrite py_insert_perm. symmetry. by apply delete_Permutation.
Qed.

Lemma move_length l from_index to_index m :
  MusicEngine.move l from_index to_index = Some m -> length m = length l.
Proof. intros H. apply Permutation_length. by eapply move_perm. Qed.

(** With both positions in range, the move takes the entry at [from_index]
    out and puts it back at [to_index]. *)
Lemma move_in_range l from_index to_index :
  0 <= from_index < Z.of_nat (length l) ->
  0 <= to_index < Z.of_nat (length l) ->
  ∃ x, l !! Z.to_nat from_index = Some x
       ∧ MusicEngine.move l from_index to_index
         = Some (take (Z.to_nat to_index) (delete (Z.to_nat from_index) l)
                   ++ x :: drop (Z.to_nat to_index) (delete (Z.to_nat from_index) l)).
Proof.
  intros Hf Ht. destruct (lookup_in_range l from_index Hf) as [x Hx].
  exists x. split; [done|]. unfold MusicEngine.move.
  rewrite (py_pop_in_range l from_index x Hf Hx).
  rewrite py_insert_in_range; [done|].
  rewrite length_delete by eauto. lia.
Qed.

(** Moving an entry and moving it back gives the list one started from. *)
Lemma move_inverse l from_index to_index m :
  0 <= from_index < Z.of_nat (length l) ->
  0 <= to_index < Z.of_nat (length l) ->
  MusicEngine.move l from_index to_index = Some m ->
  MusicEngine.move m to_index from_index = Some l.
Proof.
  intros Hf Ht Hm.
  destruct (move_in_range l from_index to_index Hf Ht) as (x & Hx & Hmove).
  rewrite Hmove in Hm. injection Hm as <-.
  set (f := Z.to_nat from_index) in *. set (t := Z.to_nat to_index) in *.
  set (d := delete f l) in *.
  assert (Hd : length d = (length l - 1)%nat) by (by apply length_delete; eauto).
  assert (Hlt : length (take t d) = t) by (rewrite length_take; lia).
  assert (Hlen : length (take t d ++ x :: drop t d) = length l).
  { rewrite length_app, Hlt. simpl. rewrite length_drop. lia. }
  unfold MusicEngine.move.
  rewrite (py_pop_in_range _ to_index x); [| lia |].
  - fold t. rewrite <- Hlt at 1. rewrite delete_middle, take_drop.
    rewrite py_insert_in_range by lia. fold f. subst d.
    rewrite delete_take_drop.
    rewrite take_app_length' by (rewrite length_take; lia).
    rewrite drop_app_length' by (rewrite length_take; lia).
    by rewrite take_drop_middle.
  - fold t. rewrite <- Hlt at 1. apply list_lookup_middle. done.
Qed.
End PyListFacts.

(** The index update of [reorder_playlist] is the one the specification
    words. *)
Lemma reorder_index_follow_move (from_index to_index i : Z) :
  (if bool_decide (i = from_index) then to_index
   else if bool_decide (from_index < i <= to_index) then i - 1
   else if bool_decide (to_index <= i < from_index) then i + 1
   else i)
  = follow_move from_index to_index i.
Proof.
  unfold follow_move, moved_over, toward.
  repeat case_bool_decide; lia.
Qed.

(** An index updated this way still points at the entry it pointed at. *)
Lemma move_tracks {A} (l m : list A) (from_index to_index i : Z) :
  0 <= from_index < Z.of_nat (length l) ->
  0 <= to_index < Z.of_nat (length l) ->
  0 <= i < Z.of_nat (length l) ->
  MusicEngine.move l from_index to_index = Some m ->
  0 <= follow_move from_index to_index i < Z.of_nat (length l)
  ∧ m !! Z.to_nat (follow_move from_index to_index i) = l !! Z.to_nat i.
Proof.
  intros Hf Ht Hi Hm.
  destruct (move_in_range l from_index to_index Hf Ht) as (x & Hx & Hmove).
  rewrite Hmove in Hm. injection Hm as <-.
  assert (Hd : length (delete (Z.to_nat from_index) l) = (length l - 1)%nat)
    by (by apply length_delete; eauto).
  assert (Hlt : length (take (Z.to_nat to_index) (delete (Z.to_nat from_index) l))
                = Z.to_nat to_index) by (rewrite length_take; lia).
  rewrite <- reorder_index_follow_move.
  case_bool_decide as H1; [|case_bool_decide as H2; [|case_bool_decide as H3]].
  - subst i. split; [lia|]. rewrite Hx. rewrite <- Hlt at 1.
    by apply list_lookup_middle.
  - split; [lia|]. rewrite lookup_app_l by lia.
    rewrite lookup_take_lt by lia. rewrite list_lookup_delete_ge by lia.
    f_equal. lia.
  - split; [lia|]. rewrite lookup_app_r by lia. rewrite Hlt.
    replace (Z.to_nat (i + 1) - Z.to_nat to_index)%nat
      with (S (Z.to_nat i - Z.to_nat to_index)) by lia.
    simpl. rewrite lookup_drop. rewrite list_lookup_delete_lt by lia. f_equal. lia.
  - split; [lia|].
    destruct (decide (i < from_index)) as [Hlo | Hhi].
    + rewrite lookup_app_l by lia. rewrite lookup_take_lt by lia.
      by rewrite list_lookup_delete_lt by lia.
    + rewrite lookup_app_r by lia. rewrite Hlt.
      replace (Z.to_nat i - Z.to_nat to_index)%nat
        with (S (Z.to_nat i - Z.to_nat to_index - 1)) by lia.
      simpl. rewrite lookup_drop. rewrite list_lookup_delete_ge by lia. f_equal. lia.
Qed.

(** ** The membership rows after a statement *)

Section Rows.
Implicit Types (pid : Z) (d : database) (songs : list song).

Lemma insert_songs_from_appends pid k songs d :
  Sql.insert_songs_from pid k songs d
  = Some (tt, Database (tbl_playlists d)
                (tbl_playlist_songs d ++ rows_from pid k songs) (pl_seq d)).
Proof.
  revert k d. induction songs as [|x songs IH]; intros k d; simpl.
  - unfold Sql.ret. rewrite app_nil_r. by destruct d.
  - unfold Sql.bind, Sql.insert_song. rewrite IH. simpl.
    by rewrite <- app_assoc.
Qed.

Lemma rows_from_own pid k songs :
  filter (fun r => ps_playlist_id r = pid) (rows_from pid k songs)
  = rows_from pid k songs.
Proof.
  revert k. induction songs as [|x songs IH]; intros k; [done|]. simpl.
  rewrite filter_cons_True by done. by rewrite IH.
Qed.

Lemma rows_from_other pid pid' k songs :
  pid' ≠ pid ->
  filter (fun r => ps_playlist_id r = pid') (rows_from pid k songs) = [].
Proof.
  intros Hne. revert k. induction songs as [|x songs IH]; intros k; [done|]. simpl.
  rewrite filter_cons_False by (simpl; congruence). by rewrite IH.
Qed.

(** Rows that all lie after [index] lose nothing to the DELETE and all move
    down by one in the UPDATE. *)
Lemma shift_all_after pid (index j : Z) songs :
  index < j ->
  Sql.shifted_rows pid index (Sql.kept_rows pid index (rows_from pid j songs))
  = rows_from pid (j - 1) songs.
Proof.
  unfold Sql.shifted_rows, Sql.kept_rows.
  revert j. induction songs as [|x songs IH]; intros j Hj; [done|].
  cbn [rows_from].
  rewrite filter_cons_True by (simpl; lia). rewrite fmap_cons.
  rewrite IH by lia. unfold Sql.shift_row at 1. simpl.
  rewrite bool_decide_eq_true_2 by (split; [done | lia]).
  do 2 f_equal. lia.
Qed.

(** The DELETE and the UPDATE of [remove_from_playlist], on rows at the dense
    positions [k], [k + 1], ...: what is left are the rows of the list without
    its entry, at dense positions again. *)
Lemma remove_rows_from pid (k : Z) (n : nat) songs :
  Sql.shifted_rows pid (k + Z.of_nat n)
    (Sql.kept_rows pid (k + Z.of_nat n) (rows_from pid k songs))
  = rows_from pid k (delete n songs).
Proof.
  revert k n. induction songs as [|x songs IH]; intros k n; [done|].
  destruct n as [|n].
  - replace (k + Z.of_nat 0) with k by lia. cbn [rows_from delete list_delete].
    unfold Sql.kept_rows at 1.
    rewrite filter_cons_False by (simpl; intros H; apply H; done).
    fold (Sql.kept_rows pid k (rows_from pid (k + 1) songs)).
    rewrite (shift_all_after pid k (k + 1) songs) by lia.
    f_equal. lia.
  - cbn [rows_from delete list_delete]. unfold Sql.kept_rows at 1.
    rewrite filter_cons_True by (simpl; lia).
    fold (Sql.kept_rows pid (k + Z.of_nat (S n)) (rows_from pid (k + 1) songs)).
    unfold Sql.shifted_rows at 1. rewrite fmap_cons.
    fold (Sql.shifted_rows pid (k + Z.of_nat (S n))
            (Sql.kept_rows pid (k + Z.of_nat (S n)) (rows_from pid (k + 1) songs))).
    unfold Sql.shift_row at 1. simpl ps_playlist_id. simpl ps_position.
    rewrite bool_decide_eq_false_2 by lia. f_equal.
    replace (k + Z.of_nat (S n)) with ((k + 1) + Z.of_nat n) by lia.
    apply IH.
Qed.

(** The same two statements on a whole table: the rows of [pid] are
    filtered and shifted, the rows of the other playlists are left alone. *)
Lemma remove_rows_own pid (index : Z) (rows : list playlist_song_row) :
  filter (fun r => ps_playlist_id r = pid)
    (Sql.shifted_rows pid index (Sql.kept_rows pid index rows))
  = Sql.shifted_rows pid index
      (Sql.kept_rows pid index (filter (fun r => ps_playlist_id r = pid) rows)).
Proof.
  unfold Sql.shifted_rows, Sql.kept_rows.
  induction rows as [|r rows IH]; [done|].
  destruct (decide (ps_playlist_id r = pid)) as [Hp | Hp].
  - rewrite (filter_cons_True (fun r => ps_playlist_id r = pid)) by done.
    destruct (decide (ps_position r = index)) as [Hi | Hi].
    + rewrite !filter_cons_False by tauto. apply IH.
    + rewrite !filter_cons_True by tauto. rewrite !fmap_cons.
      rewrite filter_cons_True
        by (unfold Sql.shift_row; case_bool_decide; done).
      by rewrite IH.
  - rewrite (filter_cons_False (fun r => ps_playlist_id r = pid)) by done.
    rewrite filter_cons_True by tauto. rewrite fmap_cons.
    rewrite filter_cons_False
      by (unfold Sql.shift_row; rewrite bool_decide_eq_false_2 by tauto; done).
    apply IH.
Qed.

Lemma remove_rows_other pid pid' (index : Z) (rows : list playlist_song_row) :
  pid' ≠ pid ->
  filter (fun r => ps_playlist_id r = pid')
    (Sql.shifted_rows pid index (Sql.kept_rows pid index rows))
  = filter (fun r => ps_playlist_id r = pid') rows.
Proof.
  intros Hne. unfold Sql.shifted_rows, Sql.kept_rows.
  induction rows as [|r rows IH]; [done|].
  destruct (decide (ps_playlist_id r = pid')) as [Hp | Hp].
  - rewrite filter_cons_True by (intros [? ?]; congruence). rewrite fmap_cons.
    assert (Hsame : Sql.shift_row pid index r = r).
    { unfold Sql.shift_row. by rewrite bool_decide_eq_false_2 by (intros [? ?]; congruence). }
    rewrite Hsame. rewrite !filter_cons_True by done. by rewrite IH.
  - rewrite (filter_cons_False (fun r => ps_playlist_id r = pid')) by done.
    destruct (decide (ps_playlist_id r = pid ∧ ps_position r = index)) as [Hi | Hi].
    + rewrite filter_cons_False by tauto. apply IH.
    + rewrite filter_cons_True by done. rewrite fmap_cons.
      rewrite filter_cons_False
        by (unfold Sql.shift_row; case_bool_decide; done).
      apply IH.
Qed.

(** Stored at dense positions before, stored at dense positions after. *)
Lemma remove_keeps_dense pid (index : Z) songs d :
  0 <= index ->
  stored_as pid songs d ->
  Sql.shifted_rows pid index (Sql.kept_rows pid index (Sql.rows_of pid d))
  ≡ₚ rows_from pid 0 (delete (Z.to_nat index) songs).
Proof.
  intros Hi Hst. unfold stored_as in Hst.
  unfold Sql.shifted_rows, Sql.kept_rows. rewrite Hst.
  pose proof (remove_rows_from pid 0 (Z.to_nat index) songs) as H.
  replace (0 + Z.of_nat (Z.to_nat index)) with index in H by lia.
  unfold Sql.shifted_rows, Sql.kept_rows in H. by rewrite H.
Qed.
End Rows.


(** ** Removing a song from a playlist *)

Section Mutations.
Variable E : env.
Hypothesis storage_up : storage_fault E = None.

Lemma remove_transaction (name : string) (index : Z) (s : state) :
  MusicEngine.transaction E
    (Sql.bind (Sql.select_playlist_id name) (fun result =>
     match result with
     | Some playlist_id =>
         Sql.bind (Sql.delete_song_at playlist_id index) (fun _ =>
         Sql.shift_positions_after playlist_id index)
     | None => Sql.ret tt
     end)) s
  = inr (tt, set_db (db_after_remove name index (db s)) s).
Proof.
  unfold MusicEngine.transaction. rewrite storage_up.
  unfold Sql.bind, Sql.select_playlist_id, db_after_remove, playlist_id_of.
  destruct (List.find _ _); simpl; [done|].
  by destruct s as [? ? ? ? ? ? ? ? ? ? ? ? ? []].
Qed.

Lemma reorder_transaction (name : string) (songs : list song) (s : state) :
  MusicEngine.transaction E
    (Sql.bind (Sql.select_playlist_id name) (fun result =>
     match result with
     | Some playlist_id =>
         Sql.bind (Sql.delete_songs_of playlist_id) (fun _ =>
         Sql.insert_songs_from playlist_id 0 songs)
     | None => Sql.ret tt
     end)) s
  = inr (tt, set_db (db_after_reorder name songs (db s)) s).
Proof.
  unfold MusicEngine.transaction. rewrite storage_up.
  unfold Sql.bind, Sql.select_playlist_id, db_after_reorder, playlist_id_of.
  destruct (List.find _ _); simpl.
  - unfold Sql.delete_songs_of. by rewrite insert_songs_from_appends.
  - by destruct s as [? ? ? ? ? ? ? ? ? ? ? ? ? []].
Qed.

(** The state a removal that goes through leads to. *)
Lemma remove_from_playlist_ok (name : string) (index : Z) (s : state)
    (playlist : list song) :
  playlists s !! name = Some playlist ->
  name ≠ "Library" ->
  0 <= index < Z.of_nat (length playlist) ->
  (current_playlist_name s = Some name ->
   index < Z.of_nat (length (current_playlist s))) ->
  ∃ removed,
    playlist !! Z.to_nat index = Some removed
    ∧ MusicEngine.remove_from_playlist E name index s
      = (RPlaylistSong "song_removed_from_playlist" name removed,
         let s1 := set_playlists
                     (<[name := delete (Z.to_nat index) playlist]> (playlists s))
                     (set_db (db_after_remove name index (db s)) s) in
         if bool_decide (current_playlist_name s = Some name)
         then set_playlist_index (follow_remove index (playlist_index s))
                (set_current_playlist
                   (delete (Z.to_nat index) (current_playlist s)) s1)
         else s1).
Proof.
  intros Hpl Hlib Hidx Hbound.
  destruct (lookup_in_range playlist index Hidx) as [removed Hrem].
  exists removed. split; [done|].
  unfold MusicEngine.remove_from_playlist. rewrite Hpl.
  rewrite bool_decide_eq_false_2 by done.
  rewrite bool_decide_eq_true_2 by done. cbn [negb].
  rewrite py_getitem_in_range by done. rewrite Hrem.
  rewrite remove_transaction. cbv zeta.
  cbn [current_playlist_name set_playlists set_db current_playlist playlist_index].
  case_bool_decide as Hname; [|done].
  specialize (Hbound Hname).
  destruct (lookup_in_range (current_playlist s) index ltac:(lia)) as [y Hy].
  rewrite (py_pop_in_range _ index y) by (done || lia).
  unfold follow_remove. cbn [playlist_index set_current_playlist].
  case_bool_decide; [done|]. by destruct s.
Qed.

(** The state a reordering that goes through leads to. *)
Lemma reorder_playlist_ok (name : string) (from_index to_index : Z) (s : state)
    (playlist : list song) :
  playlists s !! name = Some playlist ->
  name ≠ "Library" ->
  0 <= from_index < Z.of_nat (length playlist) ->
  0 <= to_index < Z.of_nat (length playlist) ->
  (current_playlist_name s = Some name ->
   length (current_playlist s) = length playlist) ->
  ∃ moved bound,
    MusicEngine.move playlist from_index to_index = Some moved
    ∧ (current_playlist_name s = Some name ->
       MusicEngine.move (current_playlist s) from_index to_index = Some bound)
    ∧ MusicEngine.reorder_playlist E name from_index to_index s
      = (RPlaylist "playlist_reordered" name,
         let s1 := set_db (db_after_reorder name moved (db s))
                     (set_playlists (<[name := moved]> (playlists s)) s) in
         if bool_decide (current_playlist_name s = Some name)
         then set_playlist_index (follow_move from_index to_index (playlist_index s))
                (set_current_playlist bound s1)
         else s1).
Proof.
  intros Hpl Hlib Hf Ht Hbound.
  destruct (move_in_range playlist from_index to_index Hf Ht) as (x & Hx & Hmove).
  destruct (decide (current_playlist_name s = Some name)) as [Hname | Hname].
  - specialize (Hbound Hname).
    destruct (move_in_range (current_playlist s) from_index to_index
                ltac:(lia) ltac:(lia)) as (y & Hy & Hmoveb).
    eexists _, _. split; [exact Hmove|]. split; [intros _; exact Hmoveb|].
    unfold MusicEngine.reorder_playlist. rewrite Hpl.
    rewrite bool_decide_eq_false_2 by done.
    rewrite !bool_decide_eq_true_2 by done. cbn [negb andb].
    rewrite Hmove. rewrite reorder_transaction. cbv zeta.
    cbn [current_playlist_name set_playlists set_db current_playlist playlist_index].
    rewrite !bool_decide_eq_true_2 by done. rewrite Hmoveb.
    cbn [playlist_index set_current_playlist].
    rewrite <- reorder_index_follow_move.
    repeat case_bool_decide; done.
  - eexists _, []. split; [exact Hmove|]. split; [done|].
    unfold MusicEngine.reorder_playlist. rewrite Hpl.
    rewrite bool_decide_eq_false_2 by done.
    rewrite !bool_decide_eq_true_2 by done. cbn [negb andb].
    rewrite Hmove. rewrite reorder_transaction. cbv zeta.
    cbn [current_playlist_name set_playlists set_db].
    by rewrite !bool_decide_eq_false_2 by done.
Qed.
End Mutations.

Lemma playlist_id_of_after_reorder (name name' : string) (songs : list song)
    (d : database) :
  playlist_id_of name' (db_after_reorder name songs d) = playlist_id_of name' d.
Proof. unfold db_after_reorder. by destruct (playlist_id_of name d). Qed.

(** After a reordering the rows of the playlist are its songs at the fresh
    positions 0, 1, ..., and the rows of the other playlists are as before. *)
Lemma rows_after_reorder (name : string) (songs : list song) (d : database) (pid : Z) :
  playlist_id_of name d = Some pid ->
  Sql.rows_of pid (db_after_reorder name songs d) = rows_from pid 0 songs
  ∧ ∀ pid', pid' ≠ pid ->
      Sql.rows_of pid' (db_after_reorder name songs d) = Sql.rows_of pid' d.
Proof.
  intros Hid. unfold db_after_reorder, Sql.rows_of. rewrite Hid. simpl. split.
  - rewrite filter_app, rows_from_own.
    assert (Hnone : filter (fun r => ps_playlist_id r = pid)
                      (filter (fun r => ps_playlist_id r ≠ pid) (tbl_playlist_songs d))
                    = []).
    { induction (tbl_playlist_songs d) as [|r rows IH]; [done|].
      destruct (decide (ps_playlist_id r = pid)) as [Hp | Hp].
      - by rewrite filter_cons_False by tauto.
      - rewrite filter_cons_True by done. by rewrite filter_cons_False by done. }
    by rewrite Hnone.
  - intros pid' Hne. rewrite filter_app, rows_from_other by done.
    rewrite app_nil_r, list_filter_filter.
    apply list_filter_iff. intros r. split; [tauto | intros ->; done].
Qed.

(** After a removal the rows of the playlist have lost the row at the
    position and closed the gap; the rows of the other playlists are as
    before. *)
Lemma rows_after_remove (name : string) (index : Z) (d : database) (pid : Z) :
  playlist_id_of name d = Some pid ->
  Sql.rows_of pid (db_after_remove name index d)
  = Sql.shifted_rows pid index (Sql.kept_rows pid index (Sql.rows_of pid d))
  ∧ ∀ pid', pid' ≠ pid ->
      Sql.rows_of pid' (db_after_remove name index d) = Sql.rows_of pid' d.
Proof.
  intros Hid. unfold db_after_remove, Sql.rows_of. rewrite Hid. simpl. split.
  - apply remove_rows_own.
  - intros pid' Hne. by apply remove_rows_other.
Qed.

(** C5: remove_from_playlist(name, i). An unknown playlist is answered with
    not-found, the Library playlist with cannot-modify, an index outside
    [0, len) with invalid-index, each time with nothing changed. For an existing
    playlist other than Library and an index in [0, len), storage working:
    exactly the entry at i leaves the list (earlier entries stay, each later
    entry moves down by one); the membership rows, stored at the dense
    positions 0, 1, ... before, are stored at dense positions again, the rows
    of other playlists untouched; and when the playlist is the bound one the
    same position leaves the bound copy and the current index goes down by one
    exactly when i lies strictly before it. *)
Theorem remove_from_playlist_spec (E : env) (s : state) (playlist_name : string)
    (index : Z) :
  (playlists s !! playlist_name = None ->
   MusicEngine.remove_from_playlist E playlist_name index s
   = (MusicEngine.not_found playlist_name, s))
  ∧ (playlist_name = "Library" -> is_Some (playlists s !! playlist_name) ->
     MusicEngine.remove_from_playlist E playlist_name index s
     = (RError "Cannot modify Library playlist", s))
  ∧ (∀ playlist,
       playlists s !! playlist_name = Some playlist ->
       playlist_name ≠ "Library" ->
       ¬ (0 <= index < Z.of_nat (length playlist)) ->
       MusicEngine.remove_from_playlist E playlist_name index s
       = (RError "Invalid song index", s))
  ∧ (∀ playlist,
       playlists s !! playlist_name = Some playlist ->
       playlist_name ≠ "Library" ->
       0 <= index < Z.of_nat (length playlist) ->
       storage_fault E = None ->
       (current_playlist_name s = Some playlist_name ->
        index < Z.of_nat (length (current_playlist s))) ->
       let s' := snd (MusicEngine.remove_from_playlist E playlist_name index s) in
       let shorter := delete (Z.to_nat index) playlist in
       (∃ removed,
           playlist !! Z.to_nat index = Some removed
           ∧ fst (MusicEngine.remove_from_playlist E playlist_name index s)
             = RPlaylistSong "song_removed_from_playlist" playlist_name removed)
       ∧ playlists s' = <[playlist_name := shorter]> (playlists s)
       ∧ length shorter = (length playlist - 1)%nat
       ∧ (∀ k, (k < Z.to_nat index)%nat -> shorter !! k = playlist !! k)
       ∧ (∀ k, (Z.to_nat index <= k)%nat -> shorter !! k = playlist !! S k)
       ∧ (∀ pid, playlist_id_of playlist_name (db s) = Some pid ->
            (stored_as pid playlist (db s) -> stored_as pid shorter (db s'))
            ∧ (∀ pid', pid' ≠ pid -> Sql.rows_of pid' (db s') = Sql.rows_of pid' (db s)))
       ∧ (current_playlist_name s = Some playlist_name ->
            current_playlist s' = delete (Z.to_nat index) (current_playlist s)
            ∧ playlist_index s' = follow_remove index (playlist_index s))
       ∧ (current_playlist_name s ≠ Some playlist_name ->
            current_playlist s' = current_playlist s
            ∧ playlist_index s' = playlist_index s)
       ∧ current_playlist_name s' = current_playlist_name s).
Proof.
  repeat apply conj.
  - intros Hnone. unfold MusicEngine.remove_from_playlist. by rewrite Hnone.
  - intros -> [playlist Hpl]. unfold MusicEngine.remove_from_playlist.
    rewrite Hpl. by rewrite bool_decide_eq_true_2 by done.
  - intros playlist Hpl Hlib Hout. unfold MusicEngine.remove_from_playlist.
    rewrite Hpl. rewrite bool_decide_eq_false_2 by done.
    by rewrite (bool_decide_eq_false_2 _ Hout).
  - intros playlist Hpl Hlib Hidx Hup Hbound s' shorter.
    destruct (remove_from_playlist_ok E Hup playlist_name index s playlist
                Hpl Hlib Hidx Hbound) as (removed & Hrem & Heq).
    subst s'. rewrite Heq. cbv zeta. cbn [fst snd].
    assert (Hfields :
      ∀ st : state,
        st = (if bool_decide (current_playlist_name s = Some playlist_name)
              then set_playlist_index (follow_remove index (playlist_index s))
                     (set_current_playlist (delete (Z.to_nat index) (current_playlist s))
                        (set_playlists (<[playlist_name := shorter]> (playlists s))
                           (set_db (db_after_remove playlist_name index (db s)) s)))
              else set_playlists (<[playlist_name := shorter]> (playlists s))
                     (set_db (db_after_remove playlist_name index (db s)) s)) ->
        playlists st = <[playlist_name := shorter]> (playlists s)
        ∧ db st = db_after_remove playlist_name index (db s)
        ∧ current_playlist_name st = current_playlist_name s
        ∧ (current_playlist_name s = Some playlist_name ->
             current_playlist st = delete (Z.to_nat index) (current_playlist s)
             ∧ playlist_index st = follow_remove index (playlist_index s))
        ∧ (current_playlist_name s ≠ Some playlist_name ->
             current_playlist st = current_playlist s
             ∧ playlist_index st = playlist_index s)).
    { intros st ->. case_bool_decide; simpl; repeat split; try done. }
    destruct (Hfields _ eq_refl) as (Hpls & Hdb & Hnm & Hyes & Hno).
    fold shorter. rewrite Hpls, Hdb, Hnm.
    repeat apply conj; try done.
    + by exists removed.
    + subst shorter. rewrite length_delete by eauto. done.
    + intros k Hk. by apply list_lookup_delete_lt.
    + intros k Hk. by apply list_lookup_delete_ge.
    + intros pid Hid.
      destruct (rows_after_remove playlist_name index (db s) pid Hid) as [Hown Hothers].
      split; [|done].
      intros Hst. unfold stored_as. rewrite Hown.
      apply remove_keeps_dense; [lia | done].
Qed.

Lemma remove_from_playlist_spec_witness :
  let s' := snd (MusicEngine.remove_from_playlist Sample.world "P" 0 Sample.at_last) in
  playlists s' = <["P" := [Sample.song_b; Sample.song_c]]> (playlists Sample.at_last)
  ∧ stored_as 1 [Sample.song_b; Sample.song_c] (db s')
  ∧ playlist_index s' = 1.
Proof.
  intros s'.
  destruct (remove_from_playlist_spec Sample.world Sample.at_last "P" 0)
    as (_ & _ & _ & H).
  destruct (H [Sample.song_a; Sample.song_b; Sample.song_c])
    as (_ & Hpls & _ & _ & _ & Hdb & Hidx & _).
  - reflexivity.
  - discriminate.
  - simpl. lia.
  - reflexivity.
  - intros _. simpl. lia.
  - split; [exact Hpls|]. split.
    + apply (Hdb 1); [reflexivity|]. unfold stored_as. reflexivity.
    + apply Hidx. reflexivity.
Defined.

(** ** Reordering a playlist *)

(** Following a move and then the move back leads to where one was. *)
Lemma follow_move_back (from_index to_index i : Z) :
  follow_move to_index from_index (follow_move from_index to_index i) = i.
Proof.
  unfold follow_move, moved_over, toward. repeat case_bool_decide; lia.
Qed.

(** C6: reorder_playlist(name, from, to) on an existing playlist other than
    Library, both positions in [0, len), storage working. The stored list
    becomes a permutation of itself with the entry of [from] at [to]; the
    membership rows are rewritten at the positions 0, 1, ...; calling
    reorder_playlist(name, to, from) afterwards gives back the original list
    (and bound copy, and index); and when the playlist is the bound one the
    bound copy is moved the same way and the current index follows the move: to
    the destination if it was [from], one step toward [from] if it lay in the
    range moved over, unchanged otherwise, so that it still points at the song
    it pointed at. *)
Theorem reorder_playlist_spec (E : env) (s : state) (playlist_name : string)
    (from_index to_index : Z) (playlist : list song) :
  playlists s !! playlist_name = Some playlist ->
  playlist_name ≠ "Library" ->
  0 <= from_index < Z.of_nat (length playlist) ->
  0 <= to_index < Z.of_nat (length playlist) ->
  storage_fault E = None ->
  (current_playlist_name s = Some playlist_name ->
   length (current_playlist s) = length playlist) ->
  let out := MusicEngine.reorder_playlist E playlist_name from_index to_index s in
  let s' := snd out in
  let back := MusicEngine.reorder_playlist E playlist_name to_index from_index s' in
  ∃ moved,
    fst out = RPlaylist "playlist_reordered" playlist_name
    ∧ playlists s' = <[playlist_name := moved]> (playlists s)
    ∧ moved ≡ₚ playlist
    ∧ moved !! Z.to_nat to_index = playlist !! Z.to_nat from_index
    ∧ (∀ pid, playlist_id_of playlist_name (db s) = Some pid ->
         Sql.rows_of pid (db s') = rows_from pid 0 moved
         ∧ (∀ pid', pid' ≠ pid -> Sql.rows_of pid' (db s') = Sql.rows_of pid' (db s)))
    ∧ (fst back = RPlaylist "playlist_reordered" playlist_name
       ∧ playlists (snd back) = playlists s
       ∧ current_playlist (snd back) = current_playlist s
       ∧ playlist_index (snd back) = playlist_index s
       ∧ (∀ pid, playlist_id_of playlist_name (db s) = Some pid ->
            Sql.rows_of pid (db (snd back)) = rows_from pid 0 playlist))
    ∧ (current_playlist_name s = Some playlist_name ->
         MusicEngine.move (current_playlist s) from_index to_index
         = Some (current_playlist s')
         ∧ playlist_index s' = follow_move from_index to_index (playlist_index s)
         ∧ (0 <= playlist_index s < Z.of_nat (length (current_playlist s)) ->
            current_playlist s' !! Z.to_nat (playlist_index s')
            = current_playlist s !! Z.to_nat (playlist_index s)))
    ∧ (current_playlist_name s ≠ Some playlist_name ->
         current_playlist s' = current_playlist s
         ∧ playlist_index s' = playlist_index s).
Proof.
  intros Hpl Hlib Hf Ht Hup Hbound out s' back.
  destruct (reorder_playlist_ok E Hup playlist_name from_index to_index s playlist
              Hpl Hlib Hf Ht Hbound) as (moved & bound & Hmove & Hmoveb & Heq).
  pose proof (move_length _ _ _ _ Hmove) as Hlen.
  (* the fields of the state after the first call *)
  assert (Hs' :
    playlists s' = <[playlist_name := moved]> (playlists s)
    ∧ db s' = db_after_reorder playlist_name moved (db s)
    ∧ current_playlist_name s' = current_playlist_name s
    ∧ (current_playlist_name s = Some playlist_name ->
         current_playlist s' = bound
         ∧ playlist_index s' = follow_move from_index to_index (playlist_index s))
    ∧ (current_playlist_name s ≠ Some playlist_name ->
         current_playlist s' = current_playlist s
         ∧ playlist_index s' = playlist_index s)).
  { subst s' out. rewrite Heq. cbv zeta. cbn [snd].
    case_bool_decide; simpl; repeat split; done. }
  destruct Hs' as (Hpls & Hdb & Hnm & Hyes & Hno).
  (* the call back *)
  assert (Hpl' : playlists s' !! playlist_name = Some moved)
    by (rewrite Hpls; apply lookup_insert_eq).
  assert (Hbound' : current_playlist_name s' = Some playlist_name ->
                    length (current_playlist s') = length moved).
  { rewrite Hnm. intros Hname. destruct (Hyes Hname) as [-> _].
    rewrite (move_length _ _ _ _ (Hmoveb Hname)). rewrite Hlen. by apply Hbound. }
  destruct (reorder_playlist_ok E Hup playlist_name to_index from_index s' moved
              Hpl' Hlib ltac:(lia) ltac:(lia) Hbound')
    as (moved' & bound' & Hmove' & Hmoveb' & Heq').
  rewrite (move_inverse playlist from_index to_index moved Hf Ht Hmove) in Hmove'.
  injection Hmove' as <-.
  assert (Hback :
    playlists (snd back) = playlists s
    ∧ db (snd back) = db_after_reorder playlist_name playlist (db s')
    ∧ current_playlist (snd back) = current_playlist s
    ∧ playlist_index (snd back) = playlist_index s).
  { subst back. rewrite Heq'. cbv zeta. cbn [snd].
    case_bool_decide as Hname'; pose proof Hname' as Hname;
      rewrite Hnm in Hname; simpl.
    - destruct (Hyes Hname) as [Hcp Hidx].
      specialize (Hmoveb' Hname'). rewrite Hcp in Hmoveb'.
      rewrite (move_inverse (current_playlist s) from_index to_index bound) in Hmoveb';
        [| rewrite (Hbound Hname); lia | rewrite (Hbound Hname); lia | by apply Hmoveb].
      injection Hmoveb' as <-.
      rewrite Hpls, Hidx, insert_insert_eq, follow_move_back.
      by rewrite insert_id.
    - destruct (Hno Hname) as [Hcp Hidx].
      rewrite Hpls, Hcp, Hidx, insert_insert_eq. by rewrite insert_id. }
  destruct Hback as (Hbpls & Hbdb & Hbcp & Hbidx).
  exists moved. repeat apply conj; try done.
  - subst out. by rewrite Heq.
  - by eapply move_perm.
  - destruct (move_tracks playlist moved from_index to_index from_index
                Hf Ht Hf Hmove) as [_ Htr].
    unfold follow_move in Htr. by rewrite bool_decide_eq_true_2 in Htr by done.
  - intros pid Hid. rewrite Hdb. by apply rows_after_reorder.
  - subst back. by rewrite Heq'.
  - intros pid Hid. rewrite Hbdb. apply rows_after_reorder.
    rewrite Hdb. by rewrite playlist_id_of_after_reorder.
  - intros Hname. destruct (Hyes Hname) as [Hcp Hidx].
    rewrite Hcp. repeat split; [by apply Hmoveb | done |].
    intros Hin. rewrite Hidx.
    apply (move_tracks (current_playlist s) bound from_index to_index);
      [rewrite (Hbound Hname); lia | rewrite (Hbound Hname); lia | done | by apply Hmoveb].
Qed.

Lemma reorder_playlist_spec_witness :
  let s' := snd (MusicEngine.reorder_playlist Sample.world "P" 2 0 Sample.at_last) in
  playlists s' !! "P" = Some [Sample.song_c; Sample.song_a; Sample.song_b]
  ∧ playlist_index s' = 0
  ∧ playlists (snd (MusicEngine.reorder_playlist Sample.world "P" 0 2 s'))
    = playlists Sample.at_last.
Proof.
  intros s'.
  destruct (reorder_playlist_spec Sample.world Sample.at_last "P" 2 0
              [Sample.song_a; Sample.song_b; Sample.song_c])
    as (moved & _ & Hpls & _ & _ & _ & (_ & Hback & _) & Hidx & _).
  - reflexivity.
  - discriminate.
  - simpl. lia.
  - simpl. lia.
  - reflexivity.
  - intros _. reflexivity.
  - split; [reflexivity|]. split; [|exact Hback].
    apply Hidx. reflexivity.
Defined.

(** ** The bound copy stays in step with its stored playlist *)

Lemma binding_ok_same (s s' : state) :
  same_binding s s' -> binding_ok s -> binding_ok s'.
Proof. intros (Hp & Hc & Hn) H name. rewrite Hp, Hc, Hn. apply H. Qed.

Lemma binding_ok_unbound (s : state) :
  current_playlist_name s = None -> binding_ok s.
Proof. intros H name. by rewrite H. Qed.

Lemma play_file_same_binding (E : env) (file_path : string) (s : state) :
  same_binding s (snd (MusicEngine.play_file E file_path s)).
Proof.
  pose proof (play_file_frame E file_path s) as H. cbv zeta in H.
  destruct H as (_ & ? & ? & ? & _). done.
Qed.

Lemma play_index_same_binding (E : env) (i : Z) (s : state) :
  same_binding s (snd (MusicEngine.play_index E i s)).
Proof.
  unfold MusicEngine.play_index. destruct (py_getitem _ _); [|done].
  apply play_file_same_binding.
Qed.

Lemma transaction_cases {A} (E : env) (tx : stmt A) (s : state) :
  (∃ e, MusicEngine.transaction E tx s = inl e)
  ∨ (∃ a d, MusicEngine.transaction E tx s = inr (a, set_db d s)).
Proof.
  unfold MusicEngine.transaction. destruct (storage_fault E); [eauto|].
  destruct (tx (db s)) as [[a d]|]; eauto.
Qed.

(** Goals of the shape [binding_ok s'] where [s'] is [s] with fields other
    than the stored playlists and the binding rewritten, possibly through
    [play_file]. *)
Ltac binding_frame H :=
  repeat first
    [ rewrite dropped_snd
    | apply (binding_ok_same _ _ (play_file_same_binding _ _ _))
    | apply (binding_ok_same _ _ (play_index_same_binding _ _ _))
    | exact H
    | exact (binding_ok_same _ _ ltac:(done) H)
    | apply binding_ok_unbound; reflexivity
    | case_match
    | progress simpl ].

Lemma playback_binding_ok (E : env) (o : op) (s : state) :
  match o with
  | OpSetShuffle _ | OpCreatePlaylist _ _ | OpDeletePlaylist _
  | OpAddToPlaylist _ _ | OpRemoveFromPlaylist _ _ | OpReorderPlaylist _ _ _
  | OpPlayPlaylist _ | OpRenamePlaylist _ _ => False
  | _ => True
  end ->
  binding_ok s -> binding_ok (snd (step E o s)).
Proof.
  intros Ho H. destruct o; try done; simpl;
    unfold MusicEngine.play_by_name, MusicEngine.pause, MusicEngine.resume,
      MusicEngine.next, MusicEngine.previous, MusicEngine.seek,
      MusicEngine._handle_song_end, MusicEngine.add_to_queue,
      MusicEngine.clear_queue, MusicEngine.remove_from_queue,
      MusicEngine.set_volume, MusicEngine.toggle_mute, MusicEngine.set_repeat;
    binding_frame H.
Qed.

Section BindingInvariant.
Variable E : env.
Implicit Types s : state.

Lemma set_shuffle_binding_ok enabled s :
  shuffle_permutes E -> binding_ok s ->
  binding_ok (snd (MusicEngine.set_shuffle E enabled s)).
Proof.
  intros Hperm H. unfold MusicEngine.set_shuffle. cbn [snd].
  destruct (enabled && _); [|exact (binding_ok_same _ _ ltac:(done) H)].
  intros name Hname. simpl in *. destruct (H name Hname) as (pl & Hpl & Hlen).
  exists pl. split; [done|]. rewrite <- Hlen.
  unfold py_slice_to, py_slice_from. rewrite length_app, (Permutation_length (Hperm _)).
  rewrite <- length_app. by rewrite take_drop.
Qed.

Lemma create_playlist_binding_ok name songs s :
  binding_ok s -> binding_ok (snd (MusicEngine.create_playlist E name songs s)).
Proof.
  intros H. unfold MusicEngine.create_playlist. case_bool_decide as Hfree; [done|].
  destruct (transaction_cases E
              (Sql.bind (Sql.insert_playlist name)
                 (fun playlist_id => Sql.insert_songs_from playlist_id 0 (default [] songs))) s)
    as [[e ->] | (a & d & ->)]; [done|].
  intros n Hn. simpl in *. destruct (H n Hn) as (pl & Hpl & Hlen).
  exists pl. split; [|done].
  rewrite lookup_insert_ne; [done|]. intros ->. apply Hfree. by rewrite Hpl.
Qed.

Lemma delete_playlist_binding_ok name s :
  binding_ok s -> binding_ok (snd (MusicEngine.delete_playlist E name s)).
Proof.
  intros H. unfold MusicEngine.delete_playlist.
  repeat (case_bool_decide; [done|]).
  destruct (transaction_cases E (Sql.delete_playlist (foreign_keys E) name) s)
    as [[e ->] | (a & d & ->)]; [done|].
  cbn [current_playlist_name set_playlists set_db].
  case_bool_decide as Hbound; [by apply binding_ok_unbound|].
  intros n Hn. simpl in *. destruct (H n Hn) as (pl & Hpl & Hlen).
  exists pl. split; [|done]. rewrite lookup_delete_ne; [done | congruence].
Qed.

Lemma add_to_playlist_binding_ok playlist_name song_name s :
  binding_ok s ->
  binding_ok (snd (MusicEngine.add_to_playlist E playlist_name song_name s)).
Proof.
  intros H. unfold MusicEngine.add_to_playlist.
  destruct (playlists s !! playlist_name) as [playlist|] eqn:Hpl; [|done].
  destruct (match MusicEngine._search_song E song_name with
            | Some song_data => Some song_data
            | None => _
            end) as [song_data|]; [|done].
  match goal with
  | |- context [MusicEngine.transaction E ?tx s] =>
      destruct (transaction_cases E tx s) as [[e ->] | (a & d & ->)]; [done|]
  end.
  cbn [current_playlist_name set_playlists set_db].
  intros n Hn. case_bool_decide as Hbound; simpl in *.
  - assert (n = playlist_name) as -> by congruence.
    exists (playlist ++ [song_data]). rewrite lookup_insert_eq. split; [done|].
    destruct (H _ Hbound) as (pl & Hpl' & Hlen).
    rewrite !length_app, Hlen. by simplify_eq.
  - destruct (H n Hn) as (pl & Hpl' & Hlen). exists pl. split; [|done].
    rewrite lookup_insert_ne; [done | congruence].
Qed.

Lemma remove_from_playlist_binding_ok playlist_name index s :
  binding_ok s ->
  binding_ok (snd (MusicEngine.remove_from_playlist E playlist_name index s)).
Proof.
  intros H. unfold MusicEngine.remove_from_playlist.
  destruct (playlists s !! playlist_name) as [playlist|] eqn:Hpl; [|done].
  case_bool_decide; [done|]. case_bool_decide as Hidx; [|done]. cbn [negb].
  destruct (py_getitem playlist index) as [removed|]; [|done].
  match goal with
  | |- context [MusicEngine.transaction E ?tx s] =>
      destruct (transaction_cases E tx s) as [[e ->] | (a & d & ->)]; [done|]
  end.
  cbn [current_playlist_name set_playlists set_db current_playlist].
  case_bool_decide as Hbound.
  - destruct (H _ Hbound) as (pl & Hpl' & Hlen). simplify_eq.
    destruct (lookup_in_range (current_playlist s) index ltac:(lia)) as [y Hy].
    rewrite (py_pop_in_range _ index y) by (done || lia).
    assert (Hok : binding_ok
              (set_current_playlist (delete (Z.to_nat index) (current_playlist s))
                 (set_playlists
                    (<[playlist_name := delete (Z.to_nat index) playlist]> (playlists s))
                    (set_db d s)))).
    { intros n Hn. simpl in *. assert (n = playlist_name) as -> by congruence.
      eexists. rewrite lookup_insert_eq. split; [done|].
      rewrite !length_delete by (apply lookup_lt_is_Some; lia). lia. }
    case_bool_decide; [|exact Hok]. exact (binding_ok_same _ _ ltac:(done) Hok).
  - intros n Hn. simpl in *. destruct (H n Hn) as (pl & Hpl' & Hlen).
    exists pl. split; [|done]. rewrite lookup_insert_ne; [done | congruence].
Qed.

Lemma reorder_playlist_binding_ok playlist_name from_index to_index s :
  binding_ok s ->
  binding_ok (snd (MusicEngine.reorder_playlist E playlist_name from_index to_index s)).
Proof.
  intros H. unfold MusicEngine.reorder_playlist.
  destruct (playlists s !! playlist_name) as [playlist|] eqn:Hpl; [|done].
  case_bool_decide; [done|]. destruct (negb _); [done|].
  destruct (MusicEngine.move playlist from_index to_index) as [moved|] eqn:Hmove;
    [|done].
  pose proof (move_length _ _ _ _ Hmove) as Hlen.
  (* the stored list is already reordered *)
  assert (Hmid : binding_ok (set_playlists (<[playlist_name := moved]> (playlists s)) s)).
  { intros n Hn. simpl in *. destruct (H n Hn) as (pl & Hpl' & Hl).
    destruct (decide (n = playlist_name)) as [-> | Hne].
    - exists moved. rewrite lookup_insert_eq. split; [done|]. simplify_eq. congruence.
    - exists pl. by rewrite lookup_insert_ne by done. }
  match goal with
  | |- context [MusicEngine.transaction E ?tx ?s1] =>
      destruct (transaction_cases E tx s1) as [[e ->] | (a & d & ->)]; [done|]
  end.
  cbn [current_playlist_name set_playlists set_db current_playlist].
  assert (Hdb : binding_ok (set_db d (set_playlists (<[playlist_name := moved]> (playlists s)) s)))
    by exact (binding_ok_same _ _ ltac:(done) Hmid).
  case_bool_decide as Hbound; [|exact Hdb].
  destruct (MusicEngine.move (current_playlist s) from_index to_index)
    as [bound|] eqn:Hmoveb; [|exact Hdb].
  pose proof (move_length _ _ _ _ Hmoveb) as Hlenb.
  assert (Hok : binding_ok
            (set_current_playlist bound
               (set_db d (set_playlists (<[playlist_name := moved]> (playlists s)) s)))).
  { intros n Hn. destruct (Hdb n Hn) as (pl & Hpl' & Hl). exists pl.
    split; [done|]. simpl in *. congruence. }
  repeat case_bool_decide; first [exact Hok | exact (binding_ok_same _ _ ltac:(done) Hok)].
Qed.

Lemma play_playlist_binding_ok name s :
  shuffle_permutes E -> binding_ok s ->
  binding_ok (snd (MusicEngine.play_playlist E name s)).
Proof.
  intros Hperm H. unfold MusicEngine.play_playlist.
  destruct (playlists s !! name) as [[|x playlist]|] eqn:Hpl; [done| |done].
  apply (binding_ok_same _ _ (play_index_same_binding _ _ _)).
  intros n Hn. exists (x :: playlist).
  destruct (shuffle s) eqn:Hsh; simpl in *; rewrite Hsh in *; simpl in *;
    simplify_eq; split; try done.
  apply (Permutation_length (Hperm (x :: playlist))).
Qed.

Lemma rename_playlist_binding_ok old_name new_name s :
  binding_ok s ->
  binding_ok (snd (MusicEngine.rename_playlist E old_name new_name s)).
Proof.
  intros H. unfold MusicEngine.rename_playlist. case_bool_decide; [done|].
  destruct (playlists s !! old_name) as [playlist|] eqn:Hpl; [|done].
  case_bool_decide as Hnew; [done|].
  destruct (transaction_cases E (Sql.rename_playlist new_name old_name) s)
    as [[e ->] | (a & d & ->)]; [done|].
  cbn [current_playlist_name set_playlists set_db].
  intros n Hn. case_bool_decide as Hbound; simpl in *.
  - assert (n = new_name) as -> by congruence.
    exists playlist. rewrite lookup_insert_eq. split; [done|].
    destruct (H _ Hbound) as (pl & Hpl' & Hlen). congruence.
  - destruct (H n Hn) as (pl & Hpl' & Hlen). exists pl. split; [|done].
    rewrite lookup_insert_ne.
    + rewrite lookup_delete_ne; [done | congruence].
    + intros ->. apply Hnew. by rewrite Hpl'.
Qed.

Lemma step_binding_ok (o : op) s :
  shuffle_permutes E -> binding_ok s -> binding_ok (snd (step E o s)).
Proof.
  intros Hperm H.
  destruct o;
    try (by apply playback_binding_ok); simpl.
  - by apply set_shuffle_binding_ok.
  - by apply create_playlist_binding_ok.
  - by apply delete_playlist_binding_ok.
  - by apply add_to_playlist_binding_ok.
  - by apply remove_from_playlist_binding_ok.
  - by apply reorder_playlist_binding_ok.
  - by apply play_playlist_binding_ok.
  - by apply rename_playlist_binding_ok.
Qed.
End BindingInvariant.

(** In every state the server reaches, the bound copy is as long as the
    stored playlist it is bound to. *)
Lemma reachable_binding_ok (s : state) :
  reachable_in shuffle_permutes s -> binding_ok s.
Proof.
  induction 1 as [d loaded | E o s HE _ IH].
  - by apply binding_ok_unbound.
  - by apply step_binding_ok.
Qed.


(** * Further properties of the engine *)

(** ** Pause, resume, previous *)

(** X1: pausing a playing song and resuming it gives back the state one
    started from; a second pause in a row answers already_paused and changes
    nothing; resume with no current song answers nothing_to_resume. *)
Theorem pause_resume_round_trip (s : state) (file_path : string) :
  now_playing file_path s ->
  let paused := snd (MusicEngine.pause s) in
  fst (MusicEngine.pause s) = RStatus "paused"
  ∧ is_playing paused = false
  ∧ dev_state (player paused) = Paused
  ∧ MusicEngine.pause paused = (RStatus "already_paused", paused)
  ∧ MusicEngine.resume paused = (RStatus "resumed", s)
  ∧ MusicEngine.resume (set_current_song None paused)
    = (RStatus "nothing_to_resume", set_current_song None paused).
Proof.
  intros (Hcur & Hplaying & Hmedia & Hdev).
  destruct s as [[m st vol t] cur q pls cp cpn idx h playing v mu sh rp d].
  simpl in *. subst. destruct cur as [c|]; [|done]. done.
Qed.

Lemma pause_resume_round_trip_witness :
  MusicEngine.resume (snd (MusicEngine.pause Sample.queued))
  = (RStatus "resumed", Sample.queued).
Proof.
  destruct (pause_resume_round_trip Sample.queued "/music/a.mp3")
    as (_ & _ & _ & _ & H & _).
  - repeat split; reflexivity.
  - exact H.
Defined.

Lemma snapshot_location (E : env) (file_path : string) :
  file_location (snapshot E file_path) = file_path.
Proof.
  unfold snapshot, MusicEngine._get_song_info. by destruct (List.find _ _).
Qed.

(** The state after a [play_file] that finds its file. *)
Lemma play_file_exists (E : env) (file_path : string) (s : state) :
  path_exists E file_path = true ->
  MusicEngine.play_file E file_path s
  = (RPlayingSong (snapshot E file_path),
     State (Device (Some file_path) Playing
              (if is_muted s then audio_volume (player s) else volume s)
              (time_ms (player s)))
           (Some (snapshot E file_path)) (queue s) (playlists s)
           (current_playlist s) (current_playlist_name s) (playlist_index s)
           (deque_append MusicEngine.HISTORY_MAXLEN (history s) (snapshot E file_path))
           true (volume s) (is_muted s) (shuffle s) (repeat s) (db s)).
Proof.
  intros Hex. unfold MusicEngine.play_file, snapshot. rewrite Hex. simpl.
  destruct (MusicEngine._get_song_info E file_path); destruct (is_muted s); done.
Qed.

(** X2: [previous] looks first at the bound playlist (index above 0: one step
    back), then at the history (two entries or more: the newest one is dropped
    and the one before it is played again and appended again), then at the
    current song (restarted from 0), and answers no_previous_song only when
    all three fail. *)
Theorem previous_resolution_order (E : env) (s : state) :
  (current_playlist s ≠ [] -> 0 < playlist_index s ->
   playlist_index (snd (MusicEngine.previous E s)) = playlist_index s - 1
   ∧ ∀ x, current_playlist s !! Z.to_nat (playlist_index s - 1) = Some x ->
          path_exists E (file_location x) = true ->
          now_playing (file_location x) (snd (MusicEngine.previous E s)))
  ∧ (∀ h a b,
       ¬ (current_playlist s ≠ [] ∧ 0 < playlist_index s) ->
       history s = h ++ [a; b] ->
       history_ok s ->
       path_exists E (file_location a) = true ->
       now_playing (file_location a) (snd (MusicEngine.previous E s))
       ∧ history (snd (MusicEngine.previous E s))
         = h ++ [a; snapshot E (file_location a)]
       ∧ playlist_index (snd (MusicEngine.previous E s)) = playlist_index s)
  ∧ (¬ (current_playlist s ≠ [] ∧ 0 < playlist_index s) ->
     (length (history s) < 2)%nat ->
     (is_Some (current_song s) ->
      MusicEngine.previous E s
      = (RStatus "restarted", set_player (Player.set_time 0 (player s)) s))
     ∧ (current_song s = None ->
        MusicEngine.previous E s = (RStatus "no_previous_song", s))).
Proof.
  repeat apply conj.
  - intros Hcp Hidx. unfold MusicEngine.previous.
    rewrite !bool_decide_eq_true_2 by done. cbn [andb].
    split.
    + match goal with
      | |- context [MusicEngine.play_index E ?i ?s1] =>
          destruct (play_index_frame E i s1) as (_ & _ & ->)
      end. done.
    + intros x Hx Hex. unfold MusicEngine.play_index.
      cbn [current_playlist set_playlist_index playlist_index].
      rewrite py_getitem_in_range
        by (apply lookup_lt_Some in Hx; lia).
      rewrite Hx. by apply play_file_plays.
  - intros h a b Hno Hh Hok Hex. unfold MusicEngine.previous.
    assert (Hfirst : bool_decide (current_playlist s ≠ [])
                     && bool_decide (0 < playlist_index s) = false).
    { apply andb_false_iff. destruct (decide (current_playlist s ≠ [])).
      - right. apply bool_decide_eq_false_2. tauto.
      - left. by apply bool_decide_eq_false_2. }
    rewrite Hfirst. rewrite bool_decide_eq_true_2
      by (rewrite Hh, length_app; simpl; lia).
    cbn [history set_history]. unfold deque_pop. rewrite Hh.
    replace (length (h ++ [a; b]) - 1)%nat with (length (h ++ [a]))
      by (rewrite !length_app; simpl; lia).
    replace (h ++ [a; b]) with ((h ++ [a]) ++ [b]) by (by rewrite <- app_assoc).
    rewrite take_app_length. rewrite last_snoc.
    rewrite play_file_exists by done. cbn [snd history set_history].
    unfold now_playing. simpl. rewrite snapshot_location.
    repeat split; try done.
    unfold deque_append. rewrite bool_decide_eq_false_2.
    + by rewrite <- app_assoc.
    + unfold history_ok in Hok. rewrite Hh in Hok.
      rewrite !length_app in *. simpl in *. unfold MusicEngine.HISTORY_MAXLEN in *. lia.
  - intros Hno Hlen. unfold MusicEngine.previous.
    assert (Hfirst : bool_decide (current_playlist s ≠ [])
                     && bool_decide (0 < playlist_index s) = false).
    { apply andb_false_iff. destruct (decide (current_playlist s ≠ [])).
      - right. apply bool_decide_eq_false_2. tauto.
      - left. by apply bool_decide_eq_false_2. }
    rewrite Hfirst. rewrite bool_decide_eq_false_2 by lia. split.
    + intros [c Hc]. unfold MusicEngine.seek. by rewrite Hc.
    + intros Hc. by rewrite Hc.
Qed.

Lemma previous_resolution_order_witness :
  now_playing "/music/a.mp3" (snd (MusicEngine.previous Sample.world Sample.two_played)).
Proof.
  destruct (previous_resolution_order Sample.world Sample.two_played) as (_ & H & _).
  destruct (H [] Sample.song_a Sample.song_b) as (Hplay & _).
  - intros [Hcp _]. by apply Hcp.
  - reflexivity.
  - unfold history_ok, MusicEngine.HISTORY_MAXLEN. simpl. lia.
  - reflexivity.
  - exact Hplay.
Defined.

Lemma previous_from_history (E : env) (s : state) (h : list song) (a b : song) :
  ¬ (current_playlist s ≠ [] ∧ 0 < playlist_index s) ->
  history s = h ++ [a; b] ->
  MusicEngine.previous E s
  = MusicEngine.play_file E (file_location a) (set_history (h ++ [a]) s).
Proof.
  intros Hno Hh. unfold MusicEngine.previous.
  assert (Hfirst : bool_decide (current_playlist s ≠ [])
                   && bool_decide (0 < playlist_index s) = false).
  { apply andb_false_iff. destruct (decide (current_playlist s ≠ [])).
    - right. apply bool_decide_eq_false_2. tauto.
    - left. by apply bool_decide_eq_false_2. }
  rewrite Hfirst. rewrite bool_decide_eq_true_2
    by (rewrite Hh, length_app; simpl; lia).
  cbn [history set_history]. unfold deque_pop. rewrite Hh.
  replace (length (h ++ [a; b]) - 1)%nat with (length (h ++ [a]))
    by (rewrite !length_app; simpl; lia).
  replace (h ++ [a; b]) with ((h ++ [a]) ++ [b]) by (by rewrite <- app_assoc).
  rewrite take_app_length. by rewrite last_snoc.
Qed.

(** X3: through the history [previous] goes back one song and no further:
    the song before the newest one is played and takes the newest one's place
    in the history, so a second [previous] plays that same song again and
    leaves the state as the first one left it. *)
Theorem previous_goes_back_one_song_only (E : env) (s : state) (h : list song)
    (a b : song) :
  ¬ (current_playlist s ≠ [] ∧ 0 < playlist_index s) ->
  history s = h ++ [a; b] ->
  history_ok s ->
  path_exists E (file_location a) = true ->
  let once := MusicEngine.previous E s in
  let twice := MusicEngine.previous E (snd once) in
  fst once = RPlayingSong (snapshot E (file_location a))
  ∧ fst twice = RPlayingSong (snapshot E (file_location a))
  ∧ snd twice = snd once
  ∧ history (snd twice) = h ++ [a; snapshot E (file_location a)].
Proof.
  intros Hno Hh Hok Hex once twice.
  assert (Hlen : (length (h ++ [a]) < MusicEngine.HISTORY_MAXLEN)%nat).
  { unfold history_ok in Hok. rewrite Hh in Hok. rewrite !length_app in *.
    simpl in *. lia. }
  assert (Happ : deque_append MusicEngine.HISTORY_MAXLEN (h ++ [a])
                   (snapshot E (file_location a))
                 = h ++ [a; snapshot E (file_location a)]).
  { unfold deque_append. rewrite bool_decide_eq_false_2.
    - by rewrite <- app_assoc.
    - rewrite !length_app in *. simpl in *. lia. }
  assert (Honce : once = MusicEngine.play_file E (file_location a)
                           (set_history (h ++ [a]) s))
    by (by eapply previous_from_history).
  rewrite (play_file_exists E _ _ Hex) in Honce.
  cbn [history set_history player is_muted volume queue playlists current_playlist
       current_playlist_name playlist_index shuffle repeat db] in Honce.
  rewrite Happ in Honce.
  assert (Htwice : twice = MusicEngine.play_file E (file_location a)
                             (set_history (h ++ [a]) (snd once))).
  { subst twice. eapply previous_from_history; rewrite Honce; simpl; done. }
  rewrite (play_file_exists E _ _ Hex) in Htwice.
  rewrite Honce in Htwice.
  cbn [snd history set_history player is_muted volume queue playlists current_playlist
       current_playlist_name playlist_index shuffle repeat db audio_volume time_ms]
    in Htwice.
  rewrite Happ in Htwice.
  rewrite Htwice, Honce. cbn [fst snd history].
  repeat split; try done.
  by destruct (is_muted s).
Qed.

Lemma previous_goes_back_one_song_only_witness :
  let once := MusicEngine.previous Sample.world Sample.two_played in
  snd (MusicEngine.previous Sample.world (snd once)) = snd once.
Proof.
  intros once.
  destruct (previous_goes_back_one_song_only Sample.world Sample.two_played []
              Sample.song_a Sample.song_b) as (_ & _ & H & _).
  - intros [Hcp _]. by apply Hcp.
  - reflexivity.
  - unfold history_ok, MusicEngine.HISTORY_MAXLEN. simpl. lia.
  - reflexivity.
  - exact H.
Defined.

(** ** The queue *)

Lemma next_takes_head (E : env) (s : state) (head : song) (rest : list song) :
  queue s = head :: rest ->
  MusicEngine.next E s
  = MusicEngine.play_file E (file_location head) (set_queue rest s).
Proof. intros Hq. unfold MusicEngine.next. by rewrite Hq. Qed.

Lemma next_pops_queue (E : env) (s : state) (head : song) (rest : list song) :
  queue s = head :: rest -> queue (snd (MusicEngine.next E s)) = rest.
Proof.
  intros Hq. unfold MusicEngine.next. rewrite Hq.
  by destruct (play_file_frame E (file_location head) (set_queue rest s)) as (-> & _).
Qed.

Lemma nexts_drain (E : env) (q rest : list song) (s : state) :
  queue s = q ++ rest -> queue (nexts E (length q) s) = rest.
Proof.
  revert s. induction q as [|a q IH]; intros s Hq; [done|].
  unfold nexts. simpl length. rewrite Nat.iter_succ_r.
  apply IH. by eapply next_pops_queue.
Qed.

(** X4: the queue is first in, first out. A song that [add_to_queue] finds
    goes to the end of the queue; after as many calls of [next] as there were
    songs before it, it is the only one left, and the following [next] plays
    it and leaves the queue empty. A song that the search does not find is
    answered with an error and leaves the queue as it is. *)
Theorem queue_is_fifo (E : env) (s : state) (song_name : string) :
  (MusicEngine._search_song E song_name = None ->
   MusicEngine.add_to_queue E song_name s
   = (RError ("Song not found: " +:+ song_name), s))
  ∧ (∀ x, MusicEngine._search_song E song_name = Some x ->
       let added := snd (MusicEngine.add_to_queue E song_name s) in
       let n := length (queue s) in
       fst (MusicEngine.add_to_queue E song_name s) = RQueued "added_to_queue" x
       ∧ queue added = queue s ++ [x]
       ∧ queue (nexts E n added) = [x]
       ∧ queue (nexts E (S n) added) = []
       ∧ (path_exists E (file_location x) = true ->
          now_playing (file_location x) (nexts E (S n) added))).
Proof.
  split.
  - intros Hnone. unfold MusicEngine.add_to_queue. by rewrite Hnone.
  - intros x Hx added n.
    assert (Hadd : MusicEngine.add_to_queue E song_name s
                   = (RQueued "added_to_queue" x, set_queue (queue s ++ [x]) s))
      by (unfold MusicEngine.add_to_queue; by rewrite Hx).
    assert (Hq : queue added = queue s ++ [x]) by (subst added; by rewrite Hadd).
    assert (Hdrain : queue (nexts E n added) = [x]) by (by apply nexts_drain).
    rewrite Hadd. repeat apply conj; try done.
    + unfold nexts in *. rewrite Nat.iter_succ. by eapply next_pops_queue.
    + intros Hex. unfold nexts in *. rewrite Nat.iter_succ.
      rewrite (next_takes_head E _ x [] Hdrain). by apply play_file_plays.
Qed.

Lemma queue_is_fifo_witness :
  now_playing "/music/b.mp3"
    (nexts Sample.world_search 2
       (snd (MusicEngine.add_to_queue Sample.world_search "b" Sample.queued))).
Proof.
  destruct (proj2 (queue_is_fifo Sample.world_search Sample.queued "b")
              Sample.song_b eq_refl) as (_ & _ & _ & _ & H).
  exact (H eq_refl).
Defined.

(** X5: remove_from_queue(i) with i outside [0, len) answers 'Invalid queue
    index' and changes nothing; with i inside it hands back the song at i and
    takes exactly that entry out: the songs before it stay where they are,
    the songs after it move up by one, and nothing but the queue changes. *)
Theorem remove_from_queue_spec (s : state) (index : Z) :
  (¬ (0 <= index < Z.of_nat (length (queue s))) ->
   MusicEngine.remove_from_queue index s = (RError "Invalid queue index", s))
  ∧ (0 <= index < Z.of_nat (length (queue s)) ->
     ∃ removed,
       queue s !! Z.to_nat index = Some removed
       ∧ MusicEngine.remove_from_queue index s
         = (RQueued "removed_from_queue" removed,
            set_queue (delete (Z.to_nat index) (queue s)) s)
       ∧ length (delete (Z.to_nat index) (queue s)) = (length (queue s) - 1)%nat
       ∧ (∀ k, (k < Z.to_nat index)%nat ->
               delete (Z.to_nat index) (queue s) !! k = queue s !! k)
       ∧ (∀ k, (Z.to_nat index <= k)%nat ->
               delete (Z.to_nat index) (queue s) !! k = queue s !! S k)).
Proof.
  split.
  - intros Hout. unfold MusicEngine.remove_from_queue.
    by rewrite bool_decide_eq_false_2 by done.
  - intros Hin. destruct (lookup_in_range (queue s) index Hin) as [removed Hrem].
    exists removed. unfold MusicEngine.remove_from_queue.
    rewrite bool_decide_eq_true_2 by done.
    rewrite (py_pop_in_range _ index removed) by done.
    repeat apply conj; try done.
    + rewrite length_delete by eauto. done.
    + intros k Hk. by apply list_lookup_delete_lt.
    + intros k Hk. by apply list_lookup_delete_ge.
Qed.

Lemma remove_from_queue_spec_witness :
  MusicEngine.remove_from_queue 0 Sample.queued
  = (RQueued "removed_from_queue" Sample.song_c, set_queue [] Sample.queued).
Proof.
  destruct (proj2 (remove_from_queue_spec Sample.queued 0)) as (x & Hx & H & _).
  - simpl. lia.
  - simpl in Hx. injection Hx as <-. exact H.
Defined.

(** ** Repeat modes *)

(** X6: with repeat 'one' the end-of-track handler plays the current song
    again, its file being there, and leaves the queue and the playlist index
    alone, whatever is queued; [next], called in the same state, does not look
    at the repeat mode and takes the queue head. *)
Theorem handler_repeat_one_replays (E : env) (s : state) (cur : song) :
  repeat s = One ->
  current_song s = Some cur ->
  path_exists E (file_location cur) = true ->
  let s' := snd (MusicEngine._handle_song_end E s) in
  fst (MusicEngine._handle_song_end E s) = RNone
  ∧ now_playing (file_location cur) s'
  ∧ queue s' = queue s
  ∧ current_playlist s' = current_playlist s
  ∧ playlist_index s' = playlist_index s
  ∧ (∀ head rest, queue s = head :: rest ->
       queue (snd (MusicEngine.next E s)) = rest).
Proof.
  intros Hrep Hcur Hex s'. subst s'. unfold MusicEngine._handle_song_end.
  rewrite Hrep, Hcur. rewrite bool_decide_eq_true_2 by done.
  rewrite dropped_snd. unfold MusicEngine.dropped.
  destruct (play_file_plays E (file_location cur) s Hex) as [(x & Hres & _) Hplay].
  rewrite Hres. cbn [fst].
  destruct (play_file_frame E (file_location cur) s) as (Hq & _ & Hcp & _ & Hidx & _).
  repeat apply conj; try done; try apply Hplay.
  intros head rest Hqs. by eapply next_pops_queue.
Qed.

Lemma handler_repeat_one_replays_witness :
  now_playing "/music/a.mp3"
    (snd (MusicEngine._handle_song_end Sample.world Sample.queued_repeat_one))
  ∧ queue (snd (MusicEngine._handle_song_end Sample.world Sample.queued_repeat_one))
    = [Sample.song_c].
Proof.
  destruct (handler_repeat_one_replays Sample.world Sample.queued_repeat_one
              Sample.song_a eq_refl eq_refl eq_refl) as (_ & Hplay & Hq & _).
  split; [exact Hplay | exact Hq].
Defined.

(** X7: with repeat 'all', an empty queue and the bound playlist at its last
    position (or beyond), [next] wraps around: the index is 0 and the first
    song of the playlist, its file being there, is playing; the end-of-track
    handler leads to the same state. *)
Theorem next_wraps_with_repeat_all (E : env) (s : state) (first : song)
    (others : list song) :
  queue s = [] ->
  current_playlist s = first :: others ->
  Z.of_nat (length (current_playlist s)) <= playlist_index s + 1 ->
  repeat s = All ->
  path_exists E (file_location first) = true ->
  let s' := snd (MusicEngine.next E s) in
  fst (MusicEngine.next E s) = RPlayingSong (snapshot E (file_location first))
  ∧ playlist_index s' = 0
  ∧ now_playing (file_location first) s'
  ∧ current_playlist s' = current_playlist s
  ∧ snd (MusicEngine._handle_song_end E s) = s'.
Proof.
  intros Hq Hcp Hend Hrep Hex s'.
  assert (Hnext : MusicEngine.next E s
                  = MusicEngine.play_file E (file_location first)
                      (set_playlist_index 0 (set_playlist_index (playlist_index s + 1) s))).
  { rewrite next_bound_playlist by (done || by rewrite Hcp). cbv zeta.
    rewrite bool_decide_eq_true_2 by done. rewrite bool_decide_eq_true_2 by done.
    unfold MusicEngine.play_index. cbn [current_playlist set_playlist_index].
    by rewrite Hcp. }
  assert (Hhandler : MusicEngine._handle_song_end E s
                     = MusicEngine.dropped (MusicEngine.next E s)).
  { unfold MusicEngine._handle_song_end, MusicEngine.next.
    rewrite Hrep, Hq, Hcp. rewrite bool_decide_eq_false_2 by done.
    cbn [current_playlist set_playlist_index playlist_index repeat].
    rewrite !(bool_decide_eq_true_2 _ Hend).
    by rewrite !(bool_decide_eq_true_2 _ Hrep). }
  subst s'. rewrite Hhandler, dropped_snd, Hnext.
  destruct (play_file_plays E (file_location first)
              (set_playlist_index 0 (set_playlist_index (playlist_index s + 1) s)) Hex)
    as [_ Hplay].
  destruct (play_file_frame E (file_location first)
              (set_playlist_index 0 (set_playlist_index (playlist_index s + 1) s)))
    as (_ & _ & Hcp' & _ & Hidx & _).
  repeat apply conj; try done; try apply Hplay.
  by rewrite play_file_exists by done.
Qed.

Lemma next_wraps_with_repeat_all_witness :
  now_playing "/music/a.mp3"
    (snd (MusicEngine.next Sample.world Sample.at_last_repeat_all))
  ∧ playlist_index (snd (MusicEngine.next Sample.world Sample.at_last_repeat_all)) = 0.
Proof.
  destruct (next_wraps_with_repeat_all Sample.world Sample.at_last_repeat_all
              Sample.song_a [Sample.song_b; Sample.song_c])
    as (_ & Hidx & Hplay & _).
  - reflexivity.
  - reflexivity.
  - simpl. lia.
  - reflexivity.
  - reflexivity.
  - split; [exact Hplay | exact Hidx].
Defined.

(** ** Shuffle and playing a playlist *)

(** X8: set_shuffle never touches what was already played. Turning shuffle
    on with a playlist bound permutes the bound copy only behind the current
    index: the entries up to and including the current one stay where they are,
    the whole copy keeps its songs, and the stored playlists, the index, the
    current song and the queue are unchanged; turning it off only clears the
    flag. *)
Theorem set_shuffle_keeps_played_prefix (E : env) (enabled : bool) (s : state) :
  shuffle_permutes E ->
  0 <= playlist_index s ->
  let s' := snd (MusicEngine.set_shuffle E enabled s) in
  fst (MusicEngine.set_shuffle E enabled s) = RShuffle enabled
  ∧ shuffle s' = enabled
  ∧ current_playlist s' ≡ₚ current_playlist s
  ∧ take (Z.to_nat (playlist_index s + 1)) (current_playlist s')
    = take (Z.to_nat (playlist_index s + 1)) (current_playlist s)
  ∧ current_playlist s' !! Z.to_nat (playlist_index s)
    = current_playlist s !! Z.to_nat (playlist_index s)
  ∧ playlists s' = playlists s
  ∧ playlist_index s' = playlist_index s
  ∧ current_playlist_name s' = current_playlist_name s
  ∧ current_song s' = current_song s
  ∧ queue s' = queue s
  ∧ (enabled = false -> s' = set_shuffle_field false s).
Proof.
  intros Hperm Hidx s'. subst s'. unfold MusicEngine.set_shuffle. cbn [fst snd].
  destruct enabled; cbn [andb];
    [|cbn [current_playlist set_shuffle_field shuffle]; repeat apply conj; done].
  cbn [current_playlist set_shuffle_field playlist_index].
  case_bool_decide as Hcp;
    [|cbn [current_playlist set_shuffle_field shuffle]; repeat apply conj; done].
  set (cp := current_playlist s) in *.
  set (k := py_slice_bound cp (playlist_index s + 1)).
  assert (Hk : k = Z.to_nat (Z.min (playlist_index s + 1) (Z.of_nat (length cp)))).
  { unfold k, py_slice_bound. by rewrite bool_decide_eq_true_2 by lia. }
  assert (Htake : take (Z.to_nat (playlist_index s + 1))
                    (py_slice_to cp (playlist_index s + 1)
                       ++ shuffled E (py_slice_from cp (playlist_index s + 1)))
                  = take (Z.to_nat (playlist_index s + 1)) cp).
  { unfold py_slice_to, py_slice_from. fold k.
    destruct (decide (playlist_index s + 1 <= Z.of_nat (length cp))) as [Hle | Hgt].
    - replace k with (Z.to_nat (playlist_index s + 1)) by lia.
      rewrite take_app_le by (rewrite length_take; lia).
      rewrite take_take. f_equal. lia.
    - assert (Hall : k = length cp) by lia. rewrite Hall.
      rewrite drop_all, firstn_all.
      pose proof (Hperm []) as Hnil. apply Permutation_nil_r in Hnil.
      by rewrite Hnil, app_nil_r. }
  cbn [current_playlist set_current_playlist set_shuffle_field shuffle playlists
       playlist_index current_playlist_name current_song queue].
  repeat apply conj; try done.
  - unfold py_slice_to, py_slice_from. rewrite (Hperm _). by rewrite take_drop.
  - apply (f_equal (fun l => l !! Z.to_nat (playlist_index s))) in Htake.
    by rewrite !lookup_take_lt in Htake by lia.
Qed.

Lemma set_shuffle_keeps_played_prefix_witness :
  current_playlist (snd (MusicEngine.set_shuffle Sample.world true Sample.queued))
    !! 0%nat = Some Sample.song_a.
Proof.
  destruct (set_shuffle_keeps_played_prefix Sample.world true Sample.queued)
    as (_ & _ & _ & _ & H & _).
  - intros l. reflexivity.
  - simpl. lia.
  - exact H.
Defined.

(** X9: play_playlist. An unknown name is answered with not-found and an
    empty playlist with is-empty, nothing changed. Otherwise a copy of the
    stored list is bound under the name with index 0 (the list as shuffle
    returns it, a permutation of the stored one, when shuffle is on), the
    stored playlists and the queue stay as they are, and, shuffle on or off,
    the first entry of the bound copy is played when its file is there; when
    it is not, the answer is file-not-found, nothing is played and the
    playlist is bound all the same. *)
Theorem play_playlist_spec (E : env) (s : state) (name : string) :
  (playlists s !! name = None ->
   MusicEngine.play_playlist E name s = (MusicEngine.not_found name, s))
  ∧ (playlists s !! name = Some [] ->
     MusicEngine.play_playlist E name s
     = (RError ("Playlist " +:+ MusicEngine.quoted name +:+ " is empty"), s))
  ∧ (∀ x rest,
       playlists s !! name = Some (x :: rest) ->
       let s' := snd (MusicEngine.play_playlist E name s) in
       current_playlist_name s' = Some name
       ∧ playlist_index s' = 0
       ∧ playlists s' = playlists s
       ∧ queue s' = queue s
       ∧ (shuffle s = false ->
          current_playlist s' = x :: rest
          ∧ (path_exists E (file_location x) = true ->
             now_playing (file_location x) s')
          ∧ (path_exists E (file_location x) = false ->
             fst (MusicEngine.play_playlist E name s)
             = RError ("File not found: " +:+ file_location x)
             ∧ current_song s' = current_song s))
       ∧ (shuffle s = true -> current_playlist s' = shuffled E (x :: rest))
       ∧ (shuffle s = true -> shuffle_permutes E ->
          current_playlist s' ≡ₚ x :: rest)
       ∧ (shuffle s = false ∨ shuffle_permutes E ->
          ∃ first,
            current_playlist s' !! 0%nat = Some first
            ∧ first ∈ x :: rest
            ∧ (path_exists E (file_location first) = true ->
               fst (MusicEngine.play_playlist E name s)
               = RPlayingSong (snapshot E (file_location first))
               ∧ now_playing (file_location first) s')
            ∧ (path_exists E (file_location first) = false ->
               fst (MusicEngine.play_playlist E name s)
               = RError ("File not found: " +:+ file_location first)
               ∧ current_song s' = current_song s
               ∧ is_playing s' = is_playing s
               ∧ player s' = player s))).
Proof.
  repeat apply conj.
  - intros H. unfold MusicEngine.play_playlist. by rewrite H.
  - intros H. unfold MusicEngine.play_playlist. by rewrite H.
  - intros x rest H s'. subst s'. unfold MusicEngine.play_playlist. rewrite H.
    match goal with
    | |- context [MusicEngine.play_index E 0 ?s1] =>
        set (bound := s1);
        destruct (play_index_frame E 0 bound) as (Hq & Hcp & Hidx);
        pose proof (play_index_same_binding E 0 bound) as (Hpls & _ & Hname)
    end.
    rewrite Hq, Hcp, Hidx, Hpls, Hname.
    assert (Hbound : current_playlist_name bound = Some name
                     ∧ playlist_index bound = 0
                     ∧ playlists bound = playlists s
                     ∧ queue bound = queue s
                     ∧ current_song bound = current_song s
                     ∧ is_playing bound = is_playing s
                     ∧ player bound = player s
                     ∧ current_playlist bound
                       = (if shuffle s then shuffled E (x :: rest) else x :: rest)).
    { subst bound. cbn [shuffle set_playlist_index set_current_playlist_name
                        set_current_playlist].
      destruct (shuffle s); done. }
    destruct Hbound as (Hbn & Hbi & Hbp & Hbq & Hbc & Hbplay & Hbdev & Hbcp).
    rewrite Hbn, Hbi, Hbp, Hbq, Hbcp.
    assert (Hhead : ∀ first tail,
              current_playlist bound = first :: tail ->
              MusicEngine.play_index E 0 bound
              = MusicEngine.play_file E (file_location first) bound).
    { intros first tail Hl. unfold MusicEngine.play_index. by rewrite Hl. }
    repeat apply conj; try done.
    + intros Hsh. rewrite Hsh. split; [done|].
      rewrite (Hhead x rest) by (by rewrite Hbcp, Hsh). split.
      * intros Hex. by apply play_file_plays.
      * intros Hex. rewrite play_file_missing by done. by rewrite <- Hbc.
    + intros Hsh. by rewrite Hsh.
    + intros Hsh Hperm. rewrite Hsh. apply Hperm.
    + intros Hmode.
      assert (Hperm : (if shuffle s then shuffled E (x :: rest) else x :: rest)
                      ≡ₚ x :: rest).
      { destruct (shuffle s); [|done]. destruct Hmode as [? | Hperm]; [done|].
        apply Hperm. }
      rewrite <- Hbcp in Hperm |- *.
      destruct (current_playlist bound) as [|first tail] eqn:Hl.
      { by apply Permutation_nil_cons in Hperm. }
      exists first. rewrite (Hhead first tail eq_refl).
      repeat apply conj.
      * done.
      * rewrite <- Hperm. left.
      * intros Hex. rewrite play_file_exists by done. split; [done|].
        pose proof (play_file_plays E (file_location first) bound Hex) as [_ Hnow].
        by rewrite play_file_exists in Hnow by done.
      * intros Hex. rewrite play_file_missing by done. cbn [fst snd].
        by rewrite Hbc, Hbplay, Hbdev.
Qed.

Lemma sample_reverse_permutes : shuffle_permutes Sample.world_reversing.
Proof. intros l. apply reverse_Permutation. Qed.

(** With shuffle on and a shuffle that turns the list around, it is the last
    song of the stored list that is played. *)
Lemma play_playlist_spec_witness :
  let s' := snd (MusicEngine.play_playlist Sample.world_reversing "P"
                   Sample.shuffling) in
  current_playlist s' = [Sample.song_c; Sample.song_b; Sample.song_a]
  ∧ now_playing "/music/c.mp3" s'.
Proof.
  intros s'.
  destruct (play_playlist_spec Sample.world_reversing Sample.shuffling "P")
    as (_ & _ & H).
  destruct (H Sample.song_a [Sample.song_b; Sample.song_c] eq_refl)
    as (_ & _ & _ & _ & _ & Hcopy & _ & Hplays).
  destruct (Hplays (or_intror sample_reverse_permutes))
    as (first & Hfirst & _ & Hplay & _).
  fold s' in Hcopy, Hfirst, Hplay.
  split; [exact (Hcopy eq_refl)|].
  rewrite (Hcopy eq_refl) in Hfirst. injection Hfirst as <-.
  exact (proj2 (Hplay eq_refl)).
Defined.

(** X10: play_by_name. A name that is a path on the disk is played as a
    file. Otherwise the [music] table is asked: a failing query and a name
    without a match are answered with an error, nothing changed; a matching row
    whose file is there is played; and for a matching row whose file is gone the
    answer is file-not-found while the row has already replaced the current
    song, the player and the playing flag being as they were. *)
Theorem play_by_name_spec (E : env) (s : state) (name : string) :
  (path_exists E name = true ->
   MusicEngine.play_by_name E name s = MusicEngine.play_file E name s
   ∧ now_playing name (snd (MusicEngine.play_by_name E name s)))
  ∧ (path_exists E name = false ->
     (∀ e, find_by_name E name = inl e ->
        MusicEngine.play_by_name E name s = (RError ("Database error: " +:+ e), s))
     ∧ (find_by_name E name = inr None ->
        MusicEngine.play_by_name E name s = (RError ("Song not found: " +:+ name), s))
     ∧ (∀ r, find_by_name E name = inr (Some r) ->
          (path_exists E (m_file_location r) = true ->
           now_playing (m_file_location r) (snd (MusicEngine.play_by_name E name s)))
          ∧ (path_exists E (m_file_location r) = false ->
             MusicEngine.play_by_name E name s
             = (RError ("File not found: " +:+ m_file_location r),
                set_current_song
                  (Some (Song (m_file_location r) (m_name r) (m_name r)
                              (m_singer r) (m_duration r) None)) s)))).
Proof.
  split.
  - intros Hex. unfold MusicEngine.play_by_name. rewrite Hex.
    split; [done | by apply play_file_plays].
  - intros Hno. unfold MusicEngine.play_by_name. rewrite Hno.
    repeat apply conj.
    + intros e He. by rewrite He.
    + intros He. by rewrite He.
    + intros r Hr. rewrite Hr. split.
      * intros Hex. by apply play_file_plays.
      * intros Hex. by rewrite play_file_missing by done.
Qed.

Lemma play_by_name_spec_witness :
  now_playing "/music/c.mp3"
    (snd (MusicEngine.play_by_name Sample.world "/music/c.mp3" Sample.loaded)).
Proof.
  exact (proj2 (proj1 (play_by_name_spec Sample.world Sample.loaded "/music/c.mp3")
                  eq_refl)).
Defined.

(** ** What holds in every state the server reaches *)

Lemma play_file_volume_ok (E : env) (file_path : string) (s : state) :
  volume_ok s -> volume_ok (snd (MusicEngine.play_file E file_path s)).
Proof.
  intros [Hv Hm]. unfold MusicEngine.play_file, volume_ok.
  destruct (path_exists E file_path); simpl; [|done].
  destruct (is_muted s) eqn:Hmu; simpl; rewrite ?Hmu; split; done.
Qed.

Lemma play_index_volume_ok (E : env) (i : Z) (s : state) :
  volume_ok s -> volume_ok (snd (MusicEngine.play_index E i s)).
Proof.
  intros H. unfold MusicEngine.play_index. destruct (py_getitem _ _); [|done].
  by apply play_file_volume_ok.
Qed.

Lemma volume_ok_frame (s s' : state) :
  volume s' = volume s -> is_muted s' = is_muted s ->
  audio_volume (player s') = audio_volume (player s) ->
  volume_ok s -> volume_ok s'.
Proof. unfold volume_ok. intros -> -> ->. done. Qed.

Ltac volume_cases :=
  repeat first
    [ progress (rewrite ?dropped_snd)
    | apply play_file_volume_ok
    | apply play_index_volume_ok
    | assumption
    | case_match
    | progress simpl ].

Lemma step_volume_ok (E : env) (o : op) (s : state) :
  volume_ok s -> volume_ok (snd (step E o s)).
Proof.
  intros H. destruct o; simpl.
  - by apply play_file_volume_ok.
  - unfold MusicEngine.play_by_name. volume_cases.
  - unfold MusicEngine.pause. volume_cases.
    apply (volume_ok_frame s); try done. simpl. unfold Player.pause.
    by repeat case_match.
  - unfold MusicEngine.resume. volume_cases.
    apply (volume_ok_frame s); try done. simpl. unfold Player.play.
    by repeat case_match.
  - by apply (volume_ok_frame s).
  - unfold MusicEngine.next. volume_cases.
  - unfold MusicEngine.previous, MusicEngine.seek. volume_cases;
      by apply (volume_ok_frame s).
  - unfold MusicEngine._handle_song_end. volume_cases;
      by apply (volume_ok_frame s).
  - unfold MusicEngine.add_to_queue. volume_cases.
  - done.
  - unfold MusicEngine.remove_from_queue. volume_cases.
  - destruct H as [Hv Hm]. unfold MusicEngine.set_volume, volume_ok. simpl.
    destruct (is_muted s) eqn:Hmu; simpl; rewrite ?Hmu; split;
      first [lia | done | intros _; by apply Hm].
  - destruct H as [Hv Hm]. unfold MusicEngine.toggle_mute, volume_ok.
    destruct (is_muted s) eqn:Hmu; simpl; split; done.
  - unfold MusicEngine.seek. volume_cases; by apply (volume_ok_frame s).
  - unfold MusicEngine.set_repeat. volume_cases.
  - unfold MusicEngine.set_shuffle. volume_cases.
  - unfold MusicEngine.create_playlist, MusicEngine.transaction.
    volume_cases; simplify_eq; done.
  - unfold MusicEngine.delete_playlist, MusicEngine.transaction.
    volume_cases; simplify_eq; done.
  - unfold MusicEngine.add_to_playlist, MusicEngine.transaction.
    volume_cases; simplify_eq; done.
  - unfold MusicEngine.remove_from_playlist, MusicEngine.transaction.
    volume_cases; simplify_eq; done.
  - unfold MusicEngine.reorder_playlist, MusicEngine.transaction.
    volume_cases; simplify_eq; done.
  - unfold MusicEngine.play_playlist. volume_cases.
  - unfold MusicEngine.rename_playlist, MusicEngine.transaction.
    volume_cases; simplify_eq; done.
Qed.

(** X11: in every state the server can reach, whatever the outside world
    does, the stored volume lies between 0 and 100, and while the engine is
    muted the device is at 0: no call, not even one that starts a new song,
    lets sound through a muted engine. *)
Theorem reachable_volume_ok (s : state) :
  reachable s ->
  0 <= volume s <= 100
  ∧ (is_muted s = true -> audio_volume (player s) = 0).
Proof.
  induction 1 as [d loaded | E o s _ _ IH].
  - split; simpl; [lia | done].
  - by apply step_volume_ok.
Qed.

Lemma reachable_volume_ok_witness :
  0 <= volume (snd (step Sample.world (OpSetVolume 250) Sample.loaded)) <= 100.
Proof.
  exact (proj1 (reachable_volume_ok _
                  (reachable_step _ Sample.world (OpSetVolume 250) _ I
                     (reachable_start _ Sample.tables _)))).
Defined.

Lemma play_file_index (E : env) (file_path : string) (s : state) :
  playlist_index (snd (MusicEngine.play_file E file_path s)) = playlist_index s.
Proof.
  pose proof (play_file_frame E file_path s) as H. cbv zeta in H.
  by destruct H as (_ & _ & _ & _ & H & _).
Qed.

Lemma play_index_index (E : env) (i : Z) (s : state) :
  playlist_index (snd (MusicEngine.play_index E i s)) = playlist_index s.
Proof.
  pose proof (play_index_frame E i s) as H. cbv zeta in H.
  by destruct H as (_ & _ & H).
Qed.

Ltac index_cases :=
  repeat first
    [ progress (rewrite ?dropped_snd, ?play_file_index, ?play_index_index)
    | progress simpl
    | lia
    | match goal with
      | H : _ && _ = true |- _ => apply andb_prop in H; destruct H
      | H : negb _ = false |- _ => apply negb_false_iff in H
      | H : bool_decide _ = true |- _ => apply bool_decide_eq_true_1 in H
      | H : bool_decide _ = false |- _ => apply bool_decide_eq_false_1 in H
      end
    | case_match ].

Lemma step_index_nonneg (E : env) (o : op) (s : state) :
  0 <= playlist_index s -> 0 <= playlist_index (snd (step E o s)).
Proof.
  intros H. destruct o; simpl.
  - by rewrite play_file_index.
  - unfold MusicEngine.play_by_name. index_cases.
  - unfold MusicEngine.pause. index_cases.
  - unfold MusicEngine.resume. index_cases.
  - done.
  - unfold MusicEngine.next. index_cases.
  - unfold MusicEngine.previous, MusicEngine.seek. index_cases.

  - unfold MusicEngine._handle_song_end. index_cases.
  - unfold MusicEngine.add_to_queue. index_cases.
  - done.
  - unfold MusicEngine.remove_from_queue. index_cases.
  - unfold MusicEngine.set_volume. index_cases.
  - unfold MusicEngine.toggle_mute. index_cases.
  - unfold MusicEngine.seek. index_cases.
  - unfold MusicEngine.set_repeat. index_cases.
  - unfold MusicEngine.set_shuffle. index_cases.
  - unfold MusicEngine.create_playlist, MusicEngine.transaction.
    index_cases; simplify_eq; done.
  - unfold MusicEngine.delete_playlist, MusicEngine.transaction.
    index_cases; simplify_eq; simpl; lia.
  - unfold MusicEngine.add_to_playlist, MusicEngine.transaction.
    index_cases; simplify_eq; done.
  - unfold MusicEngine.remove_from_playlist, MusicEngine.transaction.
    index_cases; simplify_eq; simpl in *; lia.
  - unfold MusicEngine.reorder_playlist, MusicEngine.transaction.
    index_cases; simplify_eq; simpl in *; lia.
  - unfold MusicEngine.play_playlist. index_cases.
  - unfold MusicEngine.rename_playlist, MusicEngine.transaction.
    index_cases; simplify_eq; done.
Qed.

(** X12: in every state the server can reach the index into the bound
    playlist is never negative, whatever is removed, moved or stepped back. *)
Theorem reachable_index_nonneg (s : state) :
  reachable s -> 0 <= playlist_index s.
Proof.
  induction 1 as [d loaded | E o s _ _ IH].
  - simpl. lia.
  - by apply step_index_nonneg.
Qed.

Lemma reachable_index_nonneg_witness :
  0 <= playlist_index
         (snd (step Sample.world (OpRemoveFromPlaylist "P" 0)
                 (snd (step Sample.world (OpPlayPlaylist "P") Sample.loaded)))).
Proof.
  apply reachable_index_nonneg.
  apply (reachable_step _ Sample.world); [exact I|].
  apply (reachable_step _ Sample.world); [exact I|].
  apply (reachable_start _ Sample.tables).
Defined.

Lemma next_at_end_counts (E : env) (s : state) :
  queue s = [] -> current_playlist s ≠ [] -> repeat s ≠ All ->
  Z.of_nat (length (current_playlist s)) - 1 <= playlist_index s ->
  MusicEngine.next E s
  = (RStatus "end_of_playlist", set_playlist_index (playlist_index s + 1) s).
Proof.
  intros Hq Hcp Hrep Hidx. unfold MusicEngine.next. rewrite Hq.
  destruct (current_playlist s) as [|x cp] eqn:Hcur; [done|].
  cbn [current_playlist set_playlist_index playlist_index repeat].
  rewrite Hcur in *.
  case_bool_decide as Hend; [|lia].
  by rewrite bool_decide_eq_false_2 by done.
Qed.

Lemma nexts_at_end_count (E : env) (n : nat) (s : state) :
  queue s = [] -> current_playlist s ≠ [] -> repeat s ≠ All ->
  Z.of_nat (length (current_playlist s)) - 1 <= playlist_index s ->
  nexts E n s = set_playlist_index (playlist_index s + Z.of_nat n) s.
Proof.
  intros Hq Hcp Hrep Hidx. induction n as [|n IH].
  - unfold nexts. simpl. rewrite Z.add_0_r. by destruct s.
  - unfold nexts in *. rewrite Nat.iter_succ, IH.
    rewrite next_at_end_counts; cbn [queue current_playlist repeat playlist_index
                                      set_playlist_index]; try done; [|lia].
    cbn. f_equal. lia.
Qed.

(** X13: next has no upper bound on the index. At the last song of a bound
    playlist, with an empty queue and repeat not 'all', every further next
    answers end_of_playlist and moves the index one more step past the end;
    after two or more of them previous, which only steps the index back by one,
    indexes the bound list out of range and raises IndexError. *)
Theorem next_overruns_then_previous_raises (E : env) (s : state) (n : nat) :
  queue s = [] -> current_playlist s ≠ [] -> repeat s ≠ All ->
  playlist_index s = Z.of_nat (length (current_playlist s)) - 1 ->
  (2 <= n)%nat ->
  (∀ k, fst (MusicEngine.next E (nexts E k s)) = RStatus "end_of_playlist")
  ∧ playlist_index (nexts E n s)
    = Z.of_nat (length (current_playlist s)) - 1 + Z.of_nat n
  ∧ MusicEngine.previous E (nexts E n s)
    = (RRaised "IndexError",
       set_playlist_index (playlist_index s + Z.of_nat n - 1) s).
Proof.
  intros Hq Hcp Hrep Hidx Hn. repeat apply conj.
  - intros k. rewrite nexts_at_end_count by (done || lia).
    rewrite next_at_end_counts;
      cbn [queue current_playlist repeat playlist_index set_playlist_index];
      try done; lia.
  - rewrite nexts_at_end_count by (done || lia). cbn [playlist_index set_playlist_index].
    lia.
  - rewrite nexts_at_end_count by (done || lia).
    unfold MusicEngine.previous.
    cbn [current_playlist playlist_index set_playlist_index].
    rewrite (bool_decide_eq_true_2 _ Hcp).
    rewrite bool_decide_eq_true_2 by lia. cbn [andb].
    unfold MusicEngine.play_index. cbn [current_playlist set_playlist_index].
    unfold py_getitem.
    repeat case_bool_decide; try lia.
    by rewrite lookup_ge_None_2 by lia.
Qed.

Lemma next_overruns_then_previous_raises_witness :
  fst (MusicEngine.previous Sample.world (nexts Sample.world 2 Sample.at_last))
  = RRaised "IndexError".
Proof.
  assert (H : MusicEngine.previous Sample.world (nexts Sample.world 2 Sample.at_last)
              = (RRaised "IndexError",
                 set_playlist_index (playlist_index Sample.at_last + Z.of_nat 2 - 1)
                   Sample.at_last)).
  { apply (next_overruns_then_previous_raises Sample.world Sample.at_last 2);
      simpl; (done || lia). }
  rewrite H. reflexivity.
Defined.

Lemma library_extends_same (s s' : state) :
  playlists s' = playlists s -> library_extends s s'.
Proof. intros Hp l Hl. exists []. by rewrite Hp, app_nil_r. Qed.

Lemma play_file_playlists (E : env) (file_path : string) (s : state) :
  playlists (snd (MusicEngine.play_file E file_path s)) = playlists s.
Proof. by destruct (play_file_same_binding E file_path s) as (H & _). Qed.

Lemma play_index_playlists (E : env) (i : Z) (s : state) :
  playlists (snd (MusicEngine.play_index E i s)) = playlists s.
Proof. by destruct (play_index_same_binding E i s) as (H & _). Qed.

Ltac playlists_cases :=
  repeat first
    [ progress (rewrite ?dropped_snd, ?play_file_playlists, ?play_index_playlists)
    | progress simpl
    | reflexivity
    | case_match ].

Lemma step_library_extends (E : env) (o : op) (s : state) :
  library_extends s (snd (step E o s)).
Proof.
  destruct o; simpl.
  - apply library_extends_same, play_file_playlists.
  - apply library_extends_same. unfold MusicEngine.play_by_name. playlists_cases.
  - apply library_extends_same. unfold MusicEngine.pause. playlists_cases.
  - apply library_extends_same. unfold MusicEngine.resume. playlists_cases.
  - by apply library_extends_same.
  - apply library_extends_same. unfold MusicEngine.next. playlists_cases.
  - apply library_extends_same.
    unfold MusicEngine.previous, MusicEngine.seek. playlists_cases.
  - apply library_extends_same. unfold MusicEngine._handle_song_end. playlists_cases.
  - apply library_extends_same. unfold MusicEngine.add_to_queue. playlists_cases.
  - by apply library_extends_same.
  - apply library_extends_same. unfold MusicEngine.remove_from_queue. playlists_cases.
  - apply library_extends_same. unfold MusicEngine.set_volume. playlists_cases.
  - apply library_extends_same. unfold MusicEngine.toggle_mute. playlists_cases.
  - apply library_extends_same. unfold MusicEngine.seek. playlists_cases.
  - apply library_extends_same. unfold MusicEngine.set_repeat. playlists_cases.
  - apply library_extends_same. unfold MusicEngine.set_shuffle. playlists_cases.
  - (* create_playlist *)
    unfold MusicEngine.create_playlist.
    case_bool_decide as Hin; [by apply library_extends_same|].
    match goal with
    | |- context [MusicEngine.transaction E ?tx s] =>
        destruct (transaction_cases E tx s) as [[e ->] | (a & d & ->)]
    end; [by apply library_extends_same|].
    intros l Hl. exists []. simpl. rewrite app_nil_r.
    rewrite lookup_insert_ne; [done|]. intros ->. apply Hin. by eexists.
  - (* delete_playlist *)
    unfold MusicEngine.delete_playlist.
    case_bool_decide as Hlib; [by apply library_extends_same|].
    case_bool_decide as Hnone; [by apply library_extends_same|].
    match goal with
    | |- context [MusicEngine.transaction E ?tx s] =>
        destruct (transaction_cases E tx s) as [[e ->] | (a & d & ->)]
    end; [by apply library_extends_same|].
    intros l Hl. exists []. rewrite app_nil_r.
    cbn [set_playlists set_db playlists current_playlist_name].
    case_bool_decide; simpl; by rewrite lookup_delete_ne.
  - (* add_to_playlist *)
    unfold MusicEngine.add_to_playlist.
    destruct (playlists s !! playlist_name) as [playlist|] eqn:Hpl;
      [|by apply library_extends_same].
    match goal with
    | |- context [match ?found with Some _ => _ | None => (RError _, s) end] =>
        destruct found as [song_data|] eqn:Hfound
    end; [|by apply library_extends_same].
    match goal with
    | |- context [MusicEngine.transaction E ?tx s] =>
        destruct (transaction_cases E tx s) as [[e ->] | (a & d & ->)]
    end; [by apply library_extends_same|].
    intros l Hl.
    cbn [set_playlists set_db playlists current_playlist_name].
    assert (Hgoal : ∃ added,
               <[playlist_name := playlist ++ [song_data]]> (playlists s) !! "Library"
               = Some (l ++ added)).
    { destruct (decide (playlist_name = "Library")) as [-> | Hne].
      - exists [song_data]. rewrite lookup_insert_eq. congruence.
      - exists []. rewrite lookup_insert_ne by done. by rewrite app_nil_r. }
    by case_bool_decide; simpl.
  - (* remove_from_playlist *)
    unfold MusicEngine.remove_from_playlist.
    destruct (playlists s !! playlist_name) as [playlist|] eqn:Hpl;
      [|by apply library_extends_same].
    case_bool_decide as Hlib; [by apply library_extends_same|].
    case_match; [by apply library_extends_same|].
    case_match; [|by apply library_extends_same].
    match goal with
    | |- context [MusicEngine.transaction E ?tx s] =>
        destruct (transaction_cases E tx s) as [[e ->] | (a & d & ->)]
    end; [by apply library_extends_same|].
    intros lib Hl. exists []. rewrite app_nil_r.
    cbn [set_playlists set_db playlists current_playlist_name current_playlist].
    repeat case_match; simpl; by rewrite lookup_insert_ne.
  - (* reorder_playlist *)
    unfold MusicEngine.reorder_playlist.
    destruct (playlists s !! playlist_name) as [playlist|] eqn:Hpl;
      [|by apply library_extends_same].
    case_bool_decide as Hlib; [by apply library_extends_same|].
    case_match; [by apply library_extends_same|].
    case_match; [|by apply library_extends_same].
    intros lib Hl. exists []. rewrite app_nil_r.
    match goal with
    | |- context [MusicEngine.transaction E ?tx ?s1] =>
        destruct (transaction_cases E tx s1) as [[e ->] | (a & d & ->)]
    end;
      cbn [set_playlists set_db playlists current_playlist_name current_playlist];
      repeat case_match; simpl; by rewrite lookup_insert_ne.
  - apply library_extends_same. unfold MusicEngine.play_playlist. playlists_cases.
  - (* rename_playlist *)
    unfold MusicEngine.rename_playlist.
    case_bool_decide as Hlib; [by apply library_extends_same|].
    destruct (playlists s !! old_name) as [playlist|] eqn:Hpl;
      [|by apply library_extends_same].
    case_bool_decide as Hin; [by apply library_extends_same|].
    destruct (transaction_cases E (Sql.rename_playlist new_name old_name) s)
      as [[e ->] | (a & d & ->)]; [by apply library_extends_same|].
    intros l Hl. exists []. rewrite app_nil_r.
    cbn [set_playlists set_db playlists current_playlist_name].
    assert (new_name ≠ "Library") by (intros ->; apply Hin; by eexists).
    case_bool_decide; simpl; by rewrite lookup_insert_ne, lookup_delete_ne.
Qed.

(** X14: the "Library" playlist is protected against everything but
    growth. Whatever the call and whatever the outside world does, a stored
    "Library" list is still stored afterwards and its old entries are still at
    the front in the same order: no call deletes, renames, reorders or
    shortens it, and the only call that changes it, add_to_playlist, appends
    one song. The same holds over any sequence of calls. *)
Theorem library_only_grows (ops : list (env * op)) (s : state) (l : list song) :
  playlists s !! "Library" = Some l ->
  ∃ added,
    playlists (foldl (fun st eo => snd (step eo.1 eo.2 st)) s ops) !! "Library"
    = Some (l ++ added).
Proof.
  revert s l. induction ops as [|[E o] ops IH]; intros s l Hl.
  - exists []. by rewrite app_nil_r.
  - simpl. destruct (step_library_extends E o s l Hl) as (a1 & H1).
    destruct (IH _ _ H1) as (a2 & H2). exists (a1 ++ a2). by rewrite app_assoc.
Qed.

Lemma library_only_grows_witness :
  ∃ added,
    playlists (foldl (fun st eo => snd (step eo.1 eo.2 st)) Sample.loaded
                 [(Sample.world, OpDeletePlaylist "Library");
                  (Sample.world, OpRenamePlaylist "Library" "Mine");
                  (Sample.world_search, OpAddToPlaylist "Library" "b")])
      !! "Library"
    = Some ([] ++ added).
Proof. apply library_only_grows. reflexivity. Defined.

(** ** Creating, extending, deleting and renaming playlists *)

Lemma find_app_miss {A} (f : A -> bool) (l1 l2 : list A) :
  List.find f l1 = None -> List.find f (l1 ++ l2) = List.find f l2.
Proof.
  induction l1 as [|x l1 IH]; [done|]. simpl. destruct (f x); [done | exact IH].
Qed.

Lemma find_app_hit {A} (f : A -> bool) (l1 l2 : list A) (x : A) :
  List.find f l1 = Some x -> List.find f (l1 ++ l2) = Some x.
Proof.
  induction l1 as [|y l1 IH]; [done|]. simpl. destruct (f y); [done | exact IH].
Qed.

Lemma find_name_none (name : string) (rows : list playlist_row) :
  name ∉ pl_name <$> rows ->
  List.find (fun r => bool_decide (pl_name r = name)) rows = None.
Proof.
  induction rows as [|r rows IH]; [done|]. rewrite fmap_cons, not_elem_of_cons.
  intros [Hne Hnot]. simpl. rewrite bool_decide_eq_false_2 by done. by apply IH.
Qed.

Lemma find_name_some (name : string) (rows : list playlist_row) (r : playlist_row) :
  List.find (fun r => bool_decide (pl_name r = name)) rows = Some r ->
  r ∈ rows ∧ pl_name r = name.
Proof.
  induction rows as [|r' rows IH]; [done|]. simpl. case_bool_decide as Hn.
  - intros [= ->]. split; [left | done].
  - intros H. destruct (IH H). split; [by right | done].
Qed.

Lemma max_playlist_id_ge (rows : list playlist_row) (r : playlist_row) :
  r ∈ rows -> pl_id r <= Sql.max_playlist_id rows.
Proof.
  induction 1 as [r rows | r r' rows _ IH]; simpl; lia.
Qed.

Lemma filter_nil_by {A} (P : A -> Prop) `{∀ x, Decision (P x)} (l : list A) :
  (∀ x, x ∈ l -> ¬ P x) -> filter P l = [].
Proof.
  induction l as [|x l IH]; [done|]. intros Hall.
  rewrite filter_cons_False by (apply Hall; left).
  apply IH. intros y Hy. apply Hall. by right.
Qed.

(** X15: create_playlist. A name the map already has is refused, nothing
    changed. A name the [playlists] table still has, though the map has not,
    fails on the UNIQUE constraint, nothing changed. Otherwise, storage
    working, the map gets the songs under the name, the table gets a row with
    an id above every id handed out before, the songs are stored under that id
    at the positions 0, 1, ..., every other playlist keeps its id and its rows,
    and nothing else of the engine changes. *)
Theorem create_playlist_spec (E : env) (s : state) (name : string)
    (songs : option (list song)) :
  (is_Some (playlists s !! name) ->
   MusicEngine.create_playlist E name songs s = (MusicEngine.already_exists name, s))
  ∧ (playlists s !! name = None -> storage_fault E = None ->
     name ∈ pl_name <$> tbl_playlists (db s) ->
     MusicEngine.create_playlist E name songs s
     = (RError "Failed to create playlist: UNIQUE constraint failed: playlists.name", s))
  ∧ (playlists s !! name = None -> storage_fault E = None ->
     name ∉ pl_name <$> tbl_playlists (db s) ->
     ids_known (db s) ->
     let s' := snd (MusicEngine.create_playlist E name songs s) in
     fst (MusicEngine.create_playlist E name songs s)
     = RCreated name (length (default [] songs))
     ∧ playlists s' = <[name := default [] songs]> (playlists s)
     ∧ s' = set_playlists (playlists s') (set_db (db s') s)
     ∧ ∃ pid,
         playlist_id_of name (db s') = Some pid
         ∧ (∀ r, r ∈ tbl_playlists (db s) -> pl_id r < pid)
         ∧ pl_seq (db s) < pid
         ∧ Sql.rows_of pid (db s') = rows_from pid 0 (default [] songs)
         ∧ stored_as pid (default [] songs) (db s')
         ∧ (∀ pid', pid' ≠ pid -> Sql.rows_of pid' (db s') = Sql.rows_of pid' (db s))
         ∧ (∀ other, other ≠ name ->
              playlist_id_of other (db s') = playlist_id_of other (db s))).
Proof.
  repeat apply conj.
  - intros Hin. unfold MusicEngine.create_playlist.
    by rewrite bool_decide_eq_true_2 by done.
  - intros Hnone Hup Hrow. unfold MusicEngine.create_playlist.
    rewrite bool_decide_eq_false_2 by (rewrite Hnone; by intros [? ?]).
    unfold MusicEngine.transaction. rewrite Hup.
    unfold Sql.bind, Sql.insert_playlist.
    by rewrite bool_decide_eq_true_2 by done.
  - intros Hnone Hup Hrow Hids s'. subst s'. unfold MusicEngine.create_playlist.
    rewrite bool_decide_eq_false_2 by (rewrite Hnone; by intros [? ?]).
    unfold MusicEngine.transaction. rewrite Hup.
    unfold Sql.bind, Sql.insert_playlist.
    rewrite bool_decide_eq_false_2 by done.
    rewrite insert_songs_from_appends.
    set (pid := Z.max (Sql.max_playlist_id (tbl_playlists (db s))) (pl_seq (db s)) + 1).
    cbn [fst snd set_playlists set_db playlists db tbl_playlists tbl_playlist_songs
         pl_seq].
    repeat apply conj; try done.
    exists pid.
    assert (Hold : filter (fun r => ps_playlist_id r = pid) (tbl_playlist_songs (db s))
                   = []).
    { apply filter_nil_by. intros r Hr. specialize (Hids r Hr). unfold pid. lia. }
    assert (Hrows : Sql.rows_of pid
                      (Database (tbl_playlists (db s) ++ [PlaylistRow pid name])
                         (tbl_playlist_songs (db s) ++ rows_from pid 0 (default [] songs))
                         pid)
                    = rows_from pid 0 (default [] songs)).
    { unfold Sql.rows_of. cbn [tbl_playlist_songs].
      by rewrite filter_app, Hold, rows_from_own. }
    repeat apply conj.
    + unfold playlist_id_of. cbn [tbl_playlists].
      rewrite find_app_miss by (by apply find_name_none).
      simpl. by rewrite bool_decide_eq_true_2 by done.
    + intros r Hr. pose proof (max_playlist_id_ge _ _ Hr). unfold pid. lia.
    + unfold pid. lia.
    + exact Hrows.
    + unfold stored_as. by rewrite Hrows.
    + intros pid' Hne. unfold Sql.rows_of. cbn [tbl_playlist_songs].
      rewrite filter_app, rows_from_other by done. by rewrite app_nil_r.
    + intros other Hne. unfold playlist_id_of. cbn [tbl_playlists].
      destruct (List.find (fun r => bool_decide (pl_name r = other))
                  (tbl_playlists (db s))) as [r|] eqn:Hfind.
      * by rewrite (find_app_hit _ _ _ _ Hfind).
      * rewrite find_app_miss by done. simpl.
        by rewrite bool_decide_eq_false_2 by done.
Qed.

Lemma sample_ids_known : ids_known Sample.tables.
Proof.
  intros r Hr. cbn in Hr. rewrite !elem_of_cons, elem_of_nil in Hr.
  destruct Hr as [-> | [-> | [-> | []]]]; cbn; lia.
Qed.

Lemma create_playlist_spec_witness :
  stored_as 2 [Sample.song_b]
    (db (snd (MusicEngine.create_playlist Sample.world "Q" (Some [Sample.song_b])
                Sample.loaded))).
Proof.
  destruct (proj2 (proj2 (create_playlist_spec Sample.world Sample.loaded "Q"
                            (Some [Sample.song_b]))))
    as (_ & _ & _ & pid & Hid & _ & _ & _ & Hst & _).
  - reflexivity.
  - reflexivity.
  - cbn. rewrite elem_of_cons, elem_of_nil. intros [? | []]. discriminate.
  - exact sample_ids_known.
  - vm_compute in Hid. injection Hid as <-. exact Hst.
Defined.

Lemma rows_from_app (pid k : Z) (l1 l2 : list song) :
  rows_from pid k (l1 ++ l2)
  = rows_from pid k l1 ++ rows_from pid (k + Z.of_nat (length l1)) l2.
Proof.
  revert k. induction l1 as [|x l1 IH]; intros k.
  - simpl. by rewrite Z.add_0_r.
  - cbn [app rows_from length]. rewrite IH. do 3 f_equal. lia.
Qed.

Lemma rows_of_insert (pid' pid k : Z) (x : song) (d : database) :
  Sql.rows_of pid'
    (Database (tbl_playlists d) (tbl_playlist_songs d ++ [PlaylistSongRow pid x k])
       (pl_seq d))
  = Sql.rows_of pid' d ++ (if decide (pid' = pid) then [PlaylistSongRow pid x k] else []).
Proof.
  unfold Sql.rows_of. cbn [tbl_playlist_songs]. rewrite filter_app. f_equal.
  destruct (decide (pid' = pid)) as [-> | Hne].
  - by rewrite (filter_cons_True _ _ []).
  - by rewrite (filter_cons_False _ _ []) by (simpl; congruence).
Qed.

(** X16: add_to_playlist. An unknown playlist and a song that neither the
    search nor the disk knows are answered with an error, nothing changed.
    Otherwise, storage working, the song goes to the end of the stored list
    (and of the bound copy when this playlist is bound), the index, the queue
    and the current song stay, and the song is stored at the position that was
    the length of the list, so that rows at the positions 0, 1, ... stay so;
    other playlists keep their rows. A playlist without a row in the
    [playlists] table, as "Library", grows in memory only. *)
Theorem add_to_playlist_spec (E : env) (s : state) (playlist_name song_name : string) :
  (playlists s !! playlist_name = None ->
   MusicEngine.add_to_playlist E playlist_name song_name s
   = (MusicEngine.not_found playlist_name, s))
  ∧ (∀ playlist, playlists s !! playlist_name = Some playlist ->
      (search_first E song_name = None -> path_exists E song_name = false ->
       MusicEngine.add_to_playlist E playlist_name song_name s
       = (RError ("Song not found: " +:+ song_name), s))
      ∧ (∀ song_data,
           search_first E song_name = Some song_data
           ∨ (search_first E song_name = None ∧ path_exists E song_name = true
              ∧ song_data = Song song_name (stem E song_name) (stem E song_name)
                              None None None) ->
           storage_fault E = None ->
           let s' := snd (MusicEngine.add_to_playlist E playlist_name song_name s) in
           fst (MusicEngine.add_to_playlist E playlist_name song_name s)
           = RPlaylistSong "song_added_to_playlist" playlist_name song_data
           ∧ playlists s' = <[playlist_name := playlist ++ [song_data]]> (playlists s)
           ∧ MusicEngine.get_playlist_songs playlist_name s'
             = inr (playlist_name, playlist ++ [song_data], S (length playlist))
           ∧ current_playlist s'
             = (if bool_decide (current_playlist_name s = Some playlist_name)
                then current_playlist s ++ [song_data] else current_playlist s)
           ∧ current_playlist_name s' = current_playlist_name s
           ∧ playlist_index s' = playlist_index s
           ∧ queue s' = queue s
           ∧ current_song s' = current_song s
           ∧ (∀ pid, playlist_id_of playlist_name (db s) = Some pid ->
                Sql.rows_of pid (db s')
                = Sql.rows_of pid (db s)
                    ++ [PlaylistSongRow pid song_data (Z.of_nat (length playlist))]
                ∧ (stored_as pid playlist (db s) ->
                   stored_as pid (playlist ++ [song_data]) (db s'))
                ∧ (∀ pid', pid' ≠ pid ->
                     Sql.rows_of pid' (db s') = Sql.rows_of pid' (db s)))
           ∧ (playlist_id_of playlist_name (db s) = None -> db s' = db s))).
Proof.
  split.
  - intros Hnone. unfold MusicEngine.add_to_playlist. by rewrite Hnone.
  - intros playlist Hpl. split.
    + intros Hsearch Hex. unfold MusicEngine.add_to_playlist, MusicEngine._search_song.
      by rewrite Hpl, Hsearch, Hex.
    + intros song_data Hfound Hup s'. subst s'.
      unfold MusicEngine.add_to_playlist, MusicEngine._search_song. rewrite Hpl.
      assert (Hf : match search_first E song_name with
                   | Some song_data => Some song_data
                   | None =>
                       if path_exists E song_name
                       then Some (Song song_name (stem E song_name) (stem E song_name)
                                       None None None)
                       else None
                   end = Some song_data).
      { destruct Hfound as [-> | (-> & -> & ->)]; done. }
      rewrite Hf. clear Hf Hfound.
      unfold MusicEngine.transaction. rewrite Hup.
      unfold Sql.bind, Sql.select_playlist_id, playlist_id_of.
      destruct (List.find (fun r => bool_decide (pl_name r = playlist_name))
                  (tbl_playlists (db s))) as [r|] eqn:Hfind;
        cbn [fmap option_fmap option_map Sql.insert_song Sql.ret];
        cbn [fst snd set_playlists set_db playlists db current_playlist_name].
      * case_bool_decide as Hb; simpl; rewrite ?bool_decide_eq_true_2 by done;
          rewrite ?bool_decide_eq_false_2 by done;
          (repeat apply conj; try done;
           [ unfold MusicEngine.get_playlist_songs; simpl; rewrite lookup_insert_eq;
             rewrite length_app; simpl; do 2 f_equal; lia
           | intros pid [= <-]; repeat apply conj;
             [ by rewrite rows_of_insert, decide_True
             | unfold stored_as; rewrite rows_of_insert, decide_True by done;
               intros ->; rewrite rows_from_app; simpl; by rewrite Z.add_0_l
             | intros pid' Hne;
               by rewrite rows_of_insert, decide_False, app_nil_r ] ]).
      * case_bool_decide as Hb; simpl; rewrite ?bool_decide_eq_true_2 by done;
          rewrite ?bool_decide_eq_false_2 by done;
          (repeat apply conj; try done; try (by destruct (db s));
           unfold MusicEngine.get_playlist_songs; simpl; rewrite lookup_insert_eq;
           rewrite length_app; simpl; do 2 f_equal; lia).
Qed.

Lemma add_to_playlist_spec_witness :
  stored_as 1 [Sample.song_a; Sample.song_b; Sample.song_c; Sample.song_b]
    (db (snd (MusicEngine.add_to_playlist Sample.world_search "P" "b" Sample.loaded))).
Proof.
  destruct (proj2 (add_to_playlist_spec Sample.world_search Sample.loaded "P" "b")
              [Sample.song_a; Sample.song_b; Sample.song_c] eq_refl) as (_ & H).
  destruct (H Sample.song_b (or_introl eq_refl) eq_refl)
    as (_ & _ & _ & _ & _ & _ & _ & _ & Hdb & _).
  destruct (Hdb 1 eq_refl) as (_ & Hst & _).
  apply Hst. unfold stored_as. reflexivity.
Defined.

Lemma find_name_filter_other (name other : string) (rows : list playlist_row) :
  other ≠ name ->
  List.find (fun r => bool_decide (pl_name r = other))
    (filter (fun r => pl_name r ≠ name) rows)
  = List.find (fun r => bool_decide (pl_name r = other)) rows.
Proof.
  intros Hne. induction rows as [|r rows IH]; [done|].
  destruct (decide (pl_name r = name)) as [Hr | Hr].
  - rewrite filter_cons_False by (intros H; by apply H). simpl.
    rewrite bool_decide_eq_false_2 by congruence. exact IH.
  - rewrite filter_cons_True by done. simpl. by rewrite IH.
Qed.

Lemma find_name_filter_gone (name : string) (rows : list playlist_row) :
  List.find (fun r => bool_decide (pl_name r = name))
    (filter (fun r => pl_name r ≠ name) rows) = None.
Proof.
  apply find_name_none. rewrite list_elem_of_fmap. intros (r & Hn & Hr).
  apply list_elem_of_filter in Hr as [Hr _]. by apply Hr.
Qed.

(** X17: delete_playlist. "Library" and unknown names are refused, nothing
    changed. Otherwise, storage working, the name leaves the map and the
    [playlists] table, every other playlist keeps its list and its id, and a
    binding to the deleted playlist is cleared (empty copy, no name, index 0)
    while the song that is playing goes on: player, current song and playing
    flag are untouched. The membership rows are deleted with it only when the
    connection enforces foreign keys; otherwise they all stay in the table. *)
Theorem delete_playlist_spec (E : env) (s : state) (name : string) :
  (name = "Library" ->
   MusicEngine.delete_playlist E name s = (RError "Cannot delete Library playlist", s))
  ∧ (name ≠ "Library" -> playlists s !! name = None ->
     MusicEngine.delete_playlist E name s = (MusicEngine.not_found name, s))
  ∧ (name ≠ "Library" -> is_Some (playlists s !! name) -> storage_fault E = None ->
     let s' := snd (MusicEngine.delete_playlist E name s) in
     fst (MusicEngine.delete_playlist E name s) = RPlaylist "playlist_deleted" name
     ∧ playlists s' = delete name (playlists s)
     ∧ playlist_id_of name (db s') = None
     ∧ (∀ other, other ≠ name ->
          playlists s' !! other = playlists s !! other
          ∧ playlist_id_of other (db s') = playlist_id_of other (db s))
     ∧ (current_playlist_name s = Some name ->
        current_playlist s' = [] ∧ current_playlist_name s' = None
        ∧ playlist_index s' = 0)
     ∧ (current_playlist_name s ≠ Some name ->
        current_playlist s' = current_playlist s
        ∧ current_playlist_name s' = current_playlist_name s
        ∧ playlist_index s' = playlist_index s)
     ∧ player s' = player s ∧ current_song s' = current_song s
     ∧ is_playing s' = is_playing s ∧ queue s' = queue s
     ∧ (foreign_keys E = false ->
        tbl_playlist_songs (db s') = tbl_playlist_songs (db s))
     ∧ (foreign_keys E = true ->
        ∀ pid, playlist_id_of name (db s) = Some pid -> Sql.rows_of pid (db s') = [])).
Proof.
  repeat apply conj.
  - intros ->. unfold MusicEngine.delete_playlist. by rewrite bool_decide_eq_true_2.
  - intros Hlib Hnone. unfold MusicEngine.delete_playlist.
    rewrite bool_decide_eq_false_2 by done. by rewrite bool_decide_eq_true_2.
  - intros Hlib Hin Hup s'. subst s'. unfold MusicEngine.delete_playlist.
    rewrite bool_decide_eq_false_2 by done.
    rewrite bool_decide_eq_false_2 by (intros Hn; rewrite Hn in Hin; by destruct Hin).
    unfold MusicEngine.transaction, Sql.delete_playlist. rewrite Hup.
    cbn [set_playlists set_db current_playlist_name playlists].
    case_bool_decide as Hb; simpl; (repeat apply conj; try done).
    all: try (unfold playlist_id_of; cbn [tbl_playlists]; by rewrite find_name_filter_gone).
    all: try (intros other Hne; split; [by rewrite lookup_delete_ne|];
              unfold playlist_id_of; cbn [tbl_playlists];
              by rewrite find_name_filter_other).
    all: try (intros ->; done).
    all: intros Hfk pid Hpid; rewrite Hfk; unfold Sql.rows_of; cbn [tbl_playlist_songs];
      apply filter_nil_by; intros r Hr Hrp;
      apply list_elem_of_filter in Hr as [Hr _]; apply Hr;
      unfold playlist_id_of in Hpid;
      destruct (List.find _ _) as [row|] eqn:Hfind; [|done];
      injection Hpid as Hpid; apply find_name_some in Hfind as [Hrow Hname];
      rewrite list_elem_of_fmap; exists row; split; [congruence|];
      by apply list_elem_of_filter.
Qed.

Lemma delete_playlist_spec_witness :
  let s' := snd (MusicEngine.delete_playlist Sample.world "P" Sample.queued) in
  current_playlist s' = [] ∧ current_song s' = Some Sample.song_a
  ∧ is_playing s' = true.
Proof.
  intros s'.
  destruct (proj2 (proj2 (delete_playlist_spec Sample.world Sample.queued "P")))
    as (_ & _ & _ & _ & Hb & _ & _ & Hc & Hp & _).
  - discriminate.
  - by eexists.
  - reflexivity.
  - destruct (Hb eq_refl) as (Hcp & _). exact (conj Hcp (conj Hc Hp)).
Defined.

Lemma rename_statement (new_name old_name : string) (d : database) :
  Sql.rename_playlist new_name old_name d
  = if bool_decide (NoDup (pl_name <$> renamed_rows new_name old_name (tbl_playlists d)))
    then Some (tt, Database (renamed_rows new_name old_name (tbl_playlists d))
                     (tbl_playlist_songs d) (pl_seq d))
    else None.
Proof. reflexivity. Qed.

Lemma renamed_names_fresh (new_name old_name : string) (rows : list playlist_row) :
  new_name ∉ pl_name <$> rows -> NoDup (pl_name <$> rows) ->
  NoDup (pl_name <$> renamed_rows new_name old_name rows).
Proof.
  unfold renamed_rows. induction rows as [|r rows IH]; [done|].
  rewrite !fmap_cons, not_elem_of_cons, NoDup_cons. intros [Hne Hnew] [Hr Hnd].
  apply NoDup_cons. split; [|by apply IH].
  rewrite list_elem_of_fmap. intros (r' & Heq & Hr').
  apply list_elem_of_fmap in Hr' as (r0 & -> & Hr0).
  assert (Hin0 : pl_name r0 ∈ pl_name <$> rows) by (by apply list_elem_of_fmap_2).
  repeat case_bool_decide; simpl in Heq; congruence.
Qed.

Lemma renamed_id_of_new (new_name old_name : string) (rows : list playlist_row) :
  new_name ∉ pl_name <$> rows ->
  pl_id <$> List.find (fun r => bool_decide (pl_name r = new_name))
              (renamed_rows new_name old_name rows)
  = pl_id <$> List.find (fun r => bool_decide (pl_name r = old_name)) rows.
Proof.
  unfold renamed_rows. induction rows as [|r rows IH]; [done|].
  rewrite !fmap_cons, not_elem_of_cons. intros [Hne Hnew]. simpl.
  destruct (decide (pl_name r = old_name)) as [Hold | Hold].
  - rewrite !(bool_decide_eq_true_2 _ Hold). simpl.
    by rewrite bool_decide_eq_true_2.
  - rewrite !(bool_decide_eq_false_2 _ Hold).
    rewrite bool_decide_eq_false_2 by congruence. by apply IH.
Qed.

Lemma renamed_id_of_other (new_name old_name other : string) (rows : list playlist_row) :
  other ≠ new_name -> other ≠ old_name ->
  pl_id <$> List.find (fun r => bool_decide (pl_name r = other))
              (renamed_rows new_name old_name rows)
  = pl_id <$> List.find (fun r => bool_decide (pl_name r = other)) rows.
Proof.
  intros Hn Ho. unfold renamed_rows. induction rows as [|r rows IH]; [done|].
  rewrite !fmap_cons. simpl.
  destruct (decide (pl_name r = old_name)) as [Hold | Hold].
  - rewrite !(bool_decide_eq_true_2 _ Hold). simpl.
    rewrite !bool_decide_eq_false_2 by congruence. by apply IH.
  - rewrite !(bool_decide_eq_false_2 _ Hold).
    case_bool_decide; [done | by apply IH].
Qed.

Lemma renamed_id_of_old (new_name old_name : string) (rows : list playlist_row) :
  old_name ≠ new_name ->
  List.find (fun r => bool_decide (pl_name r = old_name))
    (renamed_rows new_name old_name rows) = None.
Proof.
  intros Hne. apply find_name_none. unfold renamed_rows.
  rewrite list_elem_of_fmap. intros (r & Hn & Hr).
  apply list_elem_of_fmap in Hr as (r0 & -> & _).
  case_bool_decide; simpl in Hn; congruence.
Qed.

Lemma renamed_back (new_name old_name : string) (rows : list playlist_row) :
  new_name ∉ pl_name <$> rows ->
  renamed_rows old_name new_name (renamed_rows new_name old_name rows) = rows.
Proof.
  unfold renamed_rows. induction rows as [|r rows IH]; [done|].
  rewrite !fmap_cons, not_elem_of_cons. intros [Hne Hnew].
  rewrite IH by done. f_equal.
  destruct (decide (pl_name r = old_name)) as [Hold | Hold].
  - rewrite !(bool_decide_eq_true_2 _ Hold). simpl.
    rewrite bool_decide_eq_true_2 by done. destruct r; simpl in *; congruence.
  - rewrite !(bool_decide_eq_false_2 _ Hold).
    by rewrite bool_decide_eq_false_2 by congruence.
Qed.

(** X18: rename_playlist. "Library", an unknown old name and a new name
    that is taken are refused, nothing changed. Otherwise, storage working and
    the new name unused in the table, the list moves to the new name in the map,
    the table row keeps its id under the new name, so that the membership rows,
    which are untouched, follow it, and a binding to the old name follows as
    well. Renaming back then gives the very state one started from. *)
Theorem rename_playlist_spec (E : env) (s : state) (old_name new_name : string) :
  (old_name = "Library" ->
   MusicEngine.rename_playlist E old_name new_name s
   = (RError "Cannot rename Library playlist", s))
  ∧ (old_name ≠ "Library" -> playlists s !! old_name = None ->
     MusicEngine.rename_playlist E old_name new_name s
     = (MusicEngine.not_found old_name, s))
  ∧ (old_name ≠ "Library" -> is_Some (playlists s !! old_name) ->
     is_Some (playlists s !! new_name) ->
     MusicEngine.rename_playlist E old_name new_name s
     = (MusicEngine.already_exists new_name, s))
  ∧ (∀ playlist,
       old_name ≠ "Library" -> playlists s !! old_name = Some playlist ->
       playlists s !! new_name = None ->
       storage_fault E = None ->
       NoDup (pl_name <$> tbl_playlists (db s)) ->
       new_name ∉ pl_name <$> tbl_playlists (db s) ->
       let s' := snd (MusicEngine.rename_playlist E old_name new_name s) in
       fst (MusicEngine.rename_playlist E old_name new_name s)
       = RRenamed old_name new_name
       ∧ playlists s' !! new_name = Some playlist
       ∧ playlists s' !! old_name = None
       ∧ (∀ other, other ≠ old_name -> other ≠ new_name ->
            playlists s' !! other = playlists s !! other
            ∧ playlist_id_of other (db s') = playlist_id_of other (db s))
       ∧ playlist_id_of new_name (db s') = playlist_id_of old_name (db s)
       ∧ playlist_id_of old_name (db s') = None
       ∧ tbl_playlist_songs (db s') = tbl_playlist_songs (db s)
       ∧ current_playlist_name s'
         = (if bool_decide (current_playlist_name s = Some old_name)
            then Some new_name else current_playlist_name s)
       ∧ current_playlist s' = current_playlist s
       ∧ playlist_index s' = playlist_index s
       ∧ (current_playlist_name s ≠ Some new_name -> new_name ≠ "Library" ->
          MusicEngine.rename_playlist E new_name old_name s'
          = (RRenamed new_name old_name, s))).
Proof.
  repeat apply conj.
  - intros ->. unfold MusicEngine.rename_playlist. by rewrite bool_decide_eq_true_2.
  - intros Hlib Hnone. unfold MusicEngine.rename_playlist.
    rewrite bool_decide_eq_false_2 by done. by rewrite Hnone.
  - intros Hlib [playlist Hold] Hnew. unfold MusicEngine.rename_playlist.
    rewrite bool_decide_eq_false_2 by done. rewrite Hold.
    by rewrite bool_decide_eq_true_2.
  - intros playlist Hlib Hold Hnew Hup Hnd Hfresh s'.
    assert (Hne : old_name ≠ new_name) by congruence.
    assert (Hrun : MusicEngine.rename_playlist E old_name new_name s
                   = (RRenamed old_name new_name,
                      State (player s) (current_song s) (queue s)
                        (<[new_name := playlist]> (delete old_name (playlists s)))
                        (current_playlist s)
                        (if bool_decide (current_playlist_name s = Some old_name)
                         then Some new_name else current_playlist_name s)
                        (playlist_index s) (history s) (is_playing s) (volume s)
                        (is_muted s) (shuffle s) (repeat s)
                        (Database (renamed_rows new_name old_name (tbl_playlists (db s)))
                           (tbl_playlist_songs (db s)) (pl_seq (db s))))).
    { unfold MusicEngine.rename_playlist.
      rewrite bool_decide_eq_false_2 by done. rewrite Hold.
      rewrite bool_decide_eq_false_2 by (rewrite Hnew; by intros [? ?]).
      unfold MusicEngine.transaction. rewrite Hup, rename_statement.
      rewrite bool_decide_eq_true_2 by (by apply renamed_names_fresh).
      cbn [set_playlists set_db current_playlist_name playlists].
      by case_bool_decide. }
    subst s'. rewrite Hrun. cbn [fst snd playlists db current_playlist_name
                                 current_playlist playlist_index tbl_playlist_songs].
    repeat apply conj; try done.
    + by rewrite lookup_insert_eq.
    + rewrite lookup_insert_ne by done. by rewrite lookup_delete_eq.
    + intros other Ho Hn. split.
      * rewrite lookup_insert_ne by done. by rewrite lookup_delete_ne.
      * unfold playlist_id_of. cbn [tbl_playlists]. by apply renamed_id_of_other.
    + unfold playlist_id_of. cbn [tbl_playlists]. by apply renamed_id_of_new.
    + unfold playlist_id_of. cbn [tbl_playlists].
      by rewrite renamed_id_of_old.
    + intros Hbound Hlib'. unfold MusicEngine.rename_playlist.
      rewrite bool_decide_eq_false_2 by done.
      cbn [playlists]. rewrite lookup_insert_eq.
      rewrite lookup_insert_ne by done. rewrite lookup_delete_eq.
      rewrite bool_decide_eq_false_2 by (by intros [? ?]).
      unfold MusicEngine.transaction. rewrite Hup, rename_statement.
      cbn [db tbl_playlists tbl_playlist_songs pl_seq].
      rewrite renamed_back by done.
      rewrite bool_decide_eq_true_2 by done.
      simpl.
      rewrite delete_insert_eq.
      rewrite (delete_id _ new_name) by (by rewrite lookup_delete_ne).
      rewrite insert_delete_eq, insert_id by done.
      f_equal.
      destruct s as [? ? ? ? ? cpn ? ? ? ? ? ? ? []]. cbn in *.
      repeat case_bool_decide; simplify_eq; done.
Qed.

Lemma rename_playlist_spec_witness :
  MusicEngine.rename_playlist Sample.world "Q" "P"
    (snd (MusicEngine.rename_playlist Sample.world "P" "Q" Sample.queued))
  = (RRenamed "Q" "P", Sample.queued).
Proof.
  destruct (proj2 (proj2 (proj2 (rename_playlist_spec Sample.world Sample.queued "P" "Q")))
              [Sample.song_a; Sample.song_b; Sample.song_c])
    as (_ & _ & _ & _ & _ & _ & _ & _ & _ & _ & H).
  - discriminate.
  - reflexivity.
  - reflexivity.
  - reflexivity.
  - cbn. apply NoDup_singleton.
  - cbn. rewrite list_elem_of_singleton. discriminate.
  - apply H; discriminate.
Defined.

(** ** An error answer and the state *)

(** X19: for play_file, add_to_queue, remove_from_queue, seek, set_repeat and
    the playlist calls create, delete, add_to, remove_from and rename, an error
    answer means that nothing happened: whatever the outside world does
    (missing files, a storage layer that raises, a UNIQUE violation), the state
    after the call is the state before it. For remove_from_playlist this uses
    that the bound copy is as long as its stored list, as it is in every
    reachable state. *)
Theorem error_means_unchanged (E : env) (o : op) (s : state) :
  all_or_nothing o = true ->
  binding_ok s ->
  is_error (fst (step E o s)) = true ->
  snd (step E o s) = s.
Proof.
  intros Hop Hbind. destruct o; try discriminate Hop; clear Hop; simpl.
  - (* play_file *)
    unfold MusicEngine.play_file. destruct (path_exists E file_path); simpl; [|done].
    discriminate.
  - unfold MusicEngine.add_to_queue. by destruct (MusicEngine._search_song E song_name).
  - unfold MusicEngine.remove_from_queue. case_bool_decide; [|done].
    by destruct (py_pop (queue s) index) as [[? ?]|].
  - unfold MusicEngine.seek. by destruct (current_song s).
  - unfold MusicEngine.set_repeat. by destruct (MusicEngine.parse_repeat mode).
  - (* create_playlist *)
    unfold MusicEngine.create_playlist. case_bool_decide; [done|].
    match goal with
    | |- context [MusicEngine.transaction E ?tx s] =>
        destruct (transaction_cases E tx s) as [[e ->] | (a & d & ->)]
    end; [done | discriminate].
  - (* delete_playlist *)
    unfold MusicEngine.delete_playlist. repeat (case_bool_decide; [done|]).
    match goal with
    | |- context [MusicEngine.transaction E ?tx s] =>
        destruct (transaction_cases E tx s) as [[e ->] | (a & d & ->)]
    end; [done | discriminate].
  - (* add_to_playlist *)
    unfold MusicEngine.add_to_playlist.
    destruct (playlists s !! playlist_name) as [playlist|]; [|done].
    match goal with
    | |- context [match ?found with Some _ => _ | None => (RError _, s) end] =>
        destruct found as [song_data|]
    end; [|done].
    match goal with
    | |- context [MusicEngine.transaction E ?tx s] =>
        destruct (transaction_cases E tx s) as [[e ->] | (a & d & ->)]
    end; [done | discriminate].
  - (* remove_from_playlist *)
    unfold MusicEngine.remove_from_playlist.
    destruct (playlists s !! playlist_name) as [playlist|] eqn:Hpl; [|done].
    case_bool_decide as Hlib; [done|].
    case_bool_decide as Hidx; cbn [negb]; [|done].
    destruct (py_getitem playlist index); [|done].
    match goal with
    | |- context [MusicEngine.transaction E ?tx s] =>
        destruct (transaction_cases E tx s) as [[e ->] | (a & d & ->)]
    end; [done|].
    cbn [set_playlists set_db current_playlist_name current_playlist].
    case_bool_decide as Hname; [|discriminate].
    destruct (Hbind _ Hname) as (playlist' & Hpl' & Hlen).
    assert (playlist' = playlist) as -> by congruence.
    destruct (lookup_in_range (current_playlist s) index ltac:(lia)) as [y Hy].
    rewrite (py_pop_in_range _ index y) by (done || lia). discriminate.
  - (* rename_playlist *)
    unfold MusicEngine.rename_playlist. case_bool_decide; [done|].
    destruct (playlists s !! old_name); [|done]. case_bool_decide; [done|].
    match goal with
    | |- context [MusicEngine.transaction E ?tx s] =>
        destruct (transaction_cases E tx s) as [[e ->] | (a & d & ->)]
    end; [done | discriminate].
Qed.

Lemma error_means_unchanged_witness :
  snd (step Sample.world_db_locked (OpRenamePlaylist "P" "Q") Sample.queued)
  = Sample.queued.
Proof.
  apply error_means_unchanged; [reflexivity | | reflexivity].
  intros name [= <-]. by eexists.
Defined.

(** ** What start-up loads *)

#[local] Instance position_le_trans : Transitive Sql.position_le.
Proof. intros x y z. unfold Sql.position_le. lia. Qed.

#[local] Instance position_le_total : Total Sql.position_le.
Proof. intros x y. unfold Sql.position_le. lia. Qed.

Lemma elem_of_rows_from (pid k : Z) (songs : list song) (r : playlist_song_row) :
  r ∈ rows_from pid k songs
  ↔ ∃ i x, songs !! i = Some x ∧ r = PlaylistSongRow pid x (k + Z.of_nat i).
Proof.
  revert k. induction songs as [|y songs IH]; intros k.
  - simpl. rewrite elem_of_nil. split; [done|]. by intros (i & x & ? & _).
  - cbn [rows_from]. rewrite elem_of_cons, IH. split.
    + intros [-> | (i & x & Hx & ->)].
      * exists 0%nat, y. split; [done|]. f_equal. lia.
      * exists (S i), x. split; [done|]. f_equal. lia.
    + intros ([|i] & x & Hx & ->).
      * left. injection Hx as ->. f_equal. lia.
      * right. exists i, x. split; [done|]. f_equal. lia.
Qed.

Lemma rows_from_sorted (pid k : Z) (songs : list song) :
  Sorted Sql.position_le (rows_from pid k songs).
Proof.
  revert k. induction songs as [|x songs IH]; intros k; [constructor|].
  cbn [rows_from]. constructor; [apply IH|].
  destruct songs; constructor. unfold Sql.position_le. simpl. lia.
Qed.

(** The ORDER BY query gives back a list that is stored at the positions
    0, 1, ..., wherever its rows lie in the table. *)
Lemma select_songs_ordered_stored (pid : Z) (songs : list song) (d : database) :
  stored_as pid songs d -> Sql.select_songs_ordered pid d = songs.
Proof.
  unfold stored_as, Sql.select_songs_ordered. intros Hst.
  assert (Hsorted : merge_sort Sql.position_le (Sql.rows_of pid d)
                    = rows_from pid 0 songs).
  { apply (Sorted_unique_strong Sql.position_le).
    - intros r1 r2 H1 H2 Hle1 Hle2.
      rewrite merge_sort_Permutation, Hst in H1.
      apply elem_of_rows_from in H1 as (i1 & x1 & Hx1 & ->).
      apply elem_of_rows_from in H2 as (i2 & x2 & Hx2 & ->).
      unfold Sql.position_le in *. simpl in *.
      assert (i1 = i2) as -> by lia. congruence.
    - apply Sorted_merge_sort, _.
    - apply rows_from_sorted.
    - by rewrite merge_sort_Permutation. }
  rewrite Hsorted. clear. generalize 0. induction songs as [|x songs IH]; intros k; [done|].
  cbn [rows_from]. rewrite fmap_cons. simpl. by rewrite IH.
Qed.

Lemma load_lookup_other (g : Z -> list song) (rows : list playlist_row)
    (m : gmap string (list song)) (name : string) :
  name ∉ pl_name <$> rows ->
  foldl (fun loaded r => <[pl_name r := g (pl_id r)]> loaded) m rows !! name = m !! name.
Proof.
  revert m. induction rows as [|r rows IH]; intros m; [done|].
  rewrite fmap_cons, not_elem_of_cons. intros [Hne Hnot]. simpl.
  rewrite IH by done. by rewrite lookup_insert_ne.
Qed.

Lemma load_lookup_row (g : Z -> list song) (rows : list playlist_row)
    (m : gmap string (list song)) (r : playlist_row) :
  NoDup (pl_name <$> rows) -> r ∈ rows ->
  foldl (fun loaded r => <[pl_name r := g (pl_id r)]> loaded) m rows !! pl_name r
  = Some (g (pl_id r)).
Proof.
  revert m. induction rows as [|r' rows IH]; intros m; [by rewrite elem_of_nil|].
  rewrite fmap_cons, NoDup_cons, elem_of_cons. intros [Hnot Hnd] [-> | Hin]; simpl.
  - rewrite load_lookup_other by done. by rewrite lookup_insert_eq.
  - by apply IH.
Qed.

Lemma playlist_id_of_row (name : string) (pid : Z) (d : database) :
  playlist_id_of name d = Some pid -> PlaylistRow pid name ∈ tbl_playlists d.
Proof.
  unfold playlist_id_of. destruct (List.find _ _) as [r|] eqn:Hfind; [|done].
  intros [= <-]. apply find_name_some in Hfind as [Hr <-]. by destruct r.
Qed.





(** ** The tables mirror the map *)

Lemma fmap_inj_on {A B} (f : A -> B) (l : list A) (x y : A) :
  NoDup (f <$> l) -> x ∈ l -> y ∈ l -> f x = f y -> x = y.
Proof.
  induction l as [|z l IH]; [by rewrite elem_of_nil|].
  rewrite fmap_cons, NoDup_cons, !elem_of_cons.
  intros [Hz Hnd] [-> | Hx] [-> | Hy] Heq; try done.
  - destruct Hz. rewrite Heq. by apply list_elem_of_fmap_2.
  - destruct Hz. rewrite <- Heq. by apply list_elem_of_fmap_2.
  - by apply IH.
Qed.

Lemma playlist_id_of_is_Some (name : string) (d : database) :
  is_Some (playlist_id_of name d) ↔ name ∈ pl_name <$> tbl_playlists d.
Proof.
  split.
  - intros [pid Hid]. apply playlist_id_of_row in Hid.
    by apply (list_elem_of_fmap_2 pl_name) in Hid.
  - intros Hin. destruct (playlist_id_of name d) eqn:Hid; [by eexists|].
    unfold playlist_id_of in Hid.
    destruct (List.find _ _) as [r|] eqn:Hfind; [done|].
    clear Hid. exfalso. induction (tbl_playlists d) as [|r rows IH]; simpl in *.
    + by apply elem_of_nil in Hin.
    + case_bool_decide; [done|]. apply elem_of_cons in Hin as [? | ?]; [done|].
      by apply IH.
Qed.

Lemma playlist_id_of_le (name : string) (pid : Z) (d : database) :
  playlist_id_of name d = Some pid -> pid <= Sql.max_playlist_id (tbl_playlists d).
Proof.
  intros Hid. apply playlist_id_of_row in Hid.
  by apply max_playlist_id_ge in Hid.
Qed.

Lemma playlist_id_of_inj (n1 n2 : string) (pid : Z) (d : database) :
  NoDup (pl_id <$> tbl_playlists d) ->
  playlist_id_of n1 d = Some pid -> playlist_id_of n2 d = Some pid -> n1 = n2.
Proof.
  intros Hnd H1 H2. apply playlist_id_of_row in H1. apply playlist_id_of_row in H2.
  by injection (fmap_inj_on pl_id _ _ _ Hnd H1 H2 eq_refl).
Qed.

Lemma stored_as_rows (pid : Z) (songs : list song) (d d' : database) :
  Sql.rows_of pid d' = Sql.rows_of pid d -> stored_as pid songs d -> stored_as pid songs d'.
Proof. unfold stored_as. by intros ->. Qed.

Lemma tables_ok_ids_known (d : database) : tables_ok d -> ids_known d.
Proof. intros (_ & _ & _ & Hrows) r Hr. specialize (Hrows r Hr). lia. Qed.

Lemma max_playlist_id_app (l1 l2 : list playlist_row) :
  Sql.max_playlist_id (l1 ++ l2)
  = Z.max (Sql.max_playlist_id l1) (Sql.max_playlist_id l2).
Proof.
  unfold Sql.max_playlist_id. induction l1 as [|r l1 IH]; simpl.
  - assert (0 <= foldr (fun r acc => Z.max (pl_id r) acc) 0 l2); [|lia].
    induction l2; simpl; lia.
  - rewrite IH. lia.
Qed.

Lemma max_playlist_id_nonneg (l : list playlist_row) : 0 <= Sql.max_playlist_id l.
Proof. unfold Sql.max_playlist_id. induction l; simpl; lia. Qed.

Lemma max_playlist_id_filter (P : playlist_row -> Prop) `{∀ r, Decision (P r)}
    (l : list playlist_row) :
  Sql.max_playlist_id (filter P l) <= Sql.max_playlist_id l.
Proof.
  induction l as [|r l IH]; [done|].
  destruct (decide (P r)).
  - rewrite filter_cons_True by done. simpl. lia.
  - rewrite filter_cons_False by done. simpl. lia.
Qed.

Lemma playlist_id_of_after_create_new (name : string) (songs : list song) (d : database) :
  name ∉ pl_name <$> tbl_playlists d ->
  playlist_id_of name (db_after_create name songs d)
  = Some (Z.max (Sql.max_playlist_id (tbl_playlists d)) (pl_seq d) + 1).
Proof.
  intros Hfresh. unfold playlist_id_of, db_after_create. cbn [tbl_playlists].
  rewrite find_app_miss by (by apply find_name_none).
  simpl. by rewrite bool_decide_eq_true_2.
Qed.

Lemma playlist_id_of_after_create_other (name other : string) (songs : list song)
    (d : database) :
  other ≠ name ->
  playlist_id_of other (db_after_create name songs d) = playlist_id_of other d.
Proof.
  intros Hne. unfold playlist_id_of, db_after_create. cbn [tbl_playlists].
  destruct (List.find (fun r => bool_decide (pl_name r = other)) (tbl_playlists d))
    as [r|] eqn:Hfind.
  - by rewrite (find_app_hit _ _ _ _ Hfind).
  - rewrite find_app_miss by done. simpl. by rewrite bool_decide_eq_false_2.
Qed.

Lemma rows_after_create (name : string) (songs : list song) (d : database) :
  ids_known d ->
  let pid := Z.max (Sql.max_playlist_id (tbl_playlists d)) (pl_seq d) + 1 in
  Sql.rows_of pid (db_after_create name songs d) = rows_from pid 0 songs
  ∧ ∀ pid', pid' ≠ pid ->
      Sql.rows_of pid' (db_after_create name songs d) = Sql.rows_of pid' d.
Proof.
  intros Hids pid. unfold Sql.rows_of, db_after_create. cbn [tbl_playlist_songs].
  fold pid. split.
  - rewrite filter_app, rows_from_own.
    rewrite filter_nil_by; [done|].
    intros r Hr. specialize (Hids r Hr). unfold pid. lia.
  - intros pid' Hne. rewrite filter_app, rows_from_other by done.
    by rewrite app_nil_r.
Qed.

Lemma mirror_create (m : gmap string (list song)) (d : database) (name : string)
    (songs : list song) :
  mirror m d -> m !! name = None ->
  (name ∉ pl_name <$> tbl_playlists d)
  ∧ mirror (<[name := songs]> m) (db_after_create name songs d).
Proof.
  intros (Hok & Hstored & Hknown) Hnone.
  assert (Hfresh : name ∉ pl_name <$> tbl_playlists d).
  { intros Hin. apply playlist_id_of_is_Some in Hin as [pid Hid].
    destruct (Hstored _ _ Hid) as (songs' & Hsome & _). congruence. }
  split; [done|].
  pose proof (tables_ok_ids_known d Hok) as Hids.
  destruct Hok as (Hnames & Hidsnd & Hmax & Hrows).
  set (pid := Z.max (Sql.max_playlist_id (tbl_playlists d)) (pl_seq d) + 1).
  destruct (rows_after_create name songs d Hids) as [Hown Hother].
  fold pid in Hown, Hother.
  repeat apply conj.
  - unfold db_after_create. cbn [tbl_playlists]. rewrite fmap_app. simpl.
    apply NoDup_app. repeat apply conj; [done| |apply NoDup_singleton].
    intros x Hx. rewrite list_elem_of_singleton. by intros ->.
  - unfold db_after_create. cbn [tbl_playlists]. rewrite fmap_app. simpl.
    apply NoDup_app. repeat apply conj; [done| |apply NoDup_singleton].
    intros x Hx. rewrite list_elem_of_singleton. intros ->.
    apply list_elem_of_fmap in Hx as (r & Hr & Hin).
    pose proof (max_playlist_id_ge _ _ Hin). lia.
  - unfold db_after_create. cbn [tbl_playlists pl_seq].
    rewrite max_playlist_id_app. simpl.
    pose proof (max_playlist_id_nonneg (tbl_playlists d)). lia.
  - unfold db_after_create. cbn [tbl_playlist_songs pl_seq].
    intros r [Hr | Hr]%elem_of_app.
    + specialize (Hrows r Hr). lia.
    + apply elem_of_rows_from in Hr as (i & x & _ & ->). simpl. lia.
  - intros name' pid' Hid.
    destruct (decide (name' = name)) as [-> | Hne].
    + rewrite playlist_id_of_after_create_new in Hid by done.
      assert (pid' = pid) as -> by (unfold pid; congruence).
      exists songs. rewrite lookup_insert_eq. split; [done|].
      unfold stored_as. by rewrite Hown.
    + rewrite playlist_id_of_after_create_other in Hid by done.
      destruct (Hstored _ _ Hid) as (songs' & Hsome & Hst).
      exists songs'. rewrite lookup_insert_ne by done. split; [done|].
      apply (stored_as_rows _ _ d); [|done]. apply Hother.
      apply playlist_id_of_le in Hid. unfold pid. lia.
  - intros name' Hlib Hin.
    destruct (decide (name' = name)) as [-> | Hne].
    + rewrite playlist_id_of_after_create_new by done. by eexists.
    + rewrite playlist_id_of_after_create_other by done.
      rewrite lookup_insert_ne in Hin by done. by apply Hknown.
Qed.

Lemma playlist_id_of_after_delete (cascade : bool) (name other : string) (d : database) :
  playlist_id_of other (db_after_delete cascade name d)
  = if bool_decide (other = name) then None else playlist_id_of other d.
Proof.
  unfold playlist_id_of, db_after_delete. cbn [tbl_playlists].
  case_bool_decide as Hn.
  - subst other. by rewrite find_name_filter_gone.
  - by rewrite find_name_filter_other.
Qed.

Lemma rows_after_delete (cascade : bool) (name other : string) (pid : Z) (d : database) :
  NoDup (pl_id <$> tbl_playlists d) ->
  other ≠ name -> playlist_id_of other d = Some pid ->
  Sql.rows_of pid (db_after_delete cascade name d) = Sql.rows_of pid d.
Proof.
  intros Hnd Hne Hid. unfold Sql.rows_of, db_after_delete. cbn [tbl_playlist_songs].
  destruct cascade; [|done].
  rewrite list_filter_filter. apply list_filter_iff. intros r. split; [tauto|].
  intros Hr. split; [done|]. rewrite Hr. intros Hgone.
  apply list_elem_of_fmap in Hgone as (row & Hrow & Hin).
  apply list_elem_of_filter in Hin as [Hname Hin].
  apply playlist_id_of_row in Hid.
  assert (row = PlaylistRow pid other)
    by (by apply (fmap_inj_on pl_id (tbl_playlists d))).
  subst row. simpl in Hname. congruence.
Qed.

Lemma mirror_delete (m : gmap string (list song)) (d : database) (cascade : bool)
    (name : string) :
  mirror m d -> mirror (delete name m) (db_after_delete cascade name d).
Proof.
  intros ((Hnames & Hidsnd & Hmax & Hrows) & Hstored & Hknown).
  repeat apply conj.
  - unfold db_after_delete. cbn [tbl_playlists].
    induction (tbl_playlists d) as [|r rows IH]; [done|].
    rewrite fmap_cons, NoDup_cons in Hnames. destruct Hnames as [Hr Hnd].
    destruct (decide (pl_name r = name)).
    + rewrite filter_cons_False by (intros H; by apply H).
      apply IH; [done | by apply NoDup_cons in Hidsnd as [_ ?] | simpl in Hmax; lia].
    + rewrite filter_cons_True by done. rewrite fmap_cons. apply NoDup_cons. split.
      * intros Hin. apply Hr. apply list_elem_of_fmap in Hin as (r' & -> & Hin).
        apply list_elem_of_filter in Hin as [_ Hin]. by apply list_elem_of_fmap_2.
      * apply IH; [done | by apply NoDup_cons in Hidsnd as [_ ?] | simpl in Hmax; lia].
  - unfold db_after_delete. cbn [tbl_playlists].
    clear -Hidsnd. induction (tbl_playlists d) as [|r rows IH]; [done|].
    rewrite fmap_cons, NoDup_cons in Hidsnd. destruct Hidsnd as [Hr Hnd].
    destruct (decide (pl_name r = name)).
    + rewrite filter_cons_False by (intros H; by apply H). by apply IH.
    + rewrite filter_cons_True by done. rewrite fmap_cons. apply NoDup_cons. split.
      * intros Hin. apply Hr. apply list_elem_of_fmap in Hin as (r' & -> & Hin).
        apply list_elem_of_filter in Hin as [_ Hin]. by apply list_elem_of_fmap_2.
      * by apply IH.
  - unfold db_after_delete. cbn [tbl_playlists pl_seq].
    pose proof (max_playlist_id_filter (fun r => pl_name r ≠ name) (tbl_playlists d)).
    lia.
  - unfold db_after_delete. cbn [tbl_playlist_songs pl_seq]. intros r Hr.
    apply Hrows. destruct cascade; [|done].
    by apply list_elem_of_filter in Hr as [_ Hr].
  - intros other pid. rewrite playlist_id_of_after_delete.
    case_bool_decide as Hn; [done|]. intros Hid.
    destruct (Hstored _ _ Hid) as (songs & Hsome & Hst).
    exists songs. rewrite lookup_delete_ne by done. split; [done|].
    apply (stored_as_rows _ _ d); [|done]. by apply (rows_after_delete _ name other).
  - intros other Hlib Hin. rewrite playlist_id_of_after_delete.
    case_bool_decide as Hn.
    + subst other. rewrite lookup_delete_eq in Hin. by destruct Hin.
    + rewrite lookup_delete_ne in Hin by done. by apply Hknown.
Qed.

Lemma playlist_id_of_after_add (name other : string) (x : song) (k : Z) (d : database) :
  playlist_id_of other (db_after_add name x k d) = playlist_id_of other d.
Proof. unfold db_after_add. by destruct (playlist_id_of name d). Qed.

Lemma mirror_add (m : gmap string (list song)) (d : database) (name : string)
    (l : list song) (x : song) :
  mirror m d -> m !! name = Some l ->
  mirror (<[name := l ++ [x]]> m) (db_after_add name x (Z.of_nat (length l)) d).
Proof.
  intros ((Hnames & Hidsnd & Hmax & Hrows) & Hstored & Hknown) Hl.
  assert (Hmap : ∀ other, other ≠ name ->
            <[name := l ++ [x]]> m !! other = m !! other)
    by (intros; by rewrite lookup_insert_ne).
  destruct (playlist_id_of name d) as [pid|] eqn:Hid.
  - assert (Hdb : db_after_add name x (Z.of_nat (length l)) d
                  = Database (tbl_playlists d)
                      (tbl_playlist_songs d
                         ++ [PlaylistSongRow pid x (Z.of_nat (length l))]) (pl_seq d))
      by (unfold db_after_add; by rewrite Hid).
    repeat apply conj; rewrite ?Hdb; cbn [tbl_playlists tbl_playlist_songs pl_seq];
      try done.
    + intros r [Hr | Hr]%elem_of_app; [by apply Hrows|].
      apply list_elem_of_singleton in Hr as ->. simpl.
      apply playlist_id_of_le in Hid. lia.
    + intros other pid'. rewrite <- Hdb, playlist_id_of_after_add. intros Hid'.
      destruct (Hstored _ _ Hid') as (songs & Hsome & Hst).
      destruct (decide (other = name)) as [-> | Hne].
      * assert (pid' = pid) as -> by congruence.
        assert (songs = l) as -> by congruence.
        exists (l ++ [x]). rewrite lookup_insert_eq. split; [done|].
        unfold stored_as in *. rewrite Hdb, rows_of_insert, decide_True by done.
        rewrite Hst, rows_from_app. simpl. by rewrite Z.add_0_l.
      * exists songs. rewrite Hmap by done. split; [done|].
        apply (stored_as_rows _ _ d); [|done].
        rewrite Hdb, rows_of_insert, decide_False, app_nil_r; [done|].
        intros ->. apply Hne. by apply (playlist_id_of_inj _ _ pid d).
    + intros other Hlib Hin. rewrite <- Hdb, playlist_id_of_after_add.
      destruct (decide (other = name)) as [-> | Hne]; [by eexists|].
      rewrite Hmap in Hin by done. by apply Hknown.
  - assert (Hdb : db_after_add name x (Z.of_nat (length l)) d = d)
      by (unfold db_after_add; by rewrite Hid).
    rewrite Hdb. repeat apply conj; try done.
    + intros other pid' Hid'.
      assert (other ≠ name) by congruence.
      rewrite Hmap by done. by apply Hstored.
    + intros other Hlib Hin.
      destruct (decide (other = name)) as [-> | Hne].
      * apply Hknown; [done | by eexists].
      * rewrite Hmap in Hin by done. by apply Hknown.
Qed.

Lemma playlist_id_of_after_remove' (name other : string) (index : Z) (d : database) :
  playlist_id_of other (db_after_remove name index d) = playlist_id_of other d.
Proof. unfold db_after_remove. by destruct (playlist_id_of name d). Qed.

Lemma shift_row_id (pid index : Z) (r : playlist_song_row) :
  ps_playlist_id (Sql.shift_row pid index r) = ps_playlist_id r.
Proof. unfold Sql.shift_row. by case_bool_decide. Qed.

Lemma mirror_remove (m : gmap string (list song)) (d : database) (name : string)
    (l : list song) (index : Z) :
  mirror m d -> m !! name = Some l -> 0 <= index ->
  mirror (<[name := delete (Z.to_nat index) l]> m) (db_after_remove name index d).
Proof.
  intros ((Hnames & Hidsnd & Hmax & Hrows) & Hstored & Hknown) Hl Hidx.
  assert (Hmap : ∀ other, other ≠ name ->
            <[name := delete (Z.to_nat index) l]> m !! other = m !! other)
    by (intros; by rewrite lookup_insert_ne).
  destruct (playlist_id_of name d) as [pid|] eqn:Hid.
  - destruct (rows_after_remove name index d pid Hid) as [Hown Hother].
    assert (Hdb : db_after_remove name index d
                  = Database (tbl_playlists d)
                      (Sql.shifted_rows pid index
                         (Sql.kept_rows pid index (tbl_playlist_songs d))) (pl_seq d))
      by (unfold db_after_remove; by rewrite Hid).
    repeat apply conj.
    + by rewrite Hdb.
    + by rewrite Hdb.
    + by rewrite Hdb.
    + rewrite Hdb. cbn [tbl_playlist_songs pl_seq]. intros r Hr.
      unfold Sql.shifted_rows in Hr. apply list_elem_of_fmap in Hr as (r0 & -> & Hr0).
      unfold Sql.kept_rows in Hr0. apply list_elem_of_filter in Hr0 as [_ Hr0].
      rewrite shift_row_id. by apply Hrows.
    + intros other pid'. rewrite playlist_id_of_after_remove'. intros Hid'.
      destruct (Hstored _ _ Hid') as (songs & Hsome & Hst).
      destruct (decide (other = name)) as [-> | Hne].
      * assert (pid' = pid) as -> by congruence.
        assert (songs = l) as -> by congruence.
        exists (delete (Z.to_nat index) l). rewrite lookup_insert_eq. split; [done|].
        unfold stored_as. rewrite Hown. by apply remove_keeps_dense.
      * exists songs. rewrite Hmap by done. split; [done|].
        apply (stored_as_rows _ _ d); [|done]. apply Hother.
        intros ->. apply Hne. by apply (playlist_id_of_inj _ _ pid d).
    + intros other Hlib Hin. rewrite playlist_id_of_after_remove'.
      destruct (decide (other = name)) as [-> | Hne]; [by eexists|].
      rewrite Hmap in Hin by done. by apply Hknown.
  - assert (Hdb : db_after_remove name index d = d)
      by (unfold db_after_remove; by rewrite Hid).
    rewrite Hdb. repeat apply conj; try done.
    + intros other pid' Hid'.
      assert (other ≠ name) by congruence.
      rewrite Hmap by done. by apply Hstored.
    + intros other Hlib Hin.
      destruct (decide (other = name)) as [-> | Hne].
      * apply Hknown; [done | by eexists].
      * rewrite Hmap in Hin by done. by apply Hknown.
Qed.

Lemma mirror_reorder (m : gmap string (list song)) (d : database) (name : string)
    (l moved : list song) :
  mirror m d -> m !! name = Some l ->
  mirror (<[name := moved]> m) (db_after_reorder name moved d).
Proof.
  intros ((Hnames & Hidsnd & Hmax & Hrows) & Hstored & Hknown) Hl.
  assert (Hmap : ∀ other, other ≠ name -> <[name := moved]> m !! other = m !! other)
    by (intros; by rewrite lookup_insert_ne).
  destruct (playlist_id_of name d) as [pid|] eqn:Hid.
  - destruct (rows_after_reorder name moved d pid Hid) as [Hown Hother].
    assert (Hdb : db_after_reorder name moved d
                  = Database (tbl_playlists d)
                      (filter (fun r => ps_playlist_id r ≠ pid) (tbl_playlist_songs d)
                         ++ rows_from pid 0 moved) (pl_seq d))
      by (unfold db_after_reorder; by rewrite Hid).
    repeat apply conj.
    + by rewrite Hdb.
    + by rewrite Hdb.
    + by rewrite Hdb.
    + rewrite Hdb. cbn [tbl_playlist_songs pl_seq].
      intros r [Hr | Hr]%elem_of_app.
      * apply list_elem_of_filter in Hr as [_ Hr]. by apply Hrows.
      * apply elem_of_rows_from in Hr as (i & x & _ & ->). simpl.
        apply playlist_id_of_le in Hid. lia.
    + intros other pid'. rewrite playlist_id_of_after_reorder. intros Hid'.
      destruct (Hstored _ _ Hid') as (songs & Hsome & Hst).
      destruct (decide (other = name)) as [-> | Hne].
      * assert (pid' = pid) as -> by congruence.
        exists moved. rewrite lookup_insert_eq. split; [done|].
        unfold stored_as. by rewrite Hown.
      * exists songs. rewrite Hmap by done. split; [done|].
        apply (stored_as_rows _ _ d); [|done]. apply Hother.
        intros ->. apply Hne. by apply (playlist_id_of_inj _ _ pid d).
    + intros other Hlib Hin. rewrite playlist_id_of_after_reorder.
      destruct (decide (other = name)) as [-> | Hne]; [by eexists|].
      rewrite Hmap in Hin by done. by apply Hknown.
  - assert (Hdb : db_after_reorder name moved d = d)
      by (unfold db_after_reorder; by rewrite Hid).
    rewrite Hdb. repeat apply conj; try done.
    + intros other pid' Hid'.
      assert (other ≠ name) by congruence.
      rewrite Hmap by done. by apply Hstored.
    + intros other Hlib Hin.
      destruct (decide (other = name)) as [-> | Hne].
      * apply Hknown; [done | by eexists].
      * rewrite Hmap in Hin by done. by apply Hknown.
Qed.

Lemma renamed_rows_ids (new_name old_name : string) (rows : list playlist_row) :
  pl_id <$> renamed_rows new_name old_name rows = pl_id <$> rows.
Proof.
  unfold renamed_rows. rewrite <- list_fmap_compose. apply list_fmap_ext.
  intros i r _. simpl. by case_bool_decide.
Qed.

Lemma max_playlist_id_ids (rows : list playlist_row) :
  Sql.max_playlist_id rows = foldr Z.max 0 (pl_id <$> rows).
Proof.
  unfold Sql.max_playlist_id. induction rows as [|r rows IH]; [done|].
  rewrite fmap_cons. cbn [foldr]. by rewrite IH.
Qed.

Lemma mirror_rename (m : gmap string (list song)) (d : database)
    (old_name new_name : string) (l : list song) :
  mirror m d -> old_name ≠ "Library" ->
  m !! old_name = Some l -> m !! new_name = None ->
  (new_name ∉ pl_name <$> tbl_playlists d)
  ∧ mirror (<[new_name := l]> (delete old_name m)) (db_after_rename new_name old_name d).
Proof.
  intros ((Hnames & Hidsnd & Hmax & Hrows) & Hstored & Hknown) Hlib Hold Hnew.
  assert (Hne : old_name ≠ new_name) by congruence.
  assert (Hfresh : new_name ∉ pl_name <$> tbl_playlists d).
  { intros Hin. apply playlist_id_of_is_Some in Hin as [pid Hid].
    destruct (Hstored _ _ Hid) as (songs' & Hsome & _). congruence. }
  split; [done|].
  assert (Hidnew : playlist_id_of new_name (db_after_rename new_name old_name d)
                   = playlist_id_of old_name d)
    by (unfold playlist_id_of, db_after_rename; cbn [tbl_playlists];
        by apply renamed_id_of_new).
  assert (Hidold : playlist_id_of old_name (db_after_rename new_name old_name d) = None)
    by (unfold playlist_id_of, db_after_rename; cbn [tbl_playlists];
        by rewrite renamed_id_of_old).
  assert (Hidother : ∀ other, other ≠ new_name -> other ≠ old_name ->
            playlist_id_of other (db_after_rename new_name old_name d)
            = playlist_id_of other d)
    by (intros; unfold playlist_id_of, db_after_rename; cbn [tbl_playlists];
        by apply renamed_id_of_other).
  repeat apply conj.
  - unfold db_after_rename. cbn [tbl_playlists]. by apply renamed_names_fresh.
  - unfold db_after_rename. cbn [tbl_playlists]. by rewrite renamed_rows_ids.
  - unfold db_after_rename. cbn [tbl_playlists pl_seq].
    rewrite max_playlist_id_ids, renamed_rows_ids, <- max_playlist_id_ids. done.
  - done.
  - intros other pid Hid.
    destruct (decide (other = new_name)) as [-> | Hn].
    + rewrite Hidnew in Hid. destruct (Hstored _ _ Hid) as (songs & Hsome & Hst).
      exists songs. rewrite lookup_insert_eq. split; [congruence | done].
    + destruct (decide (other = old_name)) as [-> | Ho]; [congruence|].
      rewrite Hidother in Hid by done.
      destruct (Hstored _ _ Hid) as (songs & Hsome & Hst).
      exists songs. rewrite lookup_insert_ne, lookup_delete_ne by done. done.
  - intros other Hl Hin.
    destruct (decide (other = new_name)) as [-> | Hn].
    + rewrite Hidnew. apply Hknown; [done | by eexists].
    + destruct (decide (other = old_name)) as [-> | Ho].
      * rewrite lookup_insert_ne, lookup_delete_eq in Hin by done. by destruct Hin.
      * rewrite Hidother by done.
        rewrite lookup_insert_ne, lookup_delete_ne in Hin by done. by apply Hknown.
Qed.

Lemma mirrored_frame (s s' : state) :
  playlists s' = playlists s -> db s' = db s -> mirrored s -> mirrored s'.
Proof. unfold mirrored. by intros -> ->. Qed.

Lemma play_file_db (E : env) (file_path : string) (s : state) :
  db (snd (MusicEngine.play_file E file_path s)) = db s.
Proof.
  pose proof (play_file_frame E file_path s) as H. cbv zeta in H.
  by destruct H as (_ & _ & _ & _ & _ & _ & _ & _ & _ & H).
Qed.

Lemma play_index_db (E : env) (i : Z) (s : state) :
  db (snd (MusicEngine.play_index E i s)) = db s.
Proof.
  unfold MusicEngine.play_index. destruct (py_getitem _ _); [|done].
  apply play_file_db.
Qed.

Ltac tables_cases :=
  repeat first
    [ progress (rewrite ?dropped_snd, ?play_file_playlists, ?play_index_playlists,
                  ?play_file_db, ?play_index_db)
    | progress simpl
    | reflexivity
    | case_match ].

(** Calls other than the six playlist mutations leave the map and the tables
    alone. *)
Lemma playback_keeps_tables (E : env) (o : op) (s : state) :
  match o with
  | OpCreatePlaylist _ _ | OpDeletePlaylist _ | OpAddToPlaylist _ _
  | OpRemoveFromPlaylist _ _ | OpReorderPlaylist _ _ _ | OpRenamePlaylist _ _ => True
  | _ => playlists (snd (step E o s)) = playlists s ∧ db (snd (step E o s)) = db s
  end.
Proof.
  destruct o; try exact I; simpl.
  - split; [apply play_file_playlists | apply play_file_db].
  - unfold MusicEngine.play_by_name. split; tables_cases.
  - unfold MusicEngine.pause. split; tables_cases.
  - unfold MusicEngine.resume. split; tables_cases.
  - done.
  - unfold MusicEngine.next. split; tables_cases.
  - unfold MusicEngine.previous, MusicEngine.seek. split; tables_cases.
  - unfold MusicEngine._handle_song_end. split; tables_cases.
  - unfold MusicEngine.add_to_queue. split; tables_cases.
  - done.
  - unfold MusicEngine.remove_from_queue. split; tables_cases.
  - unfold MusicEngine.set_volume. split; tables_cases.
  - unfold MusicEngine.toggle_mute. split; tables_cases.
  - unfold MusicEngine.seek. split; tables_cases.
  - unfold MusicEngine.set_repeat. split; tables_cases.
  - unfold MusicEngine.set_shuffle. split; tables_cases.
  - unfold MusicEngine.play_playlist. split; tables_cases.
Qed.

Lemma create_transaction (E : env) (name : string) (songs : list song) (s : state) :
  storage_fault E = None -> name ∉ pl_name <$> tbl_playlists (db s) ->
  MusicEngine.transaction E
    (Sql.bind (Sql.insert_playlist name) (fun playlist_id =>
     Sql.insert_songs_from playlist_id 0 songs)) s
  = inr (tt, set_db (db_after_create name songs (db s)) s).
Proof.
  intros Hup Hfresh. unfold MusicEngine.transaction. rewrite Hup.
  unfold Sql.bind, Sql.insert_playlist. rewrite bool_decide_eq_false_2 by done.
  by rewrite insert_songs_from_appends.
Qed.

Lemma add_transaction (E : env) (name : string) (x : song) (k : Z) (s : state) :
  storage_fault E = None ->
  MusicEngine.transaction E
    (Sql.bind (Sql.select_playlist_id name) (fun result =>
     match result with
     | Some playlist_id => Sql.insert_song playlist_id x k
     | None => Sql.ret tt
     end)) s
  = inr (tt, set_db (db_after_add name x k (db s)) s).
Proof.
  intros Hup. unfold MusicEngine.transaction. rewrite Hup.
  unfold Sql.bind, Sql.select_playlist_id, db_after_add, playlist_id_of.
  destruct (List.find _ _); simpl; [done|].
  by destruct s as [? ? ? ? ? ? ? ? ? ? ? ? ? []].
Qed.

Lemma rename_transaction (E : env) (new_name old_name : string) (s : state) :
  storage_fault E = None ->
  NoDup (pl_name <$> tbl_playlists (db s)) ->
  new_name ∉ pl_name <$> tbl_playlists (db s) ->
  MusicEngine.transaction E (Sql.rename_playlist new_name old_name) s
  = inr (tt, set_db (db_after_rename new_name old_name (db s)) s).
Proof.
  intros Hup Hnd Hfresh. unfold MusicEngine.transaction. rewrite Hup, rename_statement.
  by rewrite bool_decide_eq_true_2 by (by apply renamed_names_fresh).
Qed.

Lemma delete_transaction (E : env) (name : string) (s : state) :
  storage_fault E = None ->
  MusicEngine.transaction E (Sql.delete_playlist (foreign_keys E) name) s
  = inr (tt, set_db (db_after_delete (foreign_keys E) name (db s)) s).
Proof. intros Hup. unfold MusicEngine.transaction. by rewrite Hup. Qed.

Lemma transaction_down {A} (E : env) (tx : stmt A) (s : state) (msg : string) :
  storage_fault E = Some msg -> MusicEngine.transaction E tx s = inl msg.
Proof. intros H. unfold MusicEngine.transaction. by rewrite H. Qed.

(** One call keeps the mirror, unless it is a reorder_playlist that meets a
    failing storage layer. *)
Lemma step_mirrored (E : env) (o : op) (s : state) :
  no_failing_reorder (E, o) -> mirrored s -> mirrored (snd (step E o s)).
Proof.
  intros Hop Hm.
  pose proof (playback_keeps_tables E o s) as Hkeep.
  destruct o; try (apply (mirrored_frame s); [apply Hkeep | apply Hkeep | done]);
    clear Hkeep; simpl; unfold mirrored in *.
  - (* create_playlist *)
    match goal with
    | |- context [MusicEngine.create_playlist E ?n _ s] => rename n into pname
    end.
    unfold MusicEngine.create_playlist. case_bool_decide as Hin; [done|].
    destruct (storage_fault E) as [msg|] eqn:Hup.
    { by rewrite (transaction_down _ _ _ msg). }
    assert (Hnone : playlists s !! pname = None).
    { destruct (playlists s !! pname) eqn:Hl; [|done]. destruct Hin. by eexists. }
    destruct (mirror_create _ _ pname (default [] songs) Hm Hnone) as [Hfresh Hm'].
    by rewrite create_transaction.
  - (* delete_playlist *)
    match goal with
    | |- context [MusicEngine.delete_playlist E ?n s] => rename n into pname
    end.
    unfold MusicEngine.delete_playlist.
    case_bool_decide as Hlib; [done|]. case_bool_decide as Hnone; [done|].
    destruct (storage_fault E) as [msg|] eqn:Hup.
    { by rewrite (transaction_down _ _ _ msg). }
    rewrite delete_transaction by done.
    pose proof (mirror_delete _ _ (foreign_keys E) pname Hm) as Hm'.
    cbn [set_playlists set_db current_playlist_name playlists].
    by case_bool_decide.
  - (* add_to_playlist *)
    unfold MusicEngine.add_to_playlist.
    destruct (playlists s !! playlist_name) as [playlist|] eqn:Hpl; [|done].
    match goal with
    | |- context [match ?found with Some _ => _ | None => (RError _, s) end] =>
        destruct found as [song_data|]
    end; [|done].
    destruct (storage_fault E) as [msg|] eqn:Hup.
    { by rewrite (transaction_down _ _ _ msg). }
    rewrite add_transaction by done.
    pose proof (mirror_add _ _ playlist_name playlist song_data Hm Hpl) as Hm'.
    cbn [set_playlists set_db current_playlist_name playlists].
    by case_bool_decide.
  - (* remove_from_playlist *)
    unfold MusicEngine.remove_from_playlist.
    destruct (playlists s !! playlist_name) as [playlist|] eqn:Hpl; [|done].
    case_bool_decide as Hlib; [done|].
    case_bool_decide as Hidx; cbn [negb]; [|done].
    destruct (py_getitem playlist index); [|done].
    destruct (storage_fault E) as [msg|] eqn:Hup.
    { by rewrite (transaction_down _ _ _ msg). }
    rewrite remove_transaction by done.
    pose proof (mirror_remove _ _ playlist_name playlist index Hm Hpl ltac:(lia)) as Hm'.
    cbn [set_playlists set_db current_playlist_name playlists current_playlist].
    case_bool_decide; [|done].
    destruct (py_pop (current_playlist s) index) as [[? rest]|]; [|done].
    cbn [playlist_index set_current_playlist]. by case_bool_decide.
  - (* reorder_playlist *)
    unfold no_failing_reorder in Hop. simpl in Hop.
    unfold MusicEngine.reorder_playlist.
    destruct (playlists s !! playlist_name) as [playlist|] eqn:Hpl; [|done].
    case_bool_decide as Hlib; [done|].
    destruct (negb _); [done|].
    destruct (MusicEngine.move playlist from_index to_index) as [moved|]; [|done].
    rewrite reorder_transaction by done.
    pose proof (mirror_reorder _ _ playlist_name playlist moved Hm Hpl) as Hm'.
    cbn [set_playlists set_db current_playlist_name playlists current_playlist db].
    case_bool_decide; [|done].
    destruct (MusicEngine.move (current_playlist s) from_index to_index); [|done].
    cbn [playlist_index set_current_playlist]. by repeat case_bool_decide.
  - (* rename_playlist *)
    unfold MusicEngine.rename_playlist. case_bool_decide as Hlib; [done|].
    destruct (playlists s !! old_name) as [playlist|] eqn:Hold; [|done].
    case_bool_decide as Hin; [done|].
    destruct (storage_fault E) as [msg|] eqn:Hup.
    { by rewrite (transaction_down _ _ _ msg). }
    assert (Hnone : playlists s !! new_name = None).
    { destruct (playlists s !! new_name) eqn:Hl; [|done]. destruct Hin. by eexists. }
    destruct (mirror_rename _ _ old_name new_name playlist Hm Hlib Hold Hnone)
      as [Hfresh Hm'].
    rewrite rename_transaction by (done || apply Hm).
    cbn [set_playlists set_db current_playlist_name playlists].
    by case_bool_decide.
Qed.

Lemma run_mirrored (calls : list (env * op)) (s : state) :
  Forall no_failing_reorder calls -> mirrored s -> mirrored (run calls s).
Proof.
  intros Hcalls. revert s. induction Hcalls as [|[E o] calls Hop _ IH]; intros s Hm.
  - done.
  - apply IH. by apply step_mirrored.
Qed.

Lemma sample_mirrored : mirrored Sample.loaded.
Proof.
  assert (Hid : ∀ name pid, playlist_id_of name Sample.tables = Some pid ->
            name = "P" ∧ pid = 1).
  { intros name pid. unfold playlist_id_of. cbn.
    case_bool_decide as Hn; [|done]. by intros [= <-]. }
  repeat apply conj.
  - apply (bool_decide_unpack _). reflexivity.
  - apply (bool_decide_unpack _). reflexivity.
  - cbn. lia.
  - intros r Hr. pose proof (sample_ids_known r Hr) as H. cbn in H. cbn. lia.
  - intros name pid [-> ->]%Hid. eexists. split; [reflexivity|].
    unfold stored_as. reflexivity.
  - intros name Hlib [l Hl]. cbn in Hl.
    destruct (decide (name = "P")) as [-> | Hne]; [by eexists|].
    rewrite lookup_insert_ne in Hl by done.
    rewrite lookup_insert_ne in Hl by done. by rewrite lookup_empty in Hl.
Qed.

(** X21: a restart brings every playlist back. Start from a state whose
    tables mirror its map, and make any sequence of calls, in any outside
    world, storage failing or not, with the one exception of a reorder_playlist
    that meets a failing storage layer. Then the tables still mirror the map,
    and a fresh engine that loads these tables has, under every name but
    "Library", exactly the list the running engine has: same songs, same order,
    and no playlist more. *)
Theorem restart_restores_playlists (calls : list (env * op)) (s : state) (E' : env) :
  mirrored s ->
  Forall no_failing_reorder calls ->
  storage_fault E' = None ->
  mirrored (run calls s)
  ∧ ∀ name, name ≠ "Library" ->
      playlists (MusicEngine._load_saved_playlists E' None
                   (MusicEngine.init (db (run calls s)))) !! name
      = playlists (run calls s) !! name.
Proof.
  intros Hm Hcalls Hup.
  pose proof (run_mirrored calls s Hcalls Hm) as Hm'. split; [done|].
  destruct Hm' as ((Hnames & _) & Hstored & Hknown).
  intros name Hlib. unfold MusicEngine._load_saved_playlists. rewrite Hup.
  cbn [playlists set_playlists MusicEngine.init db MusicEngine.rows_read].
  set (d := db (run calls s)) in *.
  destruct (playlist_id_of name d) as [pid|] eqn:Hid.
  - destruct (Hstored _ _ Hid) as (songs & -> & Hst).
    apply playlist_id_of_row in Hid.
    rewrite (load_lookup_row (fun pid => Sql.select_songs_ordered pid d) _ _
               (PlaylistRow pid name)) by done.
    simpl. by rewrite (select_songs_ordered_stored _ songs).
  - rewrite (load_lookup_other (fun pid => Sql.select_songs_ordered pid d)).
    + rewrite lookup_empty. symmetry.
      destruct (playlists (run calls s) !! name) eqn:Hl; [|done].
      destruct (Hknown name Hlib ltac:(by eexists)) as [pid Hpid]. congruence.
    + intros Hin. apply playlist_id_of_is_Some in Hin as [pid Hpid]. congruence.
Qed.

Lemma restart_restores_playlists_witness :
  let calls :=
    [(Sample.world, OpCreatePlaylist "Q" (Some [Sample.song_c; Sample.song_a]));
     (Sample.world_search, OpAddToPlaylist "Q" "b");
     (Sample.world, OpReorderPlaylist "Q" 0 2);
     (Sample.world_db_locked, OpDeletePlaylist "P");
     (Sample.world, OpRemoveFromPlaylist "P" 1);
     (Sample.world, OpRenamePlaylist "Q" "R")] in
  playlists (MusicEngine._load_saved_playlists Sample.world None
               (MusicEngine.init (db (run calls Sample.loaded)))) !! "R"
  = Some [Sample.song_a; Sample.song_b; Sample.song_c].
Proof.
  intros calls.
  destruct (restart_restores_playlists calls Sample.loaded Sample.world
              sample_mirrored) as [_ H].
  - repeat constructor.
  - reflexivity.
  - rewrite (H "R") by discriminate. reflexivity.
Defined.

(** ** Duplicating a playlist *)

Lemma string_app_paren_inj (s1 s2 : string) : s1 +:+ ")" = s2 +:+ ")" -> s1 = s2.
Proof.
  revert s2. induction s1 as [|c s1 IH]; intros [|c' s2]; simpl; intros H.
  - done.
  - injection H as _ H. by destruct s2.
  - injection H as _ H. by destruct s1.
  - injection H as -> H. f_equal. by apply IH.
Qed.

Lemma copy_name_inj (playlist_name : string) (i j : Z) :
  MusicEngine.copy_name playlist_name i = MusicEngine.copy_name playlist_name j -> i = j.
Proof.
  unfold MusicEngine.copy_name. intros H.
  apply (inj (String.app playlist_name)) in H.
  apply (inj (String.app " (Copy ")) in H.
  apply string_app_paren_inj in H. by apply (inj pretty) in H.
Qed.

Lemma copy_name_not_first (playlist_name : string) (j : Z) :
  MusicEngine.copy_name playlist_name j ≠ playlist_name +:+ " (Copy)".
Proof.
  unfold MusicEngine.copy_name. intros H.
  apply (inj (String.app playlist_name)) in H. simpl in H. discriminate.
Qed.

Lemma copy_name_loop_agree (fuel : nat) (t1 t2 : gmap string (list song))
    (playlist_name : string) (i : Z) (new_name : string) :
  (is_Some (t1 !! new_name) ↔ is_Some (t2 !! new_name)) ->
  (∀ j, i < j ->
     is_Some (t1 !! MusicEngine.copy_name playlist_name j)
     ↔ is_Some (t2 !! MusicEngine.copy_name playlist_name j)) ->
  MusicEngine.copy_name_loop fuel t1 playlist_name i new_name
  = MusicEngine.copy_name_loop fuel t2 playlist_name i new_name.
Proof.
  revert i new_name. induction fuel as [|fuel IH]; intros i new_name Hnew Hlater;
    cbn [MusicEngine.copy_name_loop].
  - by rewrite (bool_decide_ext _ _ Hnew).
  - rewrite (bool_decide_ext _ _ Hnew). case_bool_decide; [|done].
    apply IH; [apply Hlater; lia|]. intros j Hj. apply Hlater. lia.
Qed.

(** The loop of [duplicate_playlist] ends within as many rounds as there are
    playlists, on the first name of its sequence that is free. *)
Lemma copy_name_loop_finds (fuel : nat) (taken : gmap string (list song))
    (playlist_name : string) (i : Z) (new_name : string) :
  (size taken <= fuel)%nat ->
  (∀ j, i < j -> MusicEngine.copy_name playlist_name j ≠ new_name) ->
  ∃ chosen,
    MusicEngine.copy_name_loop fuel taken playlist_name i new_name = Some chosen
    ∧ taken !! chosen = None
    ∧ ((chosen = new_name)
       ∨ (is_Some (taken !! new_name)
          ∧ ∃ j, i < j ∧ chosen = MusicEngine.copy_name playlist_name j
                 ∧ ∀ k, i < k < j ->
                     is_Some (taken !! MusicEngine.copy_name playlist_name k))).
Proof.
  revert taken i new_name.
  induction fuel as [|fuel IH]; intros taken i new_name Hsize Hdistinct;
    cbn [MusicEngine.copy_name_loop].
  - assert (taken = ∅) as -> by (apply map_size_empty_iff; lia).
    rewrite bool_decide_eq_false_2 by (rewrite lookup_empty; by intros [? ?]).
    exists new_name. rewrite lookup_empty. auto.
  - case_bool_decide as Hin.
    + set (next_name := MusicEngine.copy_name playlist_name (i + 1)).
      assert (Hagree : ∀ j, i < j ->
                is_Some (taken !! MusicEngine.copy_name playlist_name j)
                ↔ is_Some (delete new_name taken !! MusicEngine.copy_name playlist_name j)).
      { intros j Hj. rewrite lookup_delete_ne; [done|].
        intros Heq. by apply (Hdistinct j Hj). }
      rewrite (copy_name_loop_agree fuel taken (delete new_name taken));
        [|apply Hagree; lia | intros j Hj; apply Hagree; lia].
      destruct (IH (delete new_name taken) (i + 1) next_name)
        as (chosen & Hrun & Hfree & Hwhich).
      { destruct Hin as [l Hl]. rewrite map_size_delete, Hl. lia. }
      { intros j Hj Heq. apply copy_name_inj in Heq. lia. }
      exists chosen. split; [done|].
      assert (Hcand : ∃ j, i < j ∧ chosen = MusicEngine.copy_name playlist_name j
                          ∧ ∀ k, i < k < j ->
                              is_Some (taken !! MusicEngine.copy_name playlist_name k)).
      { destruct Hwhich as [-> | (Hnext & j & Hj & -> & Hbefore)].
        - exists (i + 1). split; [lia|]. split; [done|]. intros k Hk. lia.
        - exists j. split; [lia|]. split; [done|].
          intros k Hk. destruct (decide (k = i + 1)) as [-> | Hne].
          + apply Hagree; [lia | done].
          + apply Hagree; [lia|]. apply Hbefore. lia. }
      destruct Hcand as (j & Hj & -> & Hbefore).
      split.
      * rewrite lookup_delete_ne in Hfree; [done|]. intros Heq. by apply (Hdistinct j Hj).
      * right. split; [done|]. by exists j.
    + exists new_name. split; [done|]. split; [|by left].
      destruct (taken !! new_name) eqn:Hl; [|done]. destruct Hin. by eexists.
Qed.

Lemma create_playlist_keeps (E : env) (name : string) (songs : option (list song))
    (s : state) (n : string) (l : list song) :
  playlists s !! n = Some l ->
  playlists (snd (MusicEngine.create_playlist E name songs s)) !! n = Some l
  ∧ ∀ e, fst (MusicEngine.create_playlist E name songs s) ≠ RRaised e.
Proof.
  intros Hl. unfold MusicEngine.create_playlist. case_bool_decide as Hin; [done|].
  match goal with
  | |- context [MusicEngine.transaction E ?tx s] =>
      destruct (transaction_cases E tx s) as [[e ->] | (a & d & ->)]
  end; [done|]. simpl. split; [|done].
  rewrite lookup_insert_ne; [done|]. intros ->. apply Hin. by eexists.
Qed.

(** X22: duplicate_playlist. An unknown playlist is answered with
    not-found. A new name that is given is used as it is (and refused when
    taken). Without one, the names "<name> (Copy)", "<name> (Copy 2)",
    "<name> (Copy 3)", ... are tried in this order and the first one that is
    free is taken: the search ends, within as many rounds as there are
    playlists. The copy is then created by create_playlist with the songs of
    the original; no playlist that was there is replaced or changed, and no
    exception leaves the method. *)
Theorem duplicate_playlist_spec (E : env) (s : state) (playlist_name : string)
    (new_name : option string) :
  (playlists s !! playlist_name = None ->
   MusicEngine.duplicate_playlist E playlist_name new_name s
   = (MusicEngine.not_found playlist_name, s))
  ∧ (∀ playlist, playlists s !! playlist_name = Some playlist ->
      (∀ n, new_name = Some n -> n ≠ EmptyString ->
         MusicEngine.duplicate_playlist E playlist_name new_name s
         = if bool_decide (is_Some (playlists s !! n))
           then (MusicEngine.already_exists n, s)
           else MusicEngine.create_playlist E n (Some playlist) s)
      ∧ (new_name = None ∨ new_name = Some EmptyString ->
         ∃ chosen,
           playlists s !! chosen = None
           ∧ (chosen = playlist_name +:+ " (Copy)"
              ∨ (is_Some (playlists s !! (playlist_name +:+ " (Copy)"))
                 ∧ ∃ j, 1 < j ∧ chosen = MusicEngine.copy_name playlist_name j
                        ∧ ∀ k, 1 < k < j ->
                            is_Some (playlists s !! MusicEngine.copy_name playlist_name k)))
           ∧ MusicEngine.duplicate_playlist E playlist_name new_name s
             = MusicEngine.create_playlist E chosen (Some playlist) s)
      ∧ (∀ n l, playlists s !! n = Some l ->
           playlists (snd (MusicEngine.duplicate_playlist E playlist_name new_name s)) !! n
           = Some l)
      ∧ (∀ e, fst (MusicEngine.duplicate_playlist E playlist_name new_name s)
              ≠ RRaised e)).
Proof.
  split.
  - intros Hnone. unfold MusicEngine.duplicate_playlist. by rewrite Hnone.
  - intros playlist Hpl.
    destruct (copy_name_loop_finds (size (playlists s)) (playlists s) playlist_name 1
                (playlist_name +:+ " (Copy)"))
      as (chosen & Hrun & Hfree & Hwhich);
      [done | intros j _; apply copy_name_not_first |].
    assert (Hgen : new_name = None ∨ new_name = Some EmptyString ->
              MusicEngine.duplicate_playlist E playlist_name new_name s
              = MusicEngine.create_playlist E chosen (Some playlist) s).
    { intros Hnew. unfold MusicEngine.duplicate_playlist. rewrite Hpl, Hrun.
      destruct Hnew as [-> | ->]; cbn [bool_decide decide_rel];
        rewrite ?bool_decide_eq_true_2 by done;
        by rewrite bool_decide_eq_false_2 by (rewrite Hfree; by intros [? ?]). }
    assert (Hgiven : ∀ n, new_name = Some n -> n ≠ EmptyString ->
              MusicEngine.duplicate_playlist E playlist_name new_name s
              = if bool_decide (is_Some (playlists s !! n))
                then (MusicEngine.already_exists n, s)
                else MusicEngine.create_playlist E n (Some playlist) s).
    { intros n -> Hn. unfold MusicEngine.duplicate_playlist. rewrite Hpl.
      by rewrite (bool_decide_eq_false_2 _ Hn). }
    assert (Hcases : (new_name = None ∨ new_name = Some EmptyString)
                     ∨ ∃ n, new_name = Some n ∧ n ≠ EmptyString).
    { destruct new_name as [n|]; [|by left; left].
      destruct (decide (n = EmptyString)) as [-> | Hn]; [by left; right|].
      right. by exists n. }
    repeat apply conj.
    + exact Hgiven.
    + intros Hnew. exists chosen. repeat apply conj; [done | | by apply Hgen].
      destruct Hwhich as [-> | ?]; [by left | by right].
    + intros n l Hl. destruct Hcases as [Hnew | (n' & Hnew & Hn')].
      * rewrite (Hgen Hnew). by apply create_playlist_keeps.
      * rewrite (Hgiven n' Hnew Hn'). case_bool_decide; [done|].
        by apply create_playlist_keeps.
    + intros e. destruct Hcases as [Hnew | (n' & Hnew & Hn')].
      * rewrite (Hgen Hnew).
        apply (create_playlist_keeps E chosen (Some playlist) s playlist_name playlist Hpl).
      * rewrite (Hgiven n' Hnew Hn'). case_bool_decide; [done|].
        apply (create_playlist_keeps E n' (Some playlist) s playlist_name playlist Hpl).
Qed.

Lemma duplicate_playlist_spec_witness :
  let once := snd (MusicEngine.duplicate_playlist Sample.world "P" None Sample.loaded) in
  playlists (snd (MusicEngine.duplicate_playlist Sample.world "P" None once))
    !! "P (Copy)"
  = Some [Sample.song_a; Sample.song_b; Sample.song_c].
Proof.
  intros once.
  destruct (proj2 (duplicate_playlist_spec Sample.world once "P" None)
              [Sample.song_a; Sample.song_b; Sample.song_c] eq_refl)
    as (_ & _ & Hkeeps & _).
  apply Hkeeps. reflexivity.
Defined.

(** ** The volume routes *)

(** X23: the routes /volume/up and /volume/down move the stored volume by
    10 and stop at 100 and at 0. Up followed by down gives back the volume one
    started from exactly when that was at most 90 (from above 90 one ends at
    90), and down followed by up exactly when it was at least 10; while the
    engine is muted neither route touches the device. *)
Theorem volume_routes_saturate (s : state) :
  0 <= volume s <= 100 ->
  let up := snd (Routes.volume_up s) in
  let down := snd (Routes.volume_down s) in
  volume up = Z.min 100 (volume s + 10)
  ∧ volume down = Z.max 0 (volume s - 10)
  ∧ fst (Routes.volume_up s) = RVolume (volume up)
  ∧ fst (Routes.volume_down s) = RVolume (volume down)
  ∧ volume (snd (Routes.volume_down up)) = Z.min (volume s) 90
  ∧ volume (snd (Routes.volume_up down)) = Z.max (volume s) 10
  ∧ (is_muted s = true ->
     player up = player s ∧ player down = player s)
  ∧ (is_muted s = false ->
     audio_volume (player up) = volume up
     ∧ audio_volume (player down) = volume down).
Proof.
  intros Hv up down. subst up down.
  unfold Routes.volume_up, Routes.volume_down, MusicEngine.set_volume.
  cbn [volume set_volume_field is_muted fst snd].
  destruct (is_muted s) eqn:Hm; cbn [volume set_player set_volume_field is_muted
                                     player fst snd];
    rewrite ?Hm; cbn [volume set_player set_volume_field is_muted player fst snd
                      Player.audio_set_volume audio_volume];
    repeat apply conj; try done; try lia; try (f_equal; lia).
Qed.

Lemma volume_routes_saturate_witness :
  volume (snd (Routes.volume_down (snd (Routes.volume_up
            (snd (MusicEngine.set_volume 95 Sample.loaded))))))
  = 90.
Proof.
  destruct (volume_routes_saturate (snd (MusicEngine.set_volume 95 Sample.loaded)))
    as (_ & _ & _ & _ & H & _).
  - simpl. lia.
  - rewrite H. reflexivity.
Defined.

(** ** Duplicates in the [music] table *)

Lemma foldr_min_spec (i : Z) (ids : list Z) :
  foldr Z.min i ids ∈ i :: ids ∧ ∀ j, j ∈ i :: ids -> foldr Z.min i ids <= j.
Proof.
  induction ids as [|k ids [IHin IHle]]; simpl.
  - split; [left|]. intros j Hj. apply list_elem_of_singleton in Hj. lia.
  - split.
    + destruct (Z.min_spec k (foldr Z.min i ids)) as [[_ ->] | [_ ->]].
      * right. left.
      * apply elem_of_cons in IHin as [-> | Hin]; [left | right; by right].
    + intros j Hj. pose proof (IHle i ltac:(left)).
      apply elem_of_cons in Hj as [-> | Hj]; [lia|].
      apply elem_of_cons in Hj as [-> | Hj]; [lia|].
      pose proof (IHle j ltac:(by right)). lia.
Qed.

Lemma min_id_of_Some (name : string) (rows : list music_row) (i : Z) :
  YtDb.min_id_of name rows = Some i ->
  (∃ r, r ∈ rows ∧ m_name r = name ∧ m_id r = i)
  ∧ ∀ r, r ∈ rows -> m_name r = name -> i <= m_id r.
Proof.
  unfold YtDb.min_id_of.
  destruct (m_id <$> filter (fun r => m_name r = name) rows) as [|k ids] eqn:Hids;
    [done|].
  intros [= <-]. destruct (foldr_min_spec k ids) as [Hin Hle]. split.
  - rewrite <- Hids in Hin. apply list_elem_of_fmap in Hin as (r & Hr & Hrin).
    apply list_elem_of_filter in Hrin as [Hn Hrin]. by exists r.
  - intros r Hr Hn. apply Hle. rewrite <- Hids.
    apply list_elem_of_fmap_2. by apply list_elem_of_filter.
Qed.

Lemma min_id_of_is_Some (rows : list music_row) (r : music_row) :
  r ∈ rows -> is_Some (YtDb.min_id_of (m_name r) rows).
Proof.
  intros Hr. unfold YtDb.min_id_of.
  destruct (m_id <$> filter (fun r' => m_name r' = m_name r) rows) as [|k ids] eqn:Hids;
    [|by eexists].
  assert (Hin : m_id r ∈ m_id <$> filter (fun r' => m_name r' = m_name r) rows)
    by (apply list_elem_of_fmap_2; by apply list_elem_of_filter).
  rewrite Hids in Hin. by apply elem_of_nil in Hin.
Qed.

(** With ids that are unique, a row is kept by the DELETE exactly when it has
    the smallest id of its name. *)
Lemma kept_iff_first (rows : list music_row) (r : music_row) :
  NoDup (m_id <$> rows) -> r ∈ rows ->
  m_id r ∈ YtDb.min_ids rows ↔ first_of_its_name rows r.
Proof.
  intros Hnd Hr. unfold YtDb.min_ids. rewrite list_elem_of_omap. split.
  - intros (name & _ & Hmin). apply min_id_of_Some in Hmin as [(r0 & Hr0 & Hn & Hid) Hle].
    assert (r0 = r) as -> by (by apply (fmap_inj_on m_id rows)).
    intros r' Hr' Hn'. apply Hle; [done | congruence].
  - intros Hfirst. exists (m_name r). split.
    + apply elem_of_remove_dups. by apply list_elem_of_fmap_2.
    + destruct (min_id_of_is_Some rows r Hr) as [i Hi]. rewrite Hi. f_equal.
      apply min_id_of_Some in Hi as [(r0 & Hr0 & Hn & Hid) Hle].
      pose proof (Hfirst r0 Hr0 Hn). pose proof (Hle r Hr eq_refl). lia.
Qed.

Lemma filter_all {A} (P : A -> Prop) `{∀ x, Decision (P x)} (l : list A) :
  (∀ x, x ∈ l -> P x) -> filter P l = l.
Proof.
  induction l as [|x l IH]; [done|]. intros Hall.
  rewrite filter_cons_True by (apply Hall; left).
  f_equal. apply IH. intros y Hy. apply Hall. by right.
Qed.

Lemma remove_dups_NoDup_length {A} `{EqDecision A} (l : list A) :
  NoDup l -> length (remove_dups l) = length l.
Proof.
  intros Hnd. apply Permutation_length. apply NoDup_Permutation; [|done|].
  - apply NoDup_remove_dups.
  - intros x. apply elem_of_remove_dups.
Qed.

(** X24: remove_duplicates of yt_db.py, on a table whose ids are unique as
    a primary key's are. Duplicates are rows of the same name (not of the same
    file_location, as its docstring has it): of every name exactly the row with
    the smallest id is kept, the kept rows stay in their order, and every name
    that was in the table still is. The number handed back is the number
    get_duplicate_count gave before the call; after the call
    get_duplicate_count gives 0 and a second remove_duplicates deletes
    nothing. *)
Theorem remove_duplicates_spec (t : music_table) :
  NoDup (m_id <$> m_rows t) ->
  let n := fst (YtDb.remove_duplicates t) in
  let t' := snd (YtDb.remove_duplicates t) in
  n = YtDb.get_duplicate_count t
  ∧ 0 <= n
  ∧ (∀ r, r ∈ m_rows t' ↔ r ∈ m_rows t ∧ first_of_its_name (m_rows t) r)
  ∧ sublist (m_rows t') (m_rows t)
  ∧ NoDup (m_name <$> m_rows t')
  ∧ (∀ name, name ∈ m_name <$> m_rows t' ↔ name ∈ m_name <$> m_rows t)
  ∧ m_seq t' = m_seq t
  ∧ YtDb.get_duplicate_count t' = 0
  ∧ YtDb.remove_duplicates t' = (0, t').
Proof.
  intros Hnd n t'. subst n t'. unfold YtDb.remove_duplicates.
  cbn [fst snd m_rows m_seq].
  set (rows := m_rows t) in *.
  set (kept := filter (fun r => m_id r ∈ YtDb.min_ids rows) rows).
  assert (Hkept : ∀ r, r ∈ kept ↔ r ∈ rows ∧ first_of_its_name rows r).
  { intros r. unfold kept. rewrite list_elem_of_filter. split.
    - intros [Hmin Hr]. split; [done|]. by apply kept_iff_first.
    - intros [Hr Hfirst]. split; [|done]. by apply kept_iff_first. }
  assert (Hsame : ∀ x y, x ∈ kept -> y ∈ kept -> m_name x = m_name y -> x = y).
  { intros x y [Hx Hfx]%Hkept [Hy Hfy]%Hkept Hn.
    apply (fmap_inj_on m_id rows); try done.
    pose proof (Hfx y Hy (eq_sym Hn)). pose proof (Hfy x Hx Hn). lia. }
  assert (Hndrows : NoDup rows) by (by apply (NoDup_fmap_1 m_id)).
  assert (Hndkept : NoDup kept) by (by apply NoDup_filter).
  assert (Hnames : NoDup (m_name <$> kept)) by (by apply NoDup_fmap_2_strong).
  assert (Helems : ∀ name, name ∈ m_name <$> kept ↔ name ∈ m_name <$> rows).
  { intros name. split.
    - intros (r & -> & Hr)%list_elem_of_fmap. apply list_elem_of_fmap_2.
      by apply Hkept in Hr as [Hr _].
    - intros (r & -> & Hr)%list_elem_of_fmap.
      destruct (min_id_of_is_Some rows r Hr) as [i Hi].
      apply min_id_of_Some in Hi as [(r0 & Hr0 & Hn & Hid) Hle].
      rewrite <- Hn. apply list_elem_of_fmap_2. apply Hkept. split; [done|].
      intros r' Hr' Hn'. rewrite Hid. apply Hle; [done | congruence]. }
  assert (Hlen : length kept = length (remove_dups (m_name <$> rows))).
  { rewrite <- (length_fmap m_name kept). apply Permutation_length.
    apply NoDup_Permutation; [done | apply NoDup_remove_dups |].
    intros name. rewrite Helems. symmetry. apply elem_of_remove_dups. }
  assert (Hidskept : NoDup (m_id <$> kept)).
  { apply NoDup_fmap_2_strong; [|done].
    intros x y [Hx _]%Hkept [Hy _]%Hkept Hid. by apply (fmap_inj_on m_id rows). }
  assert (Hagain : filter (fun r => m_id r ∈ YtDb.min_ids kept) kept = kept).
  { apply filter_all. intros r Hr. apply kept_iff_first; [done..|].
    intros r' Hr' Hn. assert (r' = r) as -> by (by apply Hsame). lia. }
  repeat apply conj.
  - unfold YtDb.get_duplicate_count. fold rows. by rewrite Hlen.
  - pose proof (length_filter (fun r => m_id r ∈ YtDb.min_ids rows) rows). fold kept in H.
    lia.
  - exact Hkept.
  - apply sublist_filter.
  - exact Hnames.
  - exact Helems.
  - done.
  - unfold YtDb.get_duplicate_count. cbn [m_rows].
    rewrite remove_dups_NoDup_length by done. rewrite length_fmap. lia.
  - rewrite Hagain. f_equal. lia.
Qed.

Lemma remove_duplicates_spec_witness :
  m_rows (snd (YtDb.remove_duplicates Sample.same_name_rows))
  = [MusicRow 1 "song" [] None None None None "/music/one.mp3" None None;
     MusicRow 2 "other" [] None None None None "/music/other.mp3" None None]
  ∧ fst (YtDb.remove_duplicates Sample.same_name_rows)
    = YtDb.get_duplicate_count Sample.same_name_rows.
Proof.
  assert (Hnd : NoDup (m_id <$> m_rows Sample.same_name_rows)).
  { apply (bool_decide_unpack _). reflexivity. }
  destruct (remove_duplicates_spec Sample.same_name_rows Hnd) as (Hcount & _).
  split; [reflexivity | exact Hcount].
Defined.

(** ** Registering a song and looking it up *)

Lemma max_id_ge (rows : list music_row) (r : music_row) :
  r ∈ rows -> m_id r <= YtDb.max_id rows.
Proof. unfold YtDb.max_id. induction 1 as [r rows | r r' rows _ IH]; simpl; lia. Qed.

(** X25: add_music_entry and find_by_path of yt_db.py. After
    add_music_entry, find_by_path on the absolute path finds a row with the id
    that was handed back, and every lookup that found a row before finds the
    same row. For a path that was not registered, the new row is appended with
    an id above every id of the table and above the AUTOINCREMENT counter, so
    ids that are unique stay unique. find_by_path itself does not make its
    argument absolute: for a path that abspath changes, the path as given is
    still not found after it was registered. *)
Theorem add_music_entry_find_by_path
    (abspath basename : string -> string)
    (file_location : string) (name : option string)
    (metadata : option (list (string * string)))
    (singer cinema album : option string) (duration : option Z)
    (genre : option string) (rating : option Z) (t : music_table) :
  let out := YtDb.add_music_entry abspath basename file_location name metadata
               singer cinema album duration genre rating t in
  (∃ r, YtDb.find_by_path (abspath file_location) (snd out) = Some r
        ∧ m_id r = fst out ∧ m_file_location r = abspath file_location)
  ∧ (∀ loc r, YtDb.find_by_path loc t = Some r ->
       YtDb.find_by_path loc (snd out) = Some r)
  ∧ (abspath file_location ∉ locations t ->
     (∀ r, r ∈ m_rows t -> m_id r < fst out)
     ∧ m_seq t < fst out ∧ m_seq (snd out) = fst out
     ∧ ∃ row, m_rows (snd out) = m_rows t ++ [row]
              ∧ m_id row = fst out
              ∧ m_name row = YtDb.name_or_basename basename name (abspath file_location)
              ∧ m_file_location row = abspath file_location)
  ∧ (NoDup (m_id <$> m_rows t) -> NoDup (m_id <$> m_rows (snd out)))
  ∧ (abspath file_location ≠ file_location -> file_location ∉ locations t ->
     YtDb.find_by_path file_location (snd out) = None).
Proof.
  intros out. subst out.
  unfold YtDb.add_music_entry, YtDb.select_by_location, YtDb.find_by_path.
  destruct (List.find (fun r => bool_decide (m_file_location r = abspath file_location))
              (m_rows t)) as [r|] eqn:Hfind; cbn [fst snd m_rows m_seq].
  - pose proof (find_location_Some _ _ _ Hfind) as [Hr Hloc].
    assert (Hin : abspath file_location ∈ locations t).
    { unfold locations. rewrite <- Hloc. by apply list_elem_of_fmap_2. }
    repeat apply conj.
    + by exists r.
    + done.
    + intros Hfresh. by destruct Hfresh.
    + done.
    + intros Hne Hnot.
      destruct (List.find (fun r => bool_decide (m_file_location r = file_location))
                  (m_rows t)) as [r'|] eqn:Hfind'; [|done].
      apply find_location_Some in Hfind' as [Hr' Hloc']. destruct Hnot.
      unfold locations. rewrite <- Hloc'. by apply list_elem_of_fmap_2.
  - pose proof (find_location_None _ _ Hfind) as Hfresh.
    set (rowid := Z.max (YtDb.max_id (m_rows t)) (m_seq t) + 1).
    assert (Hbelow : ∀ r, r ∈ m_rows t -> m_id r < rowid).
    { intros r Hr. pose proof (max_id_ge _ _ Hr). unfold rowid. lia. }
    repeat apply conj.
    + eexists. split; [by apply find_location_app_fresh|]. done.
    + intros loc r Hr. by apply find_app_hit.
    + intros _. repeat apply conj; [done | unfold rowid; lia | done|].
      eexists. split; [done|]. done.
    + intros Hnd. rewrite fmap_app. simpl. apply NoDup_app.
      repeat apply conj; [done | | apply NoDup_singleton].
      intros i Hi ->%list_elem_of_singleton.
      apply list_elem_of_fmap in Hi as (r & Hid & Hr).
      pose proof (Hbelow r Hr). lia.
    + intros Hne Hnot. rewrite find_app_miss.
      * simpl. by rewrite bool_decide_eq_false_2.
      * destruct (List.find (fun r => bool_decide (m_file_location r = file_location))
                  (m_rows t)) as [r'|] eqn:Hfind'; [|done].
        apply find_location_Some in Hfind' as [Hr' Hloc']. destruct Hnot.
        unfold locations. rewrite <- Hloc'. by apply list_elem_of_fmap_2.
Qed.

Lemma add_music_entry_find_by_path_witness :
  let abspath := fun p => "/home/user/" +:+ p in
  YtDb.find_by_path "song.mp3"
    (snd (YtDb.add_music_entry abspath (fun p => p) "song.mp3" None None None None
            None None None None (MusicTable [] 0)))
  = None.
Proof.
  intros abspath.
  apply (add_music_entry_find_by_path abspath (fun p => p) "song.mp3").
  - discriminate.
  - apply not_elem_of_nil.
Defined.

(** ** The handler and next, mute twice, the bound copy *)

Lemma dropped_fst (o : result * state) :
  (∀ e, fst o ≠ RRaised e) -> fst (MusicEngine.dropped o) = RNone.
Proof.
  intros Hno. unfold MusicEngine.dropped. destruct (fst o) eqn:Hr; try done.
  by destruct (Hno exn).
Qed.

Lemma play_file_not_status (E : env) (file_path : string) (s : state) (msg : string) :
  fst (MusicEngine.play_file E file_path s) ≠ RStatus msg.
Proof. unfold MusicEngine.play_file. by destruct (negb _). Qed.

(** X26: the end-of-track handler does what next does, and stops playback
    when next has nothing to play. With repeat other than 'one': when next
    answers end_of_playlist or no_next_song the handler ends in the state next
    leads to with stop applied on top; in every other case the handler ends in
    the very state next leads to; and unless an exception leaves it the handler
    hands back nothing. *)
Theorem handler_follows_next (E : env) (s : state) :
  repeat s ≠ One ->
  let r := fst (MusicEngine.next E s) in
  let s1 := snd (MusicEngine.next E s) in
  (r = RStatus "end_of_playlist" ∨ r = RStatus "no_next_song" ->
   snd (MusicEngine._handle_song_end E s) = snd (MusicEngine.stop s1))
  ∧ (r ≠ RStatus "end_of_playlist" -> r ≠ RStatus "no_next_song" ->
     snd (MusicEngine._handle_song_end E s) = s1)
  ∧ ((∀ e, r ≠ RRaised e) -> fst (MusicEngine._handle_song_end E s) = RNone).
Proof.
  intros Hrep r s1. subst r s1.
  unfold MusicEngine._handle_song_end, MusicEngine.next.
  rewrite (bool_decide_eq_false_2 _ Hrep).
  destruct (queue s) as [|next_song rest] eqn:Hq.
  - destruct (current_playlist s) as [|x cp] eqn:Hcp.
    + cbn [fst snd]. rewrite dropped_snd.
      repeat apply conj; try done; intros _; by apply dropped_fst.
    + cbn [current_playlist set_playlist_index playlist_index repeat].
      rewrite Hcp.
      case_bool_decide as Hend.
      * case_bool_decide as Hall.
        -- rewrite dropped_snd. repeat apply conj.
           ++ intros [H | H]; by apply play_index_not_status in H.
           ++ done.
           ++ apply dropped_fst.
        -- cbn [fst snd]. rewrite dropped_snd.
           repeat apply conj; try done; intros _; by apply dropped_fst.
      * rewrite dropped_snd. repeat apply conj.
        -- intros [H | H]; by apply play_index_not_status in H.
        -- done.
        -- apply dropped_fst.
  - rewrite dropped_snd. repeat apply conj.
    + intros [H | H]; by apply play_file_not_status in H.
    + done.
    + apply dropped_fst.
Qed.

Lemma handler_follows_next_witness :
  snd (MusicEngine._handle_song_end Sample.world Sample.at_last)
  = snd (MusicEngine.stop (snd (MusicEngine.next Sample.world Sample.at_last))).
Proof.
  apply (handler_follows_next Sample.world Sample.at_last).
  - discriminate.
  - left. reflexivity.
Defined.

(** X27: muting twice is no change of the mute flag or of the stored
    volume, and leaves the device at 0 when the engine was muted and at the
    stored volume when it was not; every other part of the state stays. So two
    calls of toggle_mute give back the state one started from exactly when the
    device was where the flag says: at 0 when muted, at the stored volume when
    not. *)
Theorem toggle_mute_twice (s : state) :
  let s2 := snd (MusicEngine.toggle_mute (snd (MusicEngine.toggle_mute s))) in
  s2 = set_player
         (Player.audio_set_volume (if is_muted s then 0 else volume s) (player s)) s
  ∧ fst (MusicEngine.toggle_mute (snd (MusicEngine.toggle_mute s))) = RMuted (is_muted s)
  ∧ (s2 = s ↔ audio_volume (player s) = (if is_muted s then 0 else volume s)).
Proof.
  intros s2. subst s2. unfold MusicEngine.toggle_mute.
  destruct s as [[m st av tm] ? ? ? ? ? ? ? ? v mu ? ? ?].
  destruct mu; unfold Player.audio_set_volume; cbn;
    (repeat apply conj; try done; first [by intros -> | intros [= H]; congruence]).
Qed.

Lemma toggle_mute_twice_witness :
  snd (MusicEngine.toggle_mute (snd (MusicEngine.toggle_mute Sample.muted)))
  = Sample.muted.
Proof.
  apply (proj2 (proj2 (proj2 (toggle_mute_twice Sample.muted)))). reflexivity.
Defined.

(** X28: the bound copy stays in step with the stored playlist. In every
    state the server can reach, in worlds where shuffling only reorders, a
    playlist that is bound by name is a stored playlist and the bound copy has
    exactly its length, whatever was added, removed, moved, renamed or
    shuffled since it was bound; so every position of the stored list is a
    position of the bound copy. *)
Theorem bound_copy_as_long_as_stored (s : state) (name : string) :
  reachable_in shuffle_permutes s ->
  current_playlist_name s = Some name ->
  ∃ playlist,
    playlists s !! name = Some playlist
    ∧ length (current_playlist s) = length playlist
    ∧ ∀ i, 0 <= i < Z.of_nat (length playlist) ->
        is_Some (py_getitem (current_playlist s) i).
Proof.
  intros Hr.
  assert (Hok : binding_ok s).
  { induction Hr as [d loaded | E o s HE _ IH].
    - by apply binding_ok_unbound.
    - by apply step_binding_ok. }
  intros Hname.
  destruct (Hok name Hname) as (playlist & Hpl & Hlen).
  exists playlist. repeat apply conj; [done | done |].
  intros i Hi. rewrite py_getitem_in_range by lia.
  apply lookup_in_range. lia.
Qed.

Lemma bound_copy_as_long_as_stored_witness :
  let s := snd (step Sample.world_search (OpAddToPlaylist "P" "b")
             (snd (step Sample.world (OpPlayPlaylist "P") Sample.loaded))) in
  ∃ playlist,
    playlists s !! "P" = Some playlist
    ∧ length (current_playlist s) = length playlist
    ∧ ∀ i, 0 <= i < Z.of_nat (length playlist) ->
        is_Some (py_getitem (current_playlist s) i).
Proof.
  intros s. apply bound_copy_as_long_as_stored; [|reflexivity].
  apply (reachable_step _ Sample.world_search); [intros l; reflexivity|].
  apply (reachable_step _ Sample.world); [intros l; reflexivity|].
  apply (reachable_start _ Sample.tables).
Defined.
